(** * MemTracker: hierarchical memory accounting (be/src/runtime/mem-tracker.h)

    A shallow embedding of the inline member functions of [impala::MemTracker]
    (Consume, TryConsume, Release, LimitExceeded, AnyLimitExceeded and the
    accessors) together with the properties they satisfy.

    The header only declares [RuntimeProfile::HighWaterMarkCounter],
    [MemTracker::GcMemory] and [MemTracker::Init]; those three are modelled
    from the written specification and are marked as such.

    Conventions of the embedding:
    - [int64_t] values are integers, and arithmetic on them wraps around
      modulo 2^64 (module [Int64]);
    - a [MemTracker*] is a number, and the object graph [obj] gives the tracker
      behind each pointer; the counters live in a store keyed by tracker;
    - the operations run in a state monad over the store and a log of the
      calls made on the counters, on [GcMemory], on the callbacks and on the
      metrics, so that statements about which calls are made can be read off
      the log;
    - a GC callback is an arbitrary function on the store; what a theorem
      needs of the callbacks is stated as a hypothesis on them;
    - the operations are taken one at a time: interleavings of threads are
      not modelled. *)

From Stdlib Require Import ZArith Lia.
From stdpp Require Import base tactics option list gmap.

Local Open Scope Z_scope.

(** ** 64-bit integers *)

Module Int64.

(** [int64_t] values are integers in [min_signed, max_signed]; the result of
    an arithmetic operation is reduced to that range the way two's
    complement hardware does it. *)
Definition modulus : Z := 2 ^ 64.
Definition min_signed : Z := - 2 ^ 63.
Definition max_signed : Z := 2 ^ 63 - 1.

Definition in_range (z : Z) : Prop := min_signed <= z <= max_signed.

Definition wrap (z : Z) : Z := (z + 2 ^ 63) mod modulus - 2 ^ 63.

Definition add (a b : Z) : Z := wrap (a + b).
Definition sub (a b : Z) : Z := wrap (a - b).
Definition neg (a : Z) : Z := wrap (- a).

(** A [uint64_t] passed where an [int64_t] is expected. *)
Definition of_uint64 (u : Z) : Z := wrap u.

End Int64.

(** ** Pointers and the mutable store *)

(** A [MemTracker*]. *)
Definition ptr : Type := nat.
(** A pointer to a metric object of the metrics registry. *)
Definition metric_ptr : Type := nat.

(** [RuntimeProfile::HighWaterMarkCounter]: the current value and the
    highest value seen. *)
Record HighWaterMarkCounter : Type := mkCounter {
  current_value_ : Z;
  max_value_ : Z
  }.

Global Instance HighWaterMarkCounter_inhabited : Inhabited HighWaterMarkCounter :=
  populate (mkCounter 0 0).

Module Counter.

(** Modelled from the spec: the class [RuntimeProfile::HighWaterMarkCounter]
    (util/runtime-profile.h is not part of the sources).  Section 4.1: a
    signed 64-bit current value paired with a peak; [set(v)] assigns the
    current value and updates the peak, [update(delta)] adds [delta] and
    updates the peak, [try_update(delta, cap)] applies the addition iff the
    resulting current value is at most [cap]; the peak becomes
    [max(peak, current)] after each change. *)
Definition Set_ (v : Z) (c : HighWaterMarkCounter) : HighWaterMarkCounter :=
  mkCounter v (Z.max (max_value_ c) v).

Definition Update (delta : Z) (c : HighWaterMarkCounter) : HighWaterMarkCounter :=
  let new_val := Int64.add (current_value_ c) delta in
  mkCounter new_val (Z.max (max_value_ c) new_val).

Definition TryUpdate (delta max : Z) (c : HighWaterMarkCounter)
  : bool * HighWaterMarkCounter :=
  let new_val := Int64.add (current_value_ c) delta in
  if new_val >? max then (false, c)
  else (true, mkCounter new_val (Z.max (max_value_ c) new_val)).

Definition current_value (c : HighWaterMarkCounter) : Z := current_value_ c.
(** [value()] of a high-water-mark counter is its peak. *)
Definition value (c : HighWaterMarkCounter) : Z := max_value_ c.

End Counter.

(** The mutable part of the process that the tracker operations and the GC
    callbacks act on.  [consumption_] of a tracker points to the tracker's own
    counter ([local_counter_], or the counter a profile created for it), so
    counters are keyed by the owning tracker.  Metrics of the registry are
    kept by type: [PrimitiveMetric<uint64_t>] (the consumption source) and the
    signed [IntMetric]/[BytesMetric] the tracker publishes to. *)
Record mem : Type := mkMem {
  counters : gmap nat HighWaterMarkCounter;
  umetrics : gmap nat Z;
  imetrics : gmap nat Z
  }.

(** [boost::function<void ()>]: a callback acts on the store. *)
Definition GcFunction : Type := mem -> mem.

(** The calls an operation makes on its collaborators, in program order. *)
Inductive event : Type :=
  | EvSet (tracker : ptr) (v : Z)
  | EvUpdate (tracker : ptr) (delta : Z)
  | EvTryUpdate (tracker : ptr) (delta max : Z) (applied : bool)
  | EvGcMemory (tracker : ptr) (max_consumption : Z)
  | EvGcFunction (tracker : ptr) (index : nat)
  | EvMetricUpdate (metric : metric_ptr) (v : Z)
  | EvLogUpdate (tracker : ptr) (is_consume : bool) (bytes : Z)
  | EvDCheckFailed (tracker : ptr).

Record world : Type := mkWorld {
  heap : mem;
  log : list event
  }.

(** The fields of [class MemTracker] that the inline member functions read.
    None of them is written by the operations modelled below: the chains
    are cached by [Init], the callbacks and the metric handles are set while
    the trackers are set up. *)
Record MemTracker : Type := mkMemTracker {
  limit_ : Z;
  parent_ : option ptr;
  consumption_metric_ : option metric_ptr;
  all_trackers_ : list ptr;
  limit_trackers_ : list ptr;
  gc_functions_ : list GcFunction;
  enable_logging_ : bool;
  num_gcs_metric_ : option metric_ptr;
  bytes_freed_by_last_gc_metric_ : option metric_ptr;
  bytes_over_limit_metric_ : option metric_ptr
  }.

(** [void AddGcFunction(GcFunction f) { gc_functions_.push_back(f); }],
    called while the trackers are set up. *)
Definition AddGcFunction (f : GcFunction) (t : MemTracker) : MemTracker :=
  mkMemTracker (limit_ t) (parent_ t) (consumption_metric_ t) (all_trackers_ t)
    (limit_trackers_ t) (gc_functions_ t ++ [f]) (enable_logging_ t)
    (num_gcs_metric_ t) (bytes_freed_by_last_gc_metric_ t)
    (bytes_over_limit_metric_ t).

(** ** The state monad of the operations *)

Definition M (A : Type) : Type := world -> A * world.

Definition ret {A : Type} (a : A) : M A := fun w => (a, w).

Definition bind {A B : Type} (c : M A) (k : A -> M B) : M B :=
  fun w => k (c w).1 (c w).2.

Declare Scope m_scope.
Delimit Scope m_scope with M.
Notation "'do' x <- c ; k" := (bind c (fun x => k))
  (at level 10, x name, c at level 100, k at level 200,
   format "'[v' 'do'  x  <-  c ; '/' k ']'") : m_scope.
Notation "'run' c ; k" := (bind c (fun _ => k))
  (at level 10, c at level 100, k at level 200,
   format "'[v' 'run'  c ; '/' k ']'") : m_scope.

Definition emit (e : event) : M unit :=
  fun w => (tt, mkWorld (heap w) (log w ++ [e])).

Definition get_heap : M mem := fun w => (heap w, w).

Definition modify_heap (f : mem -> mem) : M unit :=
  fun w => (tt, mkWorld (f (heap w)) (log w)).

Definition when (b : bool) (c : M unit) : M unit := if b then c else ret tt.

Fixpoint for_each {A : Type} (l : list A) (body : A -> M unit) : M unit :=
  match l with
  | [] => ret tt
  | x :: rest => bind (body x) (fun _ => for_each rest body)
  end.

(** ** The operations of [MemTracker] *)

Section Operations.

(** The object graph: the tracker behind each pointer. *)
Variable obj : ptr -> MemTracker.

Local Open Scope m_scope.

Definition counter_of (m : mem) (tracker : ptr) : HighWaterMarkCounter :=
  counters m !!! tracker.

Definition set_counter (tracker : ptr) (c : HighWaterMarkCounter) (m : mem) : mem :=
  mkMem (<[tracker := c]> (counters m)) (umetrics m) (imetrics m).

(** [tracker->consumption_->Set(v)] *)
Definition consumption_Set (tracker : ptr) (v : Z) : M unit :=
  run emit (EvSet tracker v);
  modify_heap (fun m => set_counter tracker (Counter.Set_ v (counter_of m tracker)) m).

(** [tracker->consumption_->Update(delta)] *)
Definition consumption_Update (tracker : ptr) (delta : Z) : M unit :=
  run emit (EvUpdate tracker delta);
  modify_heap (fun m => set_counter tracker (Counter.Update delta (counter_of m tracker)) m).

(** [tracker->consumption_->TryUpdate(delta, max)] *)
Definition consumption_TryUpdate (tracker : ptr) (delta max : Z) : M bool :=
  do m <- get_heap;
  let r := Counter.TryUpdate delta max (counter_of m tracker) in
  run emit (EvTryUpdate tracker delta max r.1);
  run when r.1 (modify_heap (set_counter tracker r.2));
  ret r.1.

(** [int64_t consumption() const] *)
Definition consumption (tracker : ptr) : M Z :=
  do m <- get_heap; ret (Counter.current_value (counter_of m tracker)).

(** [int64_t peak_consumption() const] *)
Definition peak_consumption (tracker : ptr) : M Z :=
  do m <- get_heap; ret (Counter.value (counter_of m tracker)).

Definition limit (tracker : ptr) : Z := limit_ (obj tracker).
Definition has_limit (tracker : ptr) : bool := limit_ (obj tracker) >=? 0.
Definition parent (tracker : ptr) : option ptr := parent_ (obj tracker).

(** [consumption_metric_->value()], a [uint64_t]. *)
Definition metric_value (metric : metric_ptr) : M Z :=
  do m <- get_heap; ret (umetrics m !!! metric).

(** [metric->Update(v)] on one of the published metrics. *)
Definition metric_Update (metric : metric_ptr) (v : Z) : M unit :=
  run emit (EvMetricUpdate metric v);
  modify_heap (fun m => mkMem (counters m) (umetrics m) (<[metric := v]> (imetrics m))).

(** glog's [DCHECK]: fatal in a debug build, compiled out under NDEBUG.
    A failed check is recorded and execution goes on as the release
    build does. *)
Definition DCHECK (tracker : ptr) (cond : bool) : M unit :=
  if cond then ret tt else emit (EvDCheckFailed tracker).

(** [LogUpdate] writes to the logging sink only. *)
Definition LogUpdate (tracker : ptr) (is_consume : bool) (bytes : Z) : M unit :=
  emit (EvLogUpdate tracker is_consume bytes).

(** Modelled from the spec: [MemTracker::GcMemory] (declared in the header,
    defined in mem-tracker.cc, which is not part of the sources).
    Section 4.3: sample the consumption and, if it is greater than the
    target, invoke each callback in registration order, stopping early once
    the consumption is at most the target; return whether the consumption
    still exceeds the target; publish, if the metrics are bound, the
    number of invocations and the bytes reclaimed on this pass. *)
Fixpoint run_gc_functions (tracker : ptr) (max_consumption : Z)
    (index : nat) (fs : list GcFunction) : M unit :=
  match fs with
  | [] => ret tt
  | f :: rest =>
      run emit (EvGcFunction tracker index);
      run modify_heap f;
      do c <- consumption tracker;
      if c <=? max_consumption then ret tt
      else run_gc_functions tracker max_consumption (S index) rest
  end.

Definition publish (metric : option metric_ptr) (v : metric_ptr -> mem -> Z) : M unit :=
  match metric with
  | Some mp => do m <- get_heap; metric_Update mp (v mp m)
  | None => ret tt
  end.

Definition GcMemory (tracker : ptr) (max_consumption : Z) : M bool :=
  run emit (EvGcMemory tracker max_consumption);
  do pre_gc_consumption <- consumption tracker;
  if pre_gc_consumption >? max_consumption then
    run publish (num_gcs_metric_ (obj tracker))
          (fun mp m => Int64.add (imetrics m !!! mp) 1);
    run run_gc_functions tracker max_consumption 0 (gc_functions_ (obj tracker));
    do post <- consumption tracker;
    run publish (bytes_freed_by_last_gc_metric_ (obj tracker))
          (fun _ _ => Int64.sub pre_gc_consumption post);
    ret (post >? max_consumption)
  else ret false.

(** [void Consume(int64_t bytes)] *)
Definition Consume (this : ptr) (bytes : Z) : M unit :=
  match consumption_metric_ (obj this) with
  | Some metric =>
      run DCHECK this (bool_decide (parent_ (obj this) = None));
      do v <- metric_value metric;
      consumption_Set this (Int64.of_uint64 v)
  | None =>
      if bytes =? 0 then ret tt else
      run when (enable_logging_ (obj this)) (LogUpdate this true bytes);
      for_each (all_trackers_ (obj this)) (fun tracker =>
        run consumption_Update tracker bytes;
        do c <- consumption tracker;
        DCHECK tracker (c >=? 0))
  end.

(** The body of the loop of [TryConsume] for [all_trackers_[i]]:
    [true] when the loop goes on to [i + 1], [false] on [break]. *)
Definition TryConsume_body (bytes : Z) (tracker : ptr) : M bool :=
  if limit_ (obj tracker) <? 0 then
    run consumption_Update tracker bytes;
    ret true
  else
    do ok <- consumption_TryUpdate tracker bytes (limit_ (obj tracker));
    if ok then ret true
    else
      do exceeded <- GcMemory tracker (Int64.sub (limit_ (obj tracker)) bytes);
      if exceeded then ret false
      else
        do ok2 <- consumption_TryUpdate tracker bytes (limit_ (obj tracker));
        ret ok2.

(** [for (; i < all_trackers_.size(); ++i) { ... break ... }]: runs from
    index [i] over the remaining trackers and returns the final [i]. *)
Fixpoint TryConsume_loop (bytes : Z) (remaining : list ptr) (i : nat) : M nat :=
  match remaining with
  | [] => ret i
  | tracker :: rest =>
      do continue <- TryConsume_body bytes tracker;
      if continue then TryConsume_loop bytes rest (S i) else ret i
  end.

(** [bool TryConsume(int64_t bytes)] *)
Definition TryConsume (this : ptr) (bytes : Z) : M bool :=
  run match consumption_metric_ (obj this) with
      | Some metric =>
          do v <- metric_value metric; consumption_Set this (Int64.of_uint64 v)
      | None => ret tt
      end;
  if bytes =? 0 then ret true else
  run when (enable_logging_ (obj this)) (LogUpdate this true bytes);
  do i <- TryConsume_loop bytes (all_trackers_ (obj this)) 0;
  if (i =? length (all_trackers_ (obj this)))%nat then ret true else
  run for_each (take i (all_trackers_ (obj this))) (fun tracker =>
        consumption_Update tracker (Int64.neg bytes));
  ret false.

(** [void Release(int64_t bytes)] *)
Definition Release (this : ptr) (bytes : Z) : M unit :=
  match consumption_metric_ (obj this) with
  | Some metric =>
      run DCHECK this (bool_decide (parent_ (obj this) = None));
      do v <- metric_value metric;
      consumption_Set this (Int64.of_uint64 v)
  | None =>
      if bytes =? 0 then ret tt else
      run when (enable_logging_ (obj this)) (LogUpdate this false bytes);
      for_each (all_trackers_ (obj this)) (fun tracker =>
        run consumption_Update tracker (Int64.neg bytes);
        do c <- consumption tracker;
        DCHECK tracker (c >=? 0))
  end.

(** [bool CheckLimitExceeded() const] *)
Definition CheckLimitExceeded (this : ptr) : M bool :=
  do c <- consumption this;
  ret ((limit_ (obj this) >=? 0) && (limit_ (obj this) <? c)).

(** [bool LimitExceeded()] *)
Definition LimitExceeded (this : ptr) : M bool :=
  do exceeded <- CheckLimitExceeded this;
  if exceeded then
    run match bytes_over_limit_metric_ (obj this) with
        | Some metric =>
            do c <- consumption this;
            metric_Update metric (Int64.sub c (limit_ (obj this)))
        | None => ret tt
        end;
    GcMemory this (limit_ (obj this))
  else ret false.

(** [bool AnyLimitExceeded()] *)
Fixpoint AnyLimitExceeded_loop (trackers : list ptr) : M bool :=
  match trackers with
  | [] => ret false
  | tracker :: rest =>
      do exceeded <- LimitExceeded tracker;
      if exceeded then ret true else AnyLimitExceeded_loop rest
  end.

Definition AnyLimitExceeded (this : ptr) : M bool :=
  AnyLimitExceeded_loop (limit_trackers_ (obj this)).

End Operations.

(** ** Reading the store *)

(** [consumption()] and [peak_consumption()] of a tracker in a store. *)
Definition cur (m : mem) (tracker : ptr) : Z :=
  Counter.current_value (counter_of m tracker).

Definition peak (m : mem) (tracker : ptr) : Z :=
  Counter.value (counter_of m tracker).

(** The store an operation leaves and the value it returns. *)
Definition result_of {A : Type} (c : M A) (w : world) : A := (c w).1.
Definition world_after {A : Type} (c : M A) (w : world) : world := (c w).2.
Abbreviation heap_after c w := (heap (world_after c w)).
Abbreviation log_after c w := (log (world_after c w)).

(** The events an operation appended to the log. *)
Definition emitted {A : Type} (c : M A) (w : world) : list event :=
  drop (length (log w)) (log_after c w).

(** ** Conditions on GC callbacks *)

(** Every callback registered on [tracker] relates the store it runs in to
    the store it leaves by [R]. *)
Definition gc_functions_respect (obj : ptr -> MemTracker)
  (R : mem -> mem -> Prop) (tracker : ptr) : Prop :=
  forall f m, f ∈ gc_functions_ (obj tracker) -> R m (f m).

(** No tracker's consumption differs between the two stores. *)
Definition same_consumption (m m' : mem) : Prop :=
  forall p, cur m' p = cur m p.

(** No tracker's consumption is higher in [m'] than in [m]. *)
Definition no_higher_consumption (m m' : mem) : Prop :=
  forall p, cur m' p <= cur m p.

(** From [m] to [m'] no peak went down, and a tracker whose peak covered its
    consumption still has it covered. *)
Definition peaks_kept (m m' : mem) : Prop :=
  forall p, peak m p <= peak m' p /\ (cur m p <= peak m p -> cur m' p <= peak m' p).

(** An operation [c] takes every store to one related to it by [R]. *)
Definition respects {A : Type} (R : mem -> mem -> Prop) (c : M A) : Prop :=
  forall w, R (heap w) (heap_after c w).

(** The consumption of [p] after [consumption_->Update(delta)] has been
    applied to each tracker of [trackers], starting from the value [c]. *)
Definition charged (p : ptr) (delta : Z) (c : Z) (trackers : list ptr) : Z :=
  foldl (fun c x => if decide (x = p) then Int64.add c delta else c) c trackers.

(** The world in which the loop of [TryConsume] starts: after the optional
    re-sampling of the consumption metric and the optional [LogUpdate]. *)
Definition TryConsume_prologue (obj : ptr -> MemTracker) (this : ptr) (bytes : Z)
  : M unit :=
  bind (match consumption_metric_ (obj this) with
      | Some metric =>
          bind (metric_value metric)
            (fun v => consumption_Set this (Int64.of_uint64 v))
      | None => ret tt
      end)
  (fun _ => when (enable_logging_ (obj this)) (LogUpdate this true bytes)).

(** [TryConsume] up to the end of its first loop; the result is the index
    [i] at which the loop stopped. *)
Definition TryConsume_walk (obj : ptr -> MemTracker) (this : ptr) (bytes : Z)
  : M nat :=
  bind (TryConsume_prologue obj this bytes)
    (fun _ => TryConsume_loop obj bytes (all_trackers_ (obj this)) 0).

(** The roll-back loop of [TryConsume]: [for (int j = 0; j < i; ++j)]. *)
Definition TryConsume_rollback (obj : ptr -> MemTracker) (this : ptr) (bytes : Z)
  (i : nat) : M unit :=
  for_each (take i (all_trackers_ (obj this)))
  (fun tracker => consumption_Update tracker (Int64.neg bytes)).

(** ** Concrete trackers used in examples *)

Module Scenario.

(** A tracker as the first constructor leaves it: no consumption metric, no
    published metrics, logging off. *)
Definition plain (byte_limit : Z) (parent : option ptr) (chain : list ptr)
    (limited : list ptr) (gcs : list GcFunction) : MemTracker :=
  mkMemTracker byte_limit parent None chain limited gcs false None None None.

(** A store in which nothing has been charged yet. *)
Definition fresh : world := mkWorld (mkMem ∅ ∅ ∅) [].

(** A callback that frees nothing: it only touches a metric. *)
Definition gc_idle : GcFunction :=
  fun m => mkMem (counters m) (<[7%nat := 1]> (umetrics m)) (imetrics m).

(** A callback that releases [bytes] on the counter of [tracker]. *)
Definition gc_release (tracker : ptr) (bytes : Z) : GcFunction :=
  fun m => set_counter tracker
             (Counter.Update (Int64.neg bytes) (counter_of m tracker)) m.

(** root (limit 100) <- child (limit 50); root is 0, child is 1. *)
Definition chain2 (p : ptr) : MemTracker :=
  match p with
  | O => plain 100 None [0%nat] [0%nat] []
  | _ => plain 50 (Some 0%nat) [1%nat; 0%nat] [1%nat; 0%nat] []
  end.

(** root (limit 100) <- A (limit 80) <- B (no limit); root is 0, A is 1 and
    carries an idle callback, B is 2. *)
Definition chain3 (p : ptr) : MemTracker :=
  match p with
  | O => plain 100 None [0%nat] [0%nat] []
  | S O => plain 80 (Some 0%nat) [1%nat; 0%nat] [1%nat; 0%nat] [gc_idle]
  | _ => plain (-1) (Some 1%nat) [2%nat; 1%nat; 0%nat] [1%nat; 0%nat] []
  end.

(** The distance of a tracker of [chain3] (or [chain2]) to the root. *)
Definition depth_of (p : ptr) : nat := Nat.min p 2.

(** A single tracker (pointer 0) with limit 100 and one callback that
    releases 50 bytes on it. *)
Definition single_gc (p : ptr) : MemTracker :=
  AddGcFunction (gc_release 0%nat 50) (plain 100 None [0%nat] [0%nat] []).

(** A single tracker (pointer 0) with limit 100 and no callback. *)
Definition single (p : ptr) : MemTracker :=
  plain 100 None [0%nat] [0%nat] [].

(** The process tracker: pointer 0, limit 1000, consumption taken from
    metric 3. *)
Definition process (p : ptr) : MemTracker :=
  mkMemTracker 1000 None (Some 3%nat) [0%nat] [0%nat] [] false None None None.

(** A store in which metric 3 reads 500. *)
Definition metric500 : world := mkWorld (mkMem ∅ {[3%nat := 500]} ∅) [].

(** [chain2] after [Consume(40)] on the child. *)
Definition charged40 : world := world_after (Consume chain2 1%nat 40) fresh.

End Scenario.

(** No tracker other than [t] has a higher consumption in [m'] than in [m]. *)
Definition others_no_higher (t : ptr) (m m' : mem) : Prop :=
  forall p, p <> t -> cur m' p <= cur m p.

(** ** Reading the log *)

Definition is_TryUpdate (e : event) : bool :=
  match e with EvTryUpdate _ _ _ _ => true | _ => false end.

(** The events that follow the first call of [GcMemory]. *)
Fixpoint after_GcMemory (es : list event) : list event :=
  match es with
  | [] => []
  | EvGcMemory _ _ :: rest => rest
  | _ :: rest => after_GcMemory rest
  end.

(** How often [TryUpdate] was called again after [GcMemory] had been called. *)
Definition retries (es : list event) : nat :=
  length (filter is_TryUpdate (after_GcMemory es)).

(** What [GcMemory] does after it has been entered: it calls callbacks and
    publishes metrics. *)
Definition gc_step_event (e : event) : Prop :=
  match e with
  | EvGcFunction _ _ | EvMetricUpdate _ _ => True
  | _ => False
  end.

(** An operation only appends to the log, and what it appends satisfies [P]. *)
Definition appends {A : Type} (P : event -> Prop) (c : M A) : Prop :=
  forall w, exists es, log_after c w = log w ++ es /\ Forall P es.

(** The reading of the retry of [TryConsume] under which the counter is tried
    again exactly once whenever the first [TryUpdate] on a limited tracker has
    failed. *)
Definition retried_exactly_once (obj : ptr -> MemTracker) (bytes : Z)
    (tracker : ptr) (w : world) : Prop :=
  0 <= limit_ (obj tracker) ->
  result_of (consumption_TryUpdate tracker bytes (limit_ (obj tracker))) w = false ->
  retries (emitted (TryConsume_body obj bytes tracker) w) = 1%nat.

(** ** Sequences of operations *)

(** How often [p] is listed in a chain. *)
Fixpoint occurrences (p : ptr) (trackers : list ptr) : Z :=
  match trackers with
  | [] => 0
  | x :: rest => (if decide (x = p) then 1 else 0) + occurrences p rest
  end.

(** A call of one of the operations of a tracker. *)
Inductive operation : Type :=
  | OpConsume (tracker : ptr) (bytes : Z)
  | OpRelease (tracker : ptr) (bytes : Z)
  | OpTryConsume (tracker : ptr) (bytes : Z)
  | OpLimitExceeded (tracker : ptr).

Definition perform (obj : ptr -> MemTracker) (op : operation) : M unit :=
  match op with
  | OpConsume t bytes => Consume obj t bytes
  | OpRelease t bytes => Release obj t bytes
  | OpTryConsume t bytes => bind (TryConsume obj t bytes) (fun _ => ret tt)
  | OpLimitExceeded t => bind (LimitExceeded obj t) (fun _ => ret tt)
  end.

(** Calls made one after the other. *)
Definition perform_all (obj : ptr -> MemTracker) (ops : list operation) : M unit :=
  for_each ops (perform obj).

Definition target (op : operation) : ptr :=
  match op with
  | OpConsume t _ | OpRelease t _ | OpTryConsume t _ | OpLimitExceeded t => t
  end.

(** A [Consume(n)] and the [Release(n)] that belongs to it, on one tracker. *)
Definition consume_release_pair (tn : ptr * Z) : list operation :=
  [OpConsume tn.1 tn.2; OpRelease tn.1 tn.2].

(** A sequence of calls is balanced when it consists of consume/release
    pairs, in any interleaving. *)
Definition balanced (ops : list operation) : Prop :=
  exists pairs : list (ptr * Z), ops ≡ₚ flat_map consume_release_pair pairs.

(** The bytes one call adds to the tally of [p], as an integer. *)
Definition delta (obj : ptr -> MemTracker) (p : ptr) (op : operation) : Z :=
  match op with
  | OpConsume t bytes => occurrences p (all_trackers_ (obj t)) * bytes
  | OpRelease t bytes => occurrences p (all_trackers_ (obj t)) * (- bytes)
  | _ => 0
  end.

Definition net (obj : ptr -> MemTracker) (p : ptr) (ops : list operation) : Z :=
  foldr (fun op acc => delta obj p op + acc) 0 ops.

Definition is_charge (op : operation) : Prop :=
  match op with OpConsume _ _ | OpRelease _ _ => True | _ => False end.

(** ** Trackers with a consumption metric *)

(** The value [consumption_->Set(consumption_metric_->value())] stores. *)
Definition sampled (m : mem) (metric : metric_ptr) : Z :=
  Int64.of_uint64 (umetrics m !!! metric).

(** The counter of [tracker] holds the current sample of [metric]. *)
Definition tracks_metric (tracker : ptr) (metric : metric_ptr) (m : mem) : Prop :=
  cur m tracker = sampled m metric.

(** A step that keeps the counter on the sample if it was on it. *)
Definition keeps_tracking (tracker : ptr) (metric : metric_ptr) (m m' : mem) : Prop :=
  tracks_metric tracker metric m -> tracks_metric tracker metric m'.

(** The events of a failed [DCHECK(parent_ == NULL)], if any. *)
Definition parent_check (obj : ptr -> MemTracker) (tracker : ptr) : list event :=
  if bool_decide (parent_ (obj tracker) = None) then [] else [EvDCheckFailed tracker].

(** ** Construction of the chains *)

(** Modelled from the spec: [MemTracker::Init()] (declared in the header,
    defined in mem-tracker.cc, which is not part of the sources).  Section 3:
    the ancestor chain is the ordered sequence self, parent, grandparent, ...,
    root, cached at construction, and the limited ancestors are the trackers
    of the chain whose limit is non-negative.  [fuel] bounds the walk along
    the parent links. *)
Fixpoint ancestor_chain (obj : ptr -> MemTracker) (fuel : nat) (tracker : ptr)
  : list ptr :=
  match fuel with
  | O => []
  | S fuel' =>
      tracker :: match parent_ (obj tracker) with
                 | Some q => ancestor_chain obj fuel' q
                 | None => []
                 end
  end.

Definition limited_ancestors (obj : ptr -> MemTracker) (chain : list ptr) : list ptr :=
  filter (fun p => 0 <= limit_ (obj p)) chain.

(** The parent links form a forest: [depth] is the distance to the root. *)
Definition forest (obj : ptr -> MemTracker) (depth : ptr -> nat) : Prop :=
  forall p q, parent_ (obj p) = Some q -> depth p = S (depth q).

(** The cached chains of [tracker] are the ones [Init] computes. *)
Definition initialised (obj : ptr -> MemTracker) (depth : ptr -> nat)
    (tracker : ptr) : Prop :=
  all_trackers_ (obj tracker) = ancestor_chain obj (S (depth tracker)) tracker
  /\ limit_trackers_ (obj tracker)
     = limited_ancestors obj (all_trackers_ (obj tracker)).

(** ** Further notions for the rest of the header *)

(** [void EnableLogging(bool enable, bool log_stack)].  [log_stack_] is read
    by [LogUpdate] only, which writes to the logging sink, so the second
    argument leaves no trace in the fields modelled here. *)
Definition EnableLogging (enable log_stack : bool) (t : MemTracker) : MemTracker :=
  mkMemTracker (limit_ t) (parent_ t) (consumption_metric_ t) (all_trackers_ t)
    (limit_trackers_ t) (gc_functions_ t) enable
    (num_gcs_metric_ t) (bytes_freed_by_last_gc_metric_ t)
    (bytes_over_limit_metric_ t).

(** The object graph after [tracker->EnableLogging(enable, log_stack)]. *)
Definition with_logging (obj : ptr -> MemTracker) (tracker : ptr)
    (enable log_stack : bool) : ptr -> MemTracker :=
  fun p => if decide (p = tracker) then EnableLogging enable log_stack (obj p)
           else obj p.

(** The charge of [bytes] fits at tracker [p] in store [m]: [p] has no limit,
    or [TryUpdate(bytes, limit)] on its counter is applied. *)
Definition fits (obj : ptr -> MemTracker) (bytes : Z) (m : mem) (p : ptr) : Prop :=
  limit_ (obj p) < 0 \/ Int64.add (cur m p) bytes <= limit_ (obj p).

(** The limit of [t] is exceeded in store [m]: what [CheckLimitExceeded]
    tests. *)
Definition exceeded (obj : ptr -> MemTracker) (m : mem) (t : ptr) : Prop :=
  0 <= limit_ (obj t) /\ limit_ (obj t) < cur m t.

(** No counter differs between the two stores (neither the current value nor
    the peak). *)
Definition same_counters (m m' : mem) : Prop :=
  forall p, counter_of m' p = counter_of m p.

(** The call [TryConsume] makes on the counter of a tracker at which the
    charge fits. *)
Definition admission_call (obj : ptr -> MemTracker) (bytes : Z) (t : ptr) : event :=
  if limit_ (obj t) <? 0 then EvUpdate t bytes
  else EvTryUpdate t bytes (limit_ (obj t)) true.

(** The event of [if (enable_logging_) LogUpdate(is_consume, bytes)]. *)
Definition logging_events (obj : ptr -> MemTracker) (this : ptr)
    (is_consume : bool) (bytes : Z) : list event :=
  if enable_logging_ (obj this) then [EvLogUpdate this is_consume bytes] else [].

(** The events of one round of the loop of [Consume] and [Release] at a
    tracker whose consumption is [c]: the update by [d] and, when the value
    it leaves is negative, the failed [DCHECK_GE]. *)
Definition charge_events (d : Z) (c : Z) (t : ptr) : list event :=
  EvUpdate t d :: if Int64.add c d <? 0 then [EvDCheckFailed t] else [].

Definition is_LogUpdate (e : event) : bool :=
  match e with EvLogUpdate _ _ _ => true | _ => false end.

(** The calls of a log other than those of [LogUpdate]. *)
Definition calls (es : list event) : list event :=
  List.filter (fun e => negb (is_LogUpdate e)) es.

(** Two runs that start from the same store, after the same calls other than
    [LogUpdate], give the same value and the same store, and make the same
    calls other than [LogUpdate]. *)
Definition agree {A : Type} (c c' : M A) : Prop :=
  forall w w', heap w = heap w' -> calls (log w) = calls (log w') ->
    result_of c w = result_of c' w'
    /\ heap_after c w = heap_after c' w'
    /\ calls (log_after c w) = calls (log_after c' w').

(** Two object graphs whose trackers differ in [enable_logging_] at most. *)
Definition same_but_logging (obj obj' : ptr -> MemTracker) : Prop :=
  forall p, obj' p = EnableLogging (enable_logging_ (obj' p)) false (obj p).

(** The store after [consumption_->Update(d)] on each tracker of a list, in
    order. *)
Definition charge_store (d : Z) (trackers : list ptr) (m : mem) : mem :=
  foldl (fun m t => set_counter t (Counter.Update d (counter_of m t)) m) m trackers.

(** The calls of [LogUpdate] in a log. *)
Definition logged (es : list event) : list event := List.filter is_LogUpdate es.

(** An operation only appends to the log, and the calls of [LogUpdate] among
    what it appends are [l]. *)
Definition logs {A : Type} (l : list event) (c : M A) : Prop :=
  forall w, exists es, log_after c w = log w ++ es /\ logged es = l.

(** ** Callbacks on a tracker with a consumption metric *)

Module MetricScenario.

(** A callback in the manner of the process tracker's: it returns memory to
    the system, which lowers the metric to [v], and touches no counter. *)
Definition gc_lower_metric (metric : metric_ptr) (v : Z) : GcFunction :=
  fun m => mkMem (counters m) (<[metric := v]> (umetrics m)) (imetrics m).

(** A callback that lowers the metric to [v] and has [tracker] sample it
    again, as [Release] on the tracker does. *)
Definition gc_resample (tracker : ptr) (metric : metric_ptr) (v : Z) : GcFunction :=
  fun m =>
    set_counter tracker (Counter.Set_ (Int64.of_uint64 v) (counter_of m tracker))
      (gc_lower_metric metric v m).

(** The tracker of [Scenario.process] with one callback added. *)
Definition process_with (f : GcFunction) (p : ptr) : MemTracker :=
  AddGcFunction f (Scenario.process p).

End MetricScenario.

(** The reading of the charge of [TryConsume] on a tracker with a consumption
    metric under which every accepted call leaves the consumption at the
    value sampled at the start of the call plus [bytes]. *)
Definition charges_on_top_of_sample (obj : ptr -> MemTracker) (this : ptr)
    (metric : metric_ptr) (bytes : Z) (w : world) : Prop :=
  result_of (TryConsume obj this bytes) w = true ->
  cur (heap_after (TryConsume obj this bytes) w) this
  = Int64.add (sampled (heap w) metric) bytes.

(** The tracker of the first failed [DCHECK] of a log, if there is one: the
    check at which a debug build stops. *)
Fixpoint first_failed_check (es : list event) : option ptr :=
  match es with
  | [] => None
  | EvDCheckFailed t :: _ => Some t
  | _ :: rest => first_failed_check rest
  end.

(** * Properties *)

(** ** Arithmetic modulo 2^64 *)

Module Int64Facts.

Lemma wrap_range z : Int64.in_range (Int64.wrap z).
Proof.
  unfold Int64.in_range, Int64.wrap, Int64.min_signed, Int64.max_signed, Int64.modulus.
  pose proof (Z.mod_pos_bound (z + 2 ^ 63) (2 ^ 64) ltac:(lia)). lia.
Qed.

Lemma wrap_id z : Int64.in_range z -> Int64.wrap z = z.
Proof.
  unfold Int64.in_range, Int64.wrap, Int64.min_signed, Int64.max_signed, Int64.modulus. intros H.
  rewrite Z.mod_small by lia. lia.
Qed.

Lemma wrap_wrap_add_l a b : Int64.wrap (Int64.wrap a + b) = Int64.wrap (a + b).
Proof.
  unfold Int64.wrap, Int64.modulus.
  replace ((a + 2 ^ 63) mod 2 ^ 64 - 2 ^ 63 + b + 2 ^ 63)
    with ((a + 2 ^ 63) mod 2 ^ 64 + b) by lia.
  rewrite Zplus_mod_idemp_l. f_equal. f_equal. lia.
Qed.

Lemma wrap_wrap_add_r a b : Int64.wrap (a + Int64.wrap b) = Int64.wrap (a + b).
Proof. rewrite Z.add_comm, wrap_wrap_add_l. f_equal. lia. Qed.

Lemma wrap_idem a : Int64.wrap (Int64.wrap a) = Int64.wrap a.
Proof. apply wrap_id, wrap_range. Qed.

Lemma add_range a b : Int64.in_range (Int64.add a b).
Proof. apply wrap_range. Qed.

Lemma add_exact a b : Int64.in_range (a + b) -> Int64.add a b = a + b.
Proof. apply wrap_id. Qed.

Lemma sub_exact a b : Int64.in_range (a - b) -> Int64.sub a b = a - b.
Proof. apply wrap_id. Qed.

Lemma add_0_r a : Int64.in_range a -> Int64.add a 0 = a.
Proof. intros H. unfold Int64.add. rewrite Z.add_0_r. by apply wrap_id. Qed.

(** Adding [b] and then the negation of [b] gives back the value, also
    when the intermediate sum wrapped around. *)
Lemma add_neg_cancel a b : Int64.in_range a -> Int64.add (Int64.add a b) (Int64.neg b) = a.
Proof.
  intros H. unfold Int64.add, Int64.neg.
  rewrite wrap_wrap_add_l, wrap_wrap_add_r.
  replace (a + b + - b) with a by lia. by apply wrap_id.
Qed.

Lemma add_comm_chain a b c : Int64.add (Int64.add a b) c = Int64.add (Int64.add a c) b.
Proof.
  unfold Int64.add. rewrite !wrap_wrap_add_l. f_equal. lia.
Qed.

End Int64Facts.

(** ** Running a sequence *)

Global Arguments Int64.wrap : simpl never.
Global Arguments Int64.add : simpl never.
Global Arguments Int64.sub : simpl never.
Global Arguments Int64.neg : simpl never.
Global Arguments counter_of : simpl never.
Global Arguments set_counter : simpl never.
Global Arguments cur : simpl never.
Global Arguments peak : simpl never.
Global Arguments bind : simpl never.
Global Arguments consumption_Update : simpl never.
Global Arguments consumption_TryUpdate : simpl never.
Global Arguments consumption_Set : simpl never.
Global Arguments GcMemory : simpl never.
Global Arguments TryConsume_body : simpl never.

(** Closed decidable facts (membership in a concrete chain, absence of
    repetitions) are settled by evaluation. *)
Ltac by_evaluation := apply (bool_decide_unpack _); vm_compute; exact I.

Lemma run_bind {A B : Type} (c : M A) (k : A -> M B) (w : world) :
  bind c k w = k (result_of c w) (world_after c w).
Proof. reflexivity. Qed.

Lemma result_bind {A B : Type} (c : M A) (k : A -> M B) (w : world) :
  result_of (bind c k) w = result_of (k (result_of c w)) (world_after c w).
Proof. reflexivity. Qed.

Lemma world_bind {A B : Type} (c : M A) (k : A -> M B) (w : world) :
  world_after (bind c k) w = world_after (k (result_of c w)) (world_after c w).
Proof. reflexivity. Qed.

Lemma result_of_eq {A : Type} (c c' : M A) (w : world) :
  c w = c' w -> result_of c w = result_of c' w.
Proof. unfold result_of. by intros ->. Qed.

Lemma world_after_eq {A : Type} (c c' : M A) (w : world) :
  c w = c' w -> world_after c w = world_after c' w.
Proof. unfold world_after. by intros ->. Qed.

Lemma result_ret {A : Type} (a : A) (w : world) : result_of (ret a) w = a.
Proof. reflexivity. Qed.

Lemma world_ret {A : Type} (a : A) (w : world) : world_after (ret a) w = w.
Proof. reflexivity. Qed.

(** ** Chains computed by Init *)

Section Chains.

Variable obj : ptr -> MemTracker.
Variable depth : ptr -> nat.
Hypothesis Hforest : forest obj depth.

Lemma ancestor_chain_depth fuel t q :
  q ∈ ancestor_chain obj fuel t -> (depth q <= depth t)%nat.
Proof.
  revert t. induction fuel as [|fuel IH]; intros t Hq; [inversion Hq|].
  cbn [ancestor_chain] in Hq. apply elem_of_cons in Hq as [->|Hq]; [lia|].
  destruct (parent_ (obj t)) as [r|] eqn:Hr; [|inversion Hq].
  apply IH in Hq. rewrite (Hforest t r Hr). lia.
Qed.

(** No tracker is its own ancestor, so a chain lists each tracker once. *)
Lemma ancestor_chain_NoDup fuel t : NoDup (ancestor_chain obj fuel t).
Proof.
  revert t. induction fuel as [|fuel IH]; intros t; [constructor|].
  cbn [ancestor_chain]. apply NoDup_cons. split.
  - destruct (parent_ (obj t)) as [r|] eqn:Hr; [|apply not_elem_of_nil].
    intros Hin. apply ancestor_chain_depth in Hin.
    rewrite (Hforest t r Hr) in Hin. lia.
  - destruct (parent_ (obj t)); [apply IH | constructor].
Qed.

(** With fuel beyond the depth the walk reaches a tracker without parent. *)
Lemma ancestor_chain_reaches_root fuel t :
  (depth t < fuel)%nat ->
  exists root, last (ancestor_chain obj fuel t) = Some root
               /\ parent_ (obj root) = None.
Proof.
  revert t. induction fuel as [|fuel IH]; intros t Hfuel; [lia|].
  cbn [ancestor_chain]. destruct (parent_ (obj t)) as [r|] eqn:Hr.
  - destruct (IH r) as (root & Hlast & Hroot).
    { rewrite (Hforest t r Hr) in Hfuel. lia. }
    exists root. split; [|done].
    destruct fuel as [|fuel']; [rewrite (Hforest t r Hr) in Hfuel; lia|].
    cbn [ancestor_chain] in *. by rewrite last_cons, Hlast.
  - exists t. by split.
Qed.

Lemma initialised_chain t :
  initialised obj depth t ->
  NoDup (all_trackers_ (obj t))
  /\ head (all_trackers_ (obj t)) = Some t
  /\ (forall p, p ∈ limit_trackers_ (obj t) <->
                p ∈ all_trackers_ (obj t) /\ 0 <= limit_ (obj p)).
Proof.
  intros [Hall Hlim]. split; [|split].
  - rewrite Hall. apply ancestor_chain_NoDup.
  - by rewrite Hall.
  - intros p. rewrite Hlim. unfold limited_ancestors.
    rewrite list_elem_of_filter. tauto.
Qed.

End Chains.

Example chain3_is_initialised :
  forest Scenario.chain3 Scenario.depth_of
  /\ forall t, (t <= 2)%nat -> initialised Scenario.chain3 Scenario.depth_of t.
Proof.
  split.
  - intros [|[|p]] q; cbn [Scenario.chain3 Scenario.plain parent_]; intros [= <-];
      unfold Scenario.depth_of; lia.
  - intros [|[|[|t]]] Ht; try lia; split; reflexivity.
Qed.

(** ** Counters in the store *)

Section CounterFacts.

Lemma counter_of_set_counter t c m p :
  counter_of (set_counter t c m) p = if decide (t = p) then c else counter_of m p.
Proof.
  unfold counter_of, set_counter; simpl.
  destruct (decide (t = p)) as [->|Hne].
  - by rewrite lookup_total_insert_eq.
  - by rewrite lookup_total_insert_ne.
Qed.

Lemma cur_set_counter t c m p :
  cur (set_counter t c m) p = if decide (t = p) then current_value_ c else cur m p.
Proof. unfold cur. rewrite counter_of_set_counter. by destruct (decide (t = p)). Qed.

Lemma peak_set_counter t c m p :
  peak (set_counter t c m) p = if decide (t = p) then max_value_ c else peak m p.
Proof. unfold peak. rewrite counter_of_set_counter. by destruct (decide (t = p)). Qed.

Lemma heap_Update t d w :
  heap_after (consumption_Update t d) w
  = set_counter t (Counter.Update d (counter_of (heap w) t)) (heap w).
Proof. reflexivity. Qed.

Lemma heap_Set t v w :
  heap_after (consumption_Set t v) w
  = set_counter t (Counter.Set_ v (counter_of (heap w) t)) (heap w).
Proof. reflexivity. Qed.

Lemma cur_Update t d w p :
  cur (heap_after (consumption_Update t d) w) p
  = if decide (t = p) then Int64.add (cur (heap w) p) d else cur (heap w) p.
Proof.
  rewrite heap_Update, cur_set_counter.
  destruct (decide (t = p)) as [->|]; reflexivity.
Qed.

Lemma result_TryUpdate t d mx w :
  result_of (consumption_TryUpdate t d mx) w
  = negb (Int64.add (cur (heap w) t) d >? mx).
Proof.
  unfold result_of, consumption_TryUpdate, bind, get_heap, Counter.TryUpdate, cur,
    Counter.current_value; simpl.
  by destruct (_ >? _).
Qed.

Lemma heap_TryUpdate_false t d mx w :
  result_of (consumption_TryUpdate t d mx) w = false ->
  heap_after (consumption_TryUpdate t d mx) w = heap w.
Proof.
  unfold result_of, heap_after, world_after, consumption_TryUpdate, bind, get_heap,
    Counter.TryUpdate; simpl.
  by destruct (_ >? _).
Qed.

Lemma heap_TryUpdate_true t d mx w :
  result_of (consumption_TryUpdate t d mx) w = true ->
  heap_after (consumption_TryUpdate t d mx) w = heap_after (consumption_Update t d) w.
Proof.
  unfold result_of, heap_after, world_after, consumption_TryUpdate,
    consumption_Update, bind, get_heap, Counter.TryUpdate, Counter.Update; simpl.
  by destruct (_ >? _).
Qed.

Lemma cur_TryUpdate_true t d mx w :
  result_of (consumption_TryUpdate t d mx) w = true ->
  cur (heap_after (consumption_TryUpdate t d mx) w) t <= mx.
Proof.
  intros H. rewrite heap_TryUpdate_true by done.
  rewrite cur_Update, decide_True by done.
  rewrite result_TryUpdate in H. apply negb_true_iff in H. lia.
Qed.

End CounterFacts.

(** ** Relations on stores that every step of an operation respects *)

Section Frames.

Variable obj : ptr -> MemTracker.
Variable R : mem -> mem -> Prop.
Hypothesis R_refl : forall m, R m m.
Hypothesis R_trans : forall m1 m2 m3, R m1 m2 -> R m2 m3 -> R m1 m3.

Lemma respects_ret {A} (a : A) : respects R (ret a).
Proof. intros w. apply R_refl. Qed.

Lemma respects_bind {A B} (c : M A) (k : A -> M B) :
  respects R c -> (forall a, respects R (k a)) -> respects R (bind c k).
Proof.
  intros Hc Hk w. eapply R_trans; [apply Hc|].
  apply (Hk (c w).1 (c w).2).
Qed.

Lemma respects_emit e : respects R (emit e).
Proof. intros w. apply R_refl. Qed.

Lemma respects_get_heap : respects R get_heap.
Proof. intros w. apply R_refl. Qed.

Lemma respects_consumption t : respects R (consumption t).
Proof. intros w. apply R_refl. Qed.

Lemma respects_when b c : respects R c -> respects R (when b c).
Proof. destruct b; [done|]. intros _. apply respects_ret. Qed.

Lemma respects_DCHECK t b : respects R (DCHECK t b).
Proof. destruct b; [apply respects_ret | apply respects_emit]. Qed.

Lemma respects_for_each {A} (l : list A) body :
  (forall x, x ∈ l -> respects R (body x)) -> respects R (for_each l body).
Proof.
  induction l as [|x l IH]; intros H; [apply respects_ret|].
  simpl. apply respects_bind.
  - apply H. by left.
  - intros _. apply IH. intros y Hy. apply H. by right.
Qed.

(** Publishing a metric is one more step the relation has to allow. *)
Hypothesis R_imetrics :
  forall m mp v, R m (mkMem (counters m) (umetrics m) (<[mp := v]> (imetrics m))).

Lemma respects_metric_Update mp v : respects R (metric_Update mp v).
Proof. intros w. apply R_imetrics. Qed.

Lemma respects_publish metric v : respects R (publish metric v).
Proof.
  destruct metric as [mp|]; [|apply respects_ret].
  simpl. apply respects_bind; [apply respects_get_heap|].
  intros m. apply respects_metric_Update.
Qed.

Lemma respects_run_gc_functions tracker mx fs :
  (forall f m, f ∈ fs -> R m (f m)) ->
  forall index, respects R (run_gc_functions tracker mx index fs).
Proof.
  induction fs as [|f fs IH]; intros Hfs index; [apply respects_ret|].
  simpl. apply respects_bind; [apply respects_emit|]. intros _.
  apply respects_bind; [intros w; apply Hfs; by left|]. intros _.
  apply respects_bind; [apply respects_consumption|]. intros c.
  destruct (c <=? mx); [apply respects_ret|].
  apply IH. intros g m Hg. apply Hfs. by right.
Qed.

Lemma respects_GcMemory tracker mx :
  gc_functions_respect obj R tracker -> respects R (GcMemory obj tracker mx).
Proof.
  intros Hgc. unfold GcMemory.
  apply respects_bind; [apply respects_emit|]. intros _.
  apply respects_bind; [apply respects_consumption|]. intros pre.
  destruct (pre >? mx); [|apply respects_ret].
  apply respects_bind; [apply respects_publish|]. intros _.
  apply respects_bind;
    [apply respects_run_gc_functions; intros f m Hf; by apply Hgc|]. intros _.
  apply respects_bind; [apply respects_consumption|]. intros post.
  apply respects_bind; [apply respects_publish|]. intros _.
  apply respects_ret.
Qed.

End Frames.

(** ** The relations used below are preorders that allow metric updates *)

Section Relations.

Lemma same_consumption_refl m : same_consumption m m.
Proof. by intros p. Qed.

Lemma same_consumption_trans m1 m2 m3 :
  same_consumption m1 m2 -> same_consumption m2 m3 -> same_consumption m1 m3.
Proof. intros H1 H2 p. by rewrite H2, H1. Qed.

Lemma same_consumption_imetrics m mp v :
  same_consumption m (mkMem (counters m) (umetrics m) (<[mp := v]> (imetrics m))).
Proof. by intros p. Qed.

Lemma no_higher_consumption_refl m : no_higher_consumption m m.
Proof. by intros p. Qed.

Lemma no_higher_consumption_trans m1 m2 m3 :
  no_higher_consumption m1 m2 -> no_higher_consumption m2 m3 ->
  no_higher_consumption m1 m3.
Proof. intros H1 H2 p. specialize (H1 p). specialize (H2 p). lia. Qed.

Lemma no_higher_consumption_imetrics m mp v :
  no_higher_consumption m (mkMem (counters m) (umetrics m) (<[mp := v]> (imetrics m))).
Proof. by intros p. Qed.

Lemma peaks_kept_refl m : peaks_kept m m.
Proof. intros p. split; [lia | done]. Qed.

Lemma peaks_kept_trans m1 m2 m3 :
  peaks_kept m1 m2 -> peaks_kept m2 m3 -> peaks_kept m1 m3.
Proof.
  intros H1 H2 p. destruct (H1 p) as [Ha Hb], (H2 p) as [Hc Hd].
  split; [lia | auto].
Qed.

Lemma peaks_kept_imetrics m mp v :
  peaks_kept m (mkMem (counters m) (umetrics m) (<[mp := v]> (imetrics m))).
Proof. intros p. split; [reflexivity | done]. Qed.

End Relations.

(** ** The loop of TryConsume *)

Section TryConsumeLoop.

Variable obj : ptr -> MemTracker.

(** The four ways through the loop body. *)
Lemma TryConsume_body_cases bytes tracker w :
  let lim := limit_ (obj tracker) in
  let try := consumption_TryUpdate tracker bytes lim in
  let gc := GcMemory obj tracker (Int64.sub lim bytes) in
  let body := TryConsume_body obj bytes tracker in
  (lim < 0 /\ result_of body w = true /\
     world_after body w = world_after (consumption_Update tracker bytes) w)
  \/ (0 <= lim /\ result_of try w = true /\ result_of body w = true /\
     world_after body w = world_after try w)
  \/ (0 <= lim /\ result_of try w = false /\
     result_of gc (world_after try w) = true /\ result_of body w = false /\
     world_after body w = world_after gc (world_after try w))
  \/ (0 <= lim /\ result_of try w = false /\
     result_of gc (world_after try w) = false /\
     result_of body w = result_of try (world_after gc (world_after try w)) /\
     world_after body w = world_after try (world_after gc (world_after try w))).
Proof.
  intros lim try gc body. unfold body, TryConsume_body. fold lim.
  destruct (lim <? 0) eqn:Hlim.
  { left. split; [lia|]. rewrite result_bind, world_bind, result_ret, world_ret.
    done. }
  right. assert (0 <= lim) by lia.
  fold try. rewrite result_bind, world_bind.
  destruct (result_of try w) eqn:Hok.
  { left. rewrite result_ret, world_ret. done. }
  right. fold gc. rewrite result_bind, world_bind.
  destruct (result_of gc (world_after try w)) eqn:Hex.
  { left. rewrite result_ret, world_ret. done. }
  right. rewrite result_bind, world_bind, result_ret, world_ret. done.
Qed.

Lemma charged_step p d c t trackers :
  charged p d (if decide (t = p) then Int64.add c d else c) trackers
  = if decide (t = p) then Int64.add (charged p d c trackers) d
    else charged p d c trackers.
Proof.
  destruct (decide (t = p)) as [->|Hne]; [|done].
  revert c. induction trackers as [|x l IH]; intros c; [done|].
  unfold charged in *. simpl.
  destruct (decide (x = p)); apply IH.
Qed.

Lemma cur_for_each_Update trackers d w p :
  cur (heap_after (for_each trackers (fun t => consumption_Update t d)) w) p
  = charged p d (cur (heap w) p) trackers.
Proof.
  revert w. induction trackers as [|t l IH]; intros w; [reflexivity|].
  change (cur (heap_after (for_each l (fun t => consumption_Update t d))
                 (world_after (consumption_Update t d) w)) p
          = charged p d (cur (heap w) p) (t :: l)).
  rewrite IH. unfold charged. simpl. f_equal.
  apply cur_Update.
Qed.

(** The loop body under callbacks that leave every consumption alone:
    on [break] no consumption has changed, otherwise exactly [tracker]
    has been charged. *)
Lemma TryConsume_body_consumption bytes tracker w p :
  gc_functions_respect obj same_consumption tracker ->
  cur (heap_after (TryConsume_body obj bytes tracker) w) p
  = if result_of (TryConsume_body obj bytes tracker) w
    then (if decide (tracker = p) then Int64.add (cur (heap w) p) bytes
          else cur (heap w) p)
    else cur (heap w) p.
Proof.
  intros Hgc.
  pose proof (respects_GcMemory obj same_consumption same_consumption_refl
                same_consumption_trans same_consumption_imetrics tracker
                (Int64.sub (limit_ (obj tracker)) bytes) Hgc) as HGC.
  set (try := consumption_TryUpdate tracker bytes (limit_ (obj tracker))).
  assert (Hfail : result_of try w = false ->
            forall q, cur (heap_after (GcMemory obj tracker
                             (Int64.sub (limit_ (obj tracker)) bytes))
                           (world_after try w)) q = cur (heap w) q).
  { intros Hno q. rewrite (HGC _ q).
    unfold try. by rewrite heap_TryUpdate_false. }
  destruct (TryConsume_body_cases bytes tracker w)
    as [(_ & -> & ->)|[(_ & Hok & -> & ->)
       |[(_ & Hno & _ & -> & ->)|(_ & Hno & _ & -> & ->)]]].
  - apply cur_Update.
  - rewrite heap_TryUpdate_true by done. apply cur_Update.
  - by apply Hfail.
  - fold try. fold try in Hno. specialize (Hfail Hno).
    set (w2 := world_after _ (world_after _ w)) in *.
    destruct (result_of try w2) eqn:Hr; unfold try in *.
    + rewrite heap_TryUpdate_true by done. rewrite cur_Update.
      by rewrite !Hfail.
    + rewrite heap_TryUpdate_false by done. apply Hfail.
Qed.

Lemma TryConsume_loop_cons bytes t rest i w :
  TryConsume_loop obj bytes (t :: rest) i w
  = if result_of (TryConsume_body obj bytes t) w
    then TryConsume_loop obj bytes rest (S i)
           (world_after (TryConsume_body obj bytes t) w)
    else (i, world_after (TryConsume_body obj bytes t) w).
Proof.
  cbn [TryConsume_loop]. rewrite run_bind.
  by destruct (result_of _ w).
Qed.

Lemma result_TryConsume_loop_cons bytes t rest i w :
  result_of (TryConsume_loop obj bytes (t :: rest) i) w
  = if result_of (TryConsume_body obj bytes t) w
    then result_of (TryConsume_loop obj bytes rest (S i))
           (world_after (TryConsume_body obj bytes t) w)
    else i.
Proof.
  unfold result_of at 1. rewrite TryConsume_loop_cons.
  by destruct (result_of _ w).
Qed.

Lemma world_TryConsume_loop_cons bytes t rest i w :
  world_after (TryConsume_loop obj bytes (t :: rest) i) w
  = if result_of (TryConsume_body obj bytes t) w
    then world_after (TryConsume_loop obj bytes rest (S i))
           (world_after (TryConsume_body obj bytes t) w)
    else world_after (TryConsume_body obj bytes t) w.
Proof.
  unfold world_after at 1. rewrite TryConsume_loop_cons.
  by destruct (result_of _ w).
Qed.

Lemma TryConsume_loop_bounds bytes remaining :
  forall i w,
    (i <= result_of (TryConsume_loop obj bytes remaining i) w
       <= i + length remaining)%nat.
Proof.
  induction remaining as [|t l IH]; intros i w.
  - unfold result_of. cbn. lia.
  - rewrite result_TryConsume_loop_cons.
    destruct (result_of (TryConsume_body obj bytes t) w); cbn [length]; [|lia].
    specialize (IH (S i) (world_after (TryConsume_body obj bytes t) w)). lia.
Qed.

(** Undoing the charge on the trackers the loop got past restores every
    consumption. *)
Lemma TryConsume_loop_rollback bytes remaining p :
  (forall t, t ∈ remaining -> gc_functions_respect obj same_consumption t) ->
  forall i w,
    Int64.in_range (cur (heap w) p) ->
    charged p (Int64.neg bytes)
      (cur (heap_after (TryConsume_loop obj bytes remaining i) w) p)
      (take (result_of (TryConsume_loop obj bytes remaining i) w - i) remaining)
    = cur (heap w) p.
Proof.
  induction remaining as [|t l IH]; intros Hgc i w Hrange.
  { by rewrite take_nil. }
  assert (Ht : gc_functions_respect obj same_consumption t) by (apply Hgc; by left).
  pose proof (TryConsume_body_consumption bytes t w p Ht) as Hbody.
  rewrite result_TryConsume_loop_cons, world_TryConsume_loop_cons.
  destruct (result_of (TryConsume_body obj bytes t) w) eqn:Hcont.
  - set (w1 := world_after (TryConsume_body obj bytes t) w) in *.
    pose proof (TryConsume_loop_bounds bytes l (S i) w1) as Hb.
    set (i' := result_of (TryConsume_loop obj bytes l (S i)) w1) in *.
    replace (i' - i)%nat with (S (i' - S i)) by lia.
    rewrite firstn_cons.
    change (charged p (Int64.neg bytes) ?c (t :: ?l))
      with (charged p (Int64.neg bytes)
              (if decide (t = p) then Int64.add c (Int64.neg bytes) else c) l).
    rewrite charged_step.
    rewrite IH.
    + rewrite Hbody. destruct (decide (t = p)); [|done].
      by apply Int64Facts.add_neg_cancel.
    + intros t' Ht'. apply Hgc. by right.
    + rewrite Hbody. destruct (decide (t = p)); [apply Int64Facts.add_range|done].
  - rewrite Nat.sub_diag. apply Hbody.
Qed.

End TryConsumeLoop.

(** ** TryConsume as prologue, loop and roll-back *)

Section TryConsumeShape.

Variable obj : ptr -> MemTracker.

Lemma TryConsume_shape this bytes w :
  bytes <> 0 ->
  TryConsume obj this bytes w
  = bind (TryConsume_prologue obj this bytes) (fun _ =>
      bind (TryConsume_loop obj bytes (all_trackers_ (obj this)) 0) (fun i =>
        if (i =? length (all_trackers_ (obj this)))%nat then ret true
        else bind (TryConsume_rollback obj this bytes i) (fun _ => ret false))) w.
Proof.
  intros Hb. apply Z.eqb_neq in Hb.
  unfold TryConsume, TryConsume_prologue, TryConsume_rollback.
  rewrite !run_bind. rewrite Hb. reflexivity.
Qed.

Lemma result_TryConsume this bytes w :
  bytes <> 0 ->
  let w0 := world_after (TryConsume_prologue obj this bytes) w in
  let i := result_of (TryConsume_loop obj bytes (all_trackers_ (obj this)) 0) w0 in
  result_of (TryConsume obj this bytes) w
  = (i =? length (all_trackers_ (obj this)))%nat.
Proof.
  intros Hb w0 i. rewrite (result_of_eq _ _ _ (TryConsume_shape this bytes w Hb)).
  rewrite !result_bind. fold w0. fold i.
  destruct (i =? _)%nat; [apply result_ret|].
  by rewrite result_bind, result_ret.
Qed.

Lemma world_TryConsume this bytes w :
  bytes <> 0 ->
  let w0 := world_after (TryConsume_prologue obj this bytes) w in
  let loop := TryConsume_loop obj bytes (all_trackers_ (obj this)) 0 in
  world_after (TryConsume obj this bytes) w
  = if result_of (TryConsume obj this bytes) w then world_after loop w0
    else world_after (TryConsume_rollback obj this bytes (result_of loop w0))
           (world_after loop w0).
Proof.
  intros Hb w0 loop. rewrite result_TryConsume by done.
  rewrite (world_after_eq _ _ _ (TryConsume_shape this bytes w Hb)).
  rewrite !world_bind. fold w0. fold loop.
  destruct (_ =? _)%nat; [apply world_ret|].
  by rewrite world_bind, world_ret.
Qed.

Lemma heap_prologue_plain this bytes w :
  consumption_metric_ (obj this) = None ->
  heap_after (TryConsume_prologue obj this bytes) w = heap w.
Proof.
  intros Hm. unfold TryConsume_prologue. rewrite Hm.
  rewrite world_bind, world_ret. by destruct (enable_logging_ (obj this)).
Qed.

End TryConsumeShape.

(** ** What the operations append to the log *)

Section Logs.

Variable obj : ptr -> MemTracker.

Lemma emitted_of_log {A} (c : M A) w es :
  log_after c w = log w ++ es -> emitted c w = es.
Proof. intros H. unfold emitted. rewrite H. apply drop_app_length. Qed.

Lemma appends_ret {A} P (a : A) : appends P (ret a).
Proof. intros w. exists []. by rewrite world_ret, app_nil_r. Qed.

Lemma appends_bind {A B} P (c : M A) (k : A -> M B) :
  appends P c -> (forall a, appends P (k a)) -> appends P (bind c k).
Proof.
  intros Hc Hk w. destruct (Hc w) as (es1 & E1 & F1).
  destruct (Hk (result_of c w) (world_after c w)) as (es2 & E2 & F2).
  exists (es1 ++ es2). rewrite world_bind, E2, E1, app_assoc.
  split; [done | by apply Forall_app].
Qed.

Lemma appends_emit (P : event -> Prop) e : P e -> appends P (emit e).
Proof. intros He w. exists [e]. split; [done | by constructor]. Qed.

Lemma appends_modify_heap P f : appends P (modify_heap f).
Proof. intros w. exists []. by rewrite app_nil_r. Qed.

Lemma appends_consumption P t : appends P (consumption t).
Proof. intros w. exists []. by rewrite app_nil_r. Qed.

Lemma appends_get_heap P : appends P get_heap.
Proof. intros w. exists []. by rewrite app_nil_r. Qed.

Lemma appends_publish metric v : appends gc_step_event (publish metric v).
Proof.
  destruct metric as [mp|]; [|apply appends_ret].
  apply appends_bind; [apply appends_get_heap|]. intros m.
  apply appends_bind; [by apply appends_emit|]. intros _.
  apply appends_modify_heap.
Qed.

Lemma appends_run_gc_functions tracker mx fs :
  forall index, appends gc_step_event (run_gc_functions tracker mx index fs).
Proof.
  induction fs as [|f fs IH]; intros index; [apply appends_ret|].
  cbn [run_gc_functions].
  apply appends_bind; [by apply appends_emit|]. intros _.
  apply appends_bind; [apply appends_modify_heap|]. intros _.
  apply appends_bind; [apply appends_consumption|]. intros c.
  destruct (c <=? mx); [apply appends_ret | apply IH].
Qed.

(** [GcMemory] logs its call and then only callback invocations and metric
    updates. *)
Lemma log_GcMemory tracker mx w :
  exists es,
    log_after (GcMemory obj tracker mx) w = log w ++ EvGcMemory tracker mx :: es
    /\ Forall gc_step_event es.
Proof.
  unfold GcMemory. rewrite world_bind.
  set (w1 := world_after (emit (EvGcMemory tracker mx)) w).
  assert (Hrest : appends gc_step_event
    (bind (consumption tracker) (fun pre =>
       if pre >? mx then
         bind (publish (num_gcs_metric_ (obj tracker))
                 (fun mp m => Int64.add (imetrics m !!! mp) 1)) (fun _ =>
         bind (run_gc_functions tracker mx 0 (gc_functions_ (obj tracker))) (fun _ =>
         bind (consumption tracker) (fun post =>
         bind (publish (bytes_freed_by_last_gc_metric_ (obj tracker))
                 (fun _ _ => Int64.sub pre post)) (fun _ =>
         ret (post >? mx)))))
       else ret false))).
  { apply appends_bind; [apply appends_consumption|]. intros pre.
    destruct (pre >? mx); [|apply appends_ret].
    apply appends_bind; [apply appends_publish|]. intros _.
    apply appends_bind; [apply appends_run_gc_functions|]. intros _.
    apply appends_bind; [apply appends_consumption|]. intros post.
    apply appends_bind; [apply appends_publish|]. intros _.
    apply appends_ret. }
  destruct (Hrest w1) as (es & E & F). exists es. split; [|done].
  rewrite E. unfold w1. cbn. by rewrite <- app_assoc.
Qed.

Lemma log_Update t d w :
  log_after (consumption_Update t d) w = log w ++ [EvUpdate t d].
Proof. reflexivity. Qed.

Lemma log_TryUpdate t d mx w :
  log_after (consumption_TryUpdate t d mx) w
  = log w ++ [EvTryUpdate t d mx (result_of (consumption_TryUpdate t d mx) w)].
Proof.
  unfold consumption_TryUpdate.
  rewrite !world_bind, !result_bind, world_ret, result_ret.
  set (r := Counter.TryUpdate d mx _). by destruct (r.1).
Qed.

Lemma no_TryUpdate_in_gc es :
  Forall gc_step_event es -> filter is_TryUpdate es = [].
Proof.
  induction 1 as [|e es He _ IH]; [done|].
  rewrite filter_cons. destruct e; try done.
Qed.

Lemma appends_weaken {A} (P Q : event -> Prop) (c : M A) :
  (forall e, P e -> Q e) -> appends P c -> appends Q c.
Proof.
  intros HPQ Hc w. destruct (Hc w) as (es & E & F). exists es. split; [done|].
  eapply Forall_impl; eauto.
Qed.

Lemma appends_Update t d : appends (fun _ => True) (consumption_Update t d).
Proof. intros w. exists [EvUpdate t d]. split; [apply log_Update | by constructor]. Qed.

Lemma appends_TryUpdate t d mx : appends (fun _ => True) (consumption_TryUpdate t d mx).
Proof. intros w. eexists. split; [apply log_TryUpdate | by constructor]. Qed.

Lemma appends_GcMemory t mx : appends (fun _ => True) (GcMemory obj t mx).
Proof.
  intros w. destruct (log_GcMemory t mx w) as (es & E & _).
  eexists. split; [exact E|]. by apply Forall_forall.
Qed.

Lemma appends_TryConsume_body bytes t :
  appends (fun _ => True) (TryConsume_body obj bytes t).
Proof.
  unfold TryConsume_body. destruct (limit_ (obj t) <? 0).
  { apply appends_bind; [apply appends_Update|]. intros _. apply appends_ret. }
  apply appends_bind; [apply appends_TryUpdate|]. intros ok.
  destruct ok; [apply appends_ret|].
  apply appends_bind; [apply appends_GcMemory|]. intros exceeded.
  destruct exceeded; [apply appends_ret|].
  apply appends_bind; [apply appends_TryUpdate|]. intros ok2. apply appends_ret.
Qed.

Lemma appends_TryConsume_loop bytes remaining :
  forall i, appends (fun _ => True) (TryConsume_loop obj bytes remaining i).
Proof.
  induction remaining as [|t l IH]; intros i; [apply appends_ret|].
  cbn [TryConsume_loop]. apply appends_bind; [apply appends_TryConsume_body|].
  intros continue. destruct continue; [apply IH | apply appends_ret].
Qed.

Lemma appends_TryConsume_walk this bytes :
  appends (fun _ => True) (TryConsume_walk obj this bytes).
Proof.
  unfold TryConsume_walk, TryConsume_prologue.
  apply appends_bind; [|intros _; apply appends_TryConsume_loop].
  apply appends_bind.
  - destruct (consumption_metric_ (obj this)); [|apply appends_ret].
    apply appends_bind; [apply appends_get_heap|]. intros v.
    apply appends_bind; [by apply appends_emit|]. intros _.
    apply appends_modify_heap.
  - intros _. destruct (enable_logging_ (obj this)); [|apply appends_ret].
    by apply appends_emit.
Qed.

Lemma log_for_each_Update trackers d w :
  log_after (for_each trackers (fun t => consumption_Update t d)) w
  = log w ++ map (fun t => EvUpdate t d) trackers.
Proof.
  revert w. induction trackers as [|t l IH]; intros w.
  { cbn [for_each map]. by rewrite world_ret, app_nil_r. }
  cbn [for_each map]. rewrite world_bind, IH, log_Update.
  by rewrite <- app_assoc.
Qed.

End Logs.

(** ** The scenarios of the specification *)

(** Single tracker, limit 100: three times [TryConsume(40)] gives accepted,
    accepted, rejected, and a consumption of 80. *)
Example scenario_single_tracker :
  let try := TryConsume Scenario.single 0%nat 40 in
  let w1 := world_after try Scenario.fresh in
  let w2 := world_after try w1 in
  let w3 := world_after try w2 in
  (result_of try Scenario.fresh, result_of try w1, result_of try w2)
  = (true, true, false)
  /\ cur (heap w3) 0%nat = 80.
Proof. vm_compute. done. Qed.

(** root (limit 100) <- child (limit 50), from the child: [TryConsume(30)] is
    accepted and both hold 30; a second [TryConsume(30)] is rejected and both
    still hold 30. *)
Example scenario_two_levels :
  let try := TryConsume Scenario.chain2 1%nat 30 in
  let w1 := world_after try Scenario.fresh in
  let w2 := world_after try w1 in
  (result_of try Scenario.fresh, cur (heap w1) 0%nat, cur (heap w1) 1%nat)
  = (true, 30, 30)
  /\ (result_of try w1, cur (heap w2) 0%nat, cur (heap w2) 1%nat) = (false, 30, 30).
Proof. vm_compute. done. Qed.

(** root (limit 100) <- A (limit 80) <- B (no limit), from B:
    [TryConsume(90)] is rejected at A, whose idle callback is called once;
    the charge on B is rolled back with [Update(-90)] and the three
    consumptions are unchanged. *)
Example scenario_three_levels :
  let try := TryConsume Scenario.chain3 2%nat 90 in
  let w1 := world_after try Scenario.fresh in
  result_of try Scenario.fresh = false
  /\ (cur (heap w1) 0%nat, cur (heap w1) 1%nat, cur (heap w1) 2%nat) = (0, 0, 0)
  /\ emitted try Scenario.fresh
     = [EvUpdate 2%nat 90; EvTryUpdate 1%nat 90 80 false; EvGcMemory 1%nat (-10);
        EvGcFunction 1%nat 0; EvUpdate 2%nat (-90)].
Proof. vm_compute. done. Qed.

(** Single tracker, limit 100, one callback that releases 50, holding 90:
    [TryConsume(30)] fails at first, [GcMemory(70)] calls the callback and
    reports the target met, the second [TryUpdate] is applied: accepted with a
    consumption of 70. *)
Example scenario_gc_then_retry :
  let w90 := world_after (Consume Scenario.single_gc 0%nat 90) Scenario.fresh in
  let try := TryConsume Scenario.single_gc 0%nat 30 in
  result_of try w90 = true
  /\ cur (heap_after try w90) 0%nat = 70
  /\ emitted try w90
     = [EvTryUpdate 0%nat 30 100 false; EvGcMemory 0%nat 70; EvGcFunction 0%nat 0;
        EvTryUpdate 0%nat 30 100 true].
Proof. vm_compute. done. Qed.

(** ** All-or-nothing admission *)

(** C1.  When [TryConsume(bytes)] on a tracker without a consumption metric
    returns false and the GC callbacks registered on the trackers of its
    chain leave every consumption as it was, then the walk stopped at an index
    [i] inside the chain, the calls made after the walk are exactly
    [Update(-bytes)] on the trackers before [i], and after the call each
    tracker has the consumption it had before the call.  The consumption
    before the call is an [int64_t] value. *)
Theorem TryConsume_rejected_restores_consumption
  (obj : ptr -> MemTracker) (this : ptr) (bytes : Z) (w : world) :
  consumption_metric_ (obj this) = None ->
  (forall t, t ∈ all_trackers_ (obj this) ->
           gc_functions_respect obj same_consumption t) ->
  result_of (TryConsume obj this bytes) w = false ->
  let chain := all_trackers_ (obj this) in
  let i := result_of (TryConsume_walk obj this bytes) w in
  ((i < length chain)%nat
   /\ emitted (TryConsume obj this bytes) w
      = emitted (TryConsume_walk obj this bytes) w
        ++ map (fun t => EvUpdate t (Int64.neg bytes)) (take i chain))
  /\ forall p, Int64.in_range (cur (heap w) p) ->
               cur (heap_after (TryConsume obj this bytes) w) p = cur (heap w) p.
Proof.
  intros Hm Hgc Hrej chain i.
  destruct (decide (bytes = 0)) as [->|Hb].
  { unfold result_of, TryConsume in Hrej. rewrite Hm in Hrej. discriminate. }
  set (w0 := world_after (TryConsume_prologue obj this bytes) w).
  assert (Hi : i = result_of (TryConsume_loop obj bytes chain 0) w0) by reflexivity.
  assert (Hwalk : world_after (TryConsume_walk obj this bytes) w
                  = world_after (TryConsume_loop obj bytes chain 0) w0) by reflexivity.
  split; [split|].
  - pose proof (TryConsume_loop_bounds obj bytes chain 0 w0) as Hbounds.
    rewrite result_TryConsume in Hrej by done. fold chain w0 in Hrej.
    rewrite <- Hi in Hrej, Hbounds. apply Nat.eqb_neq in Hrej. lia.
  - destruct (appends_TryConsume_walk obj this bytes w) as (es & Hes & _).
    rewrite (emitted_of_log _ _ _ Hes). apply emitted_of_log.
    rewrite world_TryConsume by done. rewrite Hrej. unfold TryConsume_rollback.
    fold chain w0. rewrite <- Hi, <- Hwalk.
    rewrite log_for_each_Update, Hes. by rewrite <- app_assoc.
  - intros p Hrange.
    rewrite world_TryConsume by done. rewrite Hrej.
    unfold TryConsume_rollback. rewrite cur_for_each_Update.
    pose proof (TryConsume_loop_rollback obj bytes chain p Hgc 0 w0) as Hloop.
    rewrite Nat.sub_0_r in Hloop. unfold w0 in *.
    rewrite heap_prologue_plain in Hloop by done. by apply Hloop.
Qed.

Lemma TryConsume_rejected_restores_consumption_witness :
  result_of (TryConsume Scenario.chain3 2%nat 90) Scenario.fresh = false
  /\ cur (heap_after (TryConsume Scenario.chain3 2%nat 90) Scenario.fresh) 2%nat
     = cur (heap Scenario.fresh) 2%nat.
Proof.
  assert (Hrej : result_of (TryConsume Scenario.chain3 2%nat 90) Scenario.fresh = false)
    by (vm_compute; reflexivity).
  split; [exact Hrej|].
  assert (Hgc : forall t, t ∈ all_trackers_ (Scenario.chain3 2%nat) ->
                  gc_functions_respect Scenario.chain3 same_consumption t).
  { intros t Ht f m Hf p.
    destruct t as [|[|t]]; cbn in Hf.
    - inversion Hf.
    - apply list_elem_of_singleton in Hf as ->. reflexivity.
    - destruct t; inversion Hf. }
  destruct (TryConsume_rejected_restores_consumption Scenario.chain3 2%nat 90
              Scenario.fresh eq_refl Hgc Hrej) as [_ Hcur].
  apply Hcur. vm_compute. split; discriminate.
Defined.

(** ** Relations respected by the whole of TryConsume *)

Section TryConsumeFrames.

Variable obj : ptr -> MemTracker.
Variable R : mem -> mem -> Prop.
Hypothesis R_refl : forall m, R m m.
Hypothesis R_trans : forall m1 m2 m3, R m1 m2 -> R m2 m3 -> R m1 m3.
Hypothesis R_imetrics :
  forall m mp v, R m (mkMem (counters m) (umetrics m) (<[mp := v]> (imetrics m))).

Lemma respects_TryUpdate t d mx :
  respects R (consumption_Update t d) -> respects R (consumption_TryUpdate t d mx).
Proof.
  intros HU w.
  destruct (result_of (consumption_TryUpdate t d mx) w) eqn:Hr.
  - rewrite heap_TryUpdate_true by done. apply HU.
  - rewrite heap_TryUpdate_false by done. apply R_refl.
Qed.

Lemma respects_TryConsume_body bytes t :
  respects R (consumption_Update t bytes) ->
  gc_functions_respect obj R t ->
  respects R (TryConsume_body obj bytes t).
Proof.
  intros HU Hgc. unfold TryConsume_body.
  destruct (limit_ (obj t) <? 0).
  { apply (respects_bind R R_trans); [done|]. intros _. by apply respects_ret. }
  apply (respects_bind R R_trans); [by apply respects_TryUpdate|]. intros ok.
  destruct ok; [by apply respects_ret|].
  apply (respects_bind R R_trans); [by apply respects_GcMemory|]. intros exceeded.
  destruct exceeded; [by apply respects_ret|].
  apply (respects_bind R R_trans); [by apply respects_TryUpdate|]. intros ok2.
  by apply respects_ret.
Qed.

Lemma respects_TryConsume_loop bytes remaining :
  (forall t, t ∈ remaining -> respects R (consumption_Update t bytes)) ->
  (forall t, t ∈ remaining -> gc_functions_respect obj R t) ->
  forall i, respects R (TryConsume_loop obj bytes remaining i).
Proof.
  induction remaining as [|t l IH]; intros HU Hgc i; [by apply respects_ret|].
  cbn [TryConsume_loop]. apply (respects_bind R R_trans).
  - apply respects_TryConsume_body; [apply HU | apply Hgc]; by left.
  - intros continue. destruct continue; [|by apply respects_ret].
    apply IH; intros t' Ht'; [apply HU | apply Hgc]; by right.
Qed.

End TryConsumeFrames.

(** ** Admission keeps limits *)

Section Admission.

Variable obj : ptr -> MemTracker.

Lemma others_no_higher_refl t m : others_no_higher t m m.
Proof. by intros p _. Qed.

Lemma others_no_higher_trans t m1 m2 m3 :
  others_no_higher t m1 m2 -> others_no_higher t m2 m3 -> others_no_higher t m1 m3.
Proof. intros H1 H2 p Hp. specialize (H1 p Hp). specialize (H2 p Hp). lia. Qed.

Lemma others_no_higher_imetrics t m mp v :
  others_no_higher t m (mkMem (counters m) (umetrics m) (<[mp := v]> (imetrics m))).
Proof. by intros p _. Qed.

Lemma others_no_higher_Update t d : respects (others_no_higher t) (consumption_Update t d).
Proof.
  intros w p Hp. rewrite cur_Update. by rewrite decide_False.
Qed.

Lemma gc_no_higher_others t t' :
  gc_functions_respect obj no_higher_consumption t ->
  gc_functions_respect obj (others_no_higher t') t.
Proof. intros H f m Hf p _. by apply H. Qed.

(** A loop body that goes on has left a limited tracker within its limit. *)
Lemma TryConsume_body_within_limit bytes t w :
  result_of (TryConsume_body obj bytes t) w = true ->
  0 <= limit_ (obj t) ->
  cur (heap_after (TryConsume_body obj bytes t) w) t <= limit_ (obj t).
Proof.
  intros Hr Hlim.
  destruct (TryConsume_body_cases obj bytes t w)
    as [(Hneg & _)|[(_ & Hok & _ & ->)
       |[(_ & _ & _ & Hfalse & _)|(_ & _ & _ & Hres & ->)]]].
  - lia.
  - by apply cur_TryUpdate_true.
  - congruence.
  - apply cur_TryUpdate_true. congruence.
Qed.

Lemma TryConsume_loop_within_limits bytes remaining :
  (forall t, t ∈ remaining -> gc_functions_respect obj no_higher_consumption t) ->
  forall i w,
    result_of (TryConsume_loop obj bytes remaining i) w = (i + length remaining)%nat ->
    forall p, 0 <= limit_ (obj p) ->
      p ∈ remaining \/ cur (heap w) p <= limit_ (obj p) ->
      cur (heap_after (TryConsume_loop obj bytes remaining i) w) p <= limit_ (obj p).
Proof.
  induction remaining as [|t l IH]; intros Hgc i w Hres p Hlim Hp.
  { destruct Hp as [Hp|Hp]; [inversion Hp | exact Hp]. }
  rewrite result_TryConsume_loop_cons in Hres.
  rewrite world_TryConsume_loop_cons.
  destruct (result_of (TryConsume_body obj bytes t) w) eqn:Hbody;
    [|cbn [length] in Hres; lia].
  apply IH.
  - intros t' Ht'. apply Hgc. by right.
  - rewrite Hres. cbn [length]. lia.
  - exact Hlim.
  - destruct (decide (p ∈ l)) as [Hin|Hnotin]; [by left|right].
    destruct (decide (p = t)) as [->|Hne].
    + by apply TryConsume_body_within_limit.
    + destruct Hp as [Hp|Hp].
      { apply elem_of_cons in Hp as [?|?]; done. }
      etrans; [|exact Hp].
      apply (respects_TryConsume_body obj (others_no_higher t)
               (others_no_higher_refl t) (others_no_higher_trans t)
               (others_no_higher_imetrics t)); [| |done].
      * apply others_no_higher_Update.
      * apply gc_no_higher_others, Hgc. by left.
Qed.

End Admission.

(** C2.  On a chain of trackers whose consumptions are all zero, with no
    consumption metric on the tracker and GC callbacks that never raise a
    consumption, an accepted [TryConsume(bytes)] leaves every limited tracker
    of the chain with a consumption of at most its limit. *)
Theorem TryConsume_accepted_within_limits
    (obj : ptr -> MemTracker) (this : ptr) (bytes : Z) (w : world) :
  consumption_metric_ (obj this) = None ->
  (forall t, t ∈ all_trackers_ (obj this) ->
             gc_functions_respect obj no_higher_consumption t) ->
  (forall p, p ∈ all_trackers_ (obj this) -> cur (heap w) p = 0) ->
  result_of (TryConsume obj this bytes) w = true ->
  forall p, p ∈ all_trackers_ (obj this) -> 0 <= limit_ (obj p) ->
            cur (heap_after (TryConsume obj this bytes) w) p <= limit_ (obj p).
Proof.
  intros Hm Hgc Hzero Hacc p Hp Hlim.
  destruct (decide (bytes = 0)) as [->|Hb].
  { unfold world_after, TryConsume. rewrite Hm.
    change (cur (heap w) p <= limit_ (obj p)). rewrite Hzero; done. }
  rewrite world_TryConsume by done. rewrite Hacc.
  rewrite result_TryConsume in Hacc by done. apply Nat.eqb_eq in Hacc.
  apply TryConsume_loop_within_limits; auto.
Qed.

Lemma TryConsume_accepted_within_limits_witness :
  result_of (TryConsume Scenario.chain3 2%nat 70) Scenario.fresh = true
  /\ cur (heap_after (TryConsume Scenario.chain3 2%nat 70) Scenario.fresh) 1%nat
     <= limit_ (Scenario.chain3 1%nat).
Proof.
  assert (Hacc : result_of (TryConsume Scenario.chain3 2%nat 70) Scenario.fresh = true)
    by (vm_compute; reflexivity).
  split; [exact Hacc|].
  apply (TryConsume_accepted_within_limits Scenario.chain3 2%nat 70 Scenario.fresh).
  - reflexivity.
  - intros t Ht f m Hf p.
    destruct t as [|[|t]]; cbn in Hf.
    + inversion Hf.
    + apply list_elem_of_singleton in Hf as ->. reflexivity.
    + destruct t; inversion Hf.
  - intros p Hp. reflexivity.
  - exact Hacc.
  - cbn. apply elem_of_cons. right. apply elem_of_cons. by left.
  - cbn. lia.
Defined.

(** ** The step of the admission walk *)

(** C3 (as amended).  One step of the walk of [TryConsume] at a tracker (the
    loop goes on to the next tracker when the step returns true and breaks
    when it returns false):
    an unlimited tracker is charged unconditionally; on a limited tracker
    [TryUpdate(bytes, limit)] is attempted, and when it fails [GcMemory] is
    called on that tracker with target [limit - bytes]; if [GcMemory] reports
    the consumption still above the target the walk stops there and
    [TryUpdate] is not called again, otherwise [TryUpdate(bytes, limit)] is
    called again exactly once and the walk stops iff that call fails. *)
Theorem TryConsume_body_walk_step
    (obj : ptr -> MemTracker) (bytes : Z) (t : ptr) (w : world) :
  let lim := limit_ (obj t) in
  let try := consumption_TryUpdate t bytes lim in
  let gc := GcMemory obj t (Int64.sub lim bytes) in
  let body := TryConsume_body obj bytes t in
  (forall rest i,
     TryConsume_loop obj bytes (t :: rest) i w
     = if result_of body w
       then TryConsume_loop obj bytes rest (S i) (world_after body w)
       else (i, world_after body w))
  /\ (lim < 0 ->
     result_of body w = true
     /\ emitted body w = [EvUpdate t bytes]
     /\ cur (heap_after body w) t = Int64.add (cur (heap w) t) bytes)
  /\ (0 <= lim -> result_of try w = true ->
     result_of body w = true
     /\ emitted body w = [EvTryUpdate t bytes lim true]
     /\ cur (heap_after body w) t = Int64.add (cur (heap w) t) bytes)
  /\ (0 <= lim -> result_of try w = false ->
     let w1 := world_after try w in
     let w2 := world_after gc w1 in
     (exists es,
        emitted body w
        = EvTryUpdate t bytes lim false :: EvGcMemory t (Int64.sub lim bytes)
            :: es ++ (if result_of gc w1 then []
                      else [EvTryUpdate t bytes lim (result_of try w2)])
        /\ Forall gc_step_event es)
     /\ retries (emitted body w) = (if result_of gc w1 then 0 else 1)%nat
     /\ (result_of body w = false <->
         result_of gc w1 = true
         \/ (result_of gc w1 = false /\ result_of try w2 = false))).
Proof.
  intros lim try gc body.
  pose proof (TryConsume_body_cases obj bytes t w) as Hcases.
  cbv zeta in Hcases. fold lim try gc body in Hcases.
  split; [|split; [|split]].
  - intros rest i. apply TryConsume_loop_cons.
  - intros Hneg.
    destruct Hcases as [(_ & Hr & Hw)|[(? & _)|[(? & _)|(? & _)]]]; try lia.
    split; [done|]. split.
    + apply emitted_of_log. rewrite Hw. apply log_Update.
    + rewrite Hw, cur_Update. by rewrite decide_True.
  - intros Hlim Hok.
    destruct Hcases as [(? & _)|[(_ & _ & Hr & Hw)|[(_ & ? & _)|(_ & ? & _)]]];
      try lia; try congruence.
    split; [done|]. split.
    + apply emitted_of_log. rewrite Hw. unfold try. rewrite log_TryUpdate.
      fold try. by rewrite Hok.
    + rewrite Hw. unfold try. rewrite heap_TryUpdate_true by done.
      rewrite cur_Update. by rewrite decide_True.
  - intros Hlim Hfail w1 w2.
    assert (Hlog1 : log w1 = log w ++ [EvTryUpdate t bytes lim false]).
    { unfold w1, try. rewrite log_TryUpdate. fold try. by rewrite Hfail. }
    destruct (log_GcMemory obj t (Int64.sub lim bytes) w1) as (es & Hlog2 & Hes).
    fold gc in Hlog2. fold w2 in Hlog2.
    assert (Hem : emitted body w
        = EvTryUpdate t bytes lim false :: EvGcMemory t (Int64.sub lim bytes)
            :: es ++ (if result_of gc w1 then []
                      else [EvTryUpdate t bytes lim (result_of try w2)])).
    { apply emitted_of_log.
      destruct Hcases as [(? & _)|[(_ & ? & _)
         |[(_ & _ & Hgc & _ & Hw)|(_ & _ & Hgc & _ & Hw)]]];
        try lia; try congruence; fold w1 in Hgc, Hw; fold w2 in Hw;
        rewrite Hw, Hgc.
      - rewrite Hlog2, Hlog1, app_nil_r. by rewrite <- app_assoc.
      - unfold try at 1. rewrite log_TryUpdate. fold try.
        rewrite Hlog2, Hlog1. rewrite <- !app_assoc. reflexivity. }
    split; [by exists es|]. split.
    + rewrite Hem. unfold retries. cbn [after_GcMemory].
      rewrite filter_app, (no_TryUpdate_in_gc es Hes).
      by destruct (result_of gc w1).
    + destruct Hcases as [(? & _)|[(_ & ? & _)
         |[(_ & _ & Hgc & Hr & _)|(_ & _ & Hgc & Hr & _)]]];
        try lia; try congruence; fold w1 in Hgc; rewrite Hr, Hgc.
      * split; [by left | done].
      * fold w1 w2. split; [by right | by intros [?|[_ ?]]].
Qed.

Lemma TryConsume_body_walk_step_witness :
  retries (emitted (TryConsume_body Scenario.chain2 30 1%nat) Scenario.charged40)
  = 0%nat
  /\ result_of (TryConsume_body Scenario.chain2 30 1%nat) Scenario.charged40 = false.
Proof.
  destruct (TryConsume_body_walk_step Scenario.chain2 30 1%nat Scenario.charged40)
    as (_ & _ & _ & H).
  destruct H as (_ & Hretries & Hstop).
  - cbn. lia.
  - vm_compute. reflexivity.
  - split.
    + rewrite Hretries. vm_compute. reflexivity.
    + apply Hstop. left. vm_compute. reflexivity.
Defined.

(** C3 (as stated) fails: child (limit 50) holds 40 bytes and is asked for 30
    more.  [TryUpdate(30, 50)] fails, [GcMemory(20)] has nothing to call and
    reports the consumption still above 20, and the loop breaks without
    calling [TryUpdate] a second time. *)
Lemma retried_exactly_once_counterexample :
  emitted (TryConsume_body Scenario.chain2 30 1%nat) Scenario.charged40
  = [EvTryUpdate 1%nat 30 50 false; EvGcMemory 1%nat 20]
  /\ ~ retried_exactly_once Scenario.chain2 30 1%nat Scenario.charged40.
Proof.
  split; [vm_compute; reflexivity|].
  unfold retried_exactly_once. intros H.
  assert (H1 : 0 <= limit_ (Scenario.chain2 1%nat)) by (cbn; lia).
  specialize (H H1 eq_refl). vm_compute in H. discriminate.
Qed.

(** ** Consume and Release along the chain *)

Section Charging.

Variable obj : ptr -> MemTracker.

Lemma occurrences_nonneg p l : 0 <= occurrences p l.
Proof. induction l as [|x l IH]; cbn [occurrences]; [lia|]. destruct (decide _); lia. Qed.

Lemma occurrences_not_in p l : p ∉ l -> occurrences p l = 0.
Proof.
  induction l as [|x l IH]; intros Hp; [done|]. cbn [occurrences].
  apply not_elem_of_cons in Hp as [Hne Hp].
  rewrite decide_False by done. rewrite IH by done. lia.
Qed.

Lemma occurrences_NoDup p l : NoDup l -> p ∈ l -> occurrences p l = 1.
Proof.
  induction 1 as [|x l Hx Hl IH]; intros Hp; [inversion Hp|]. cbn [occurrences].
  destruct (decide (x = p)) as [->|Hne].
  - rewrite occurrences_not_in by done. lia.
  - apply elem_of_cons in Hp as [?|Hp]; [congruence|]. rewrite IH by done. lia.
Qed.

(** The closed form of a charge applied along a chain: modulo 2^64 the
    consumption moves by [d'] for each time the tracker is listed. *)
Lemma charged_closed p d d' l :
  (forall a, Int64.add a d = Int64.wrap (a + d')) ->
  forall c, Int64.in_range c ->
    charged p d c l = Int64.wrap (c + occurrences p l * d').
Proof.
  intros Hd. induction l as [|x l IH]; intros c Hc.
  { cbn. rewrite Z.add_0_r. symmetry. by apply Int64Facts.wrap_id. }
  change (charged p d c (x :: l))
    with (charged p d (if decide (x = p) then Int64.add c d else c) l).
  cbn [occurrences]. destruct (decide (x = p)) as [->|Hne].
  - rewrite IH by apply Int64Facts.add_range.
    rewrite Hd, Int64Facts.wrap_wrap_add_l. f_equal. lia.
  - rewrite IH by done. f_equal.
Qed.

Lemma add_neg_wrap a b : Int64.add a (Int64.neg b) = Int64.wrap (a + - b).
Proof. unfold Int64.add, Int64.neg. apply Int64Facts.wrap_wrap_add_r. Qed.

(** A loop whose body changes the store the way [Update] does. *)
Lemma cur_for_each_charge (body : ptr -> M unit) d l :
  (forall t w, heap_after (body t) w = heap_after (consumption_Update t d) w) ->
  forall w p, cur (heap_after (for_each l body) w) p = charged p d (cur (heap w) p) l.
Proof.
  intros Hbody. induction l as [|t l IH]; intros w p; [reflexivity|].
  cbn [for_each]. rewrite world_bind, IH.
  change (charged p d ?c (t :: l))
    with (charged p d (if decide (t = p) then Int64.add c d else c) l).
  f_equal. rewrite Hbody. apply cur_Update.
Qed.

Lemma heap_when_LogUpdate b t c bytes w :
  heap_after (when b (LogUpdate t c bytes)) w = heap w.
Proof. by destruct b. Qed.

Lemma heap_charge_body t d w :
  heap_after (bind (consumption_Update t d)
                (fun _ => bind (consumption t) (fun c => DCHECK t (c >=? 0)))) w
  = heap_after (consumption_Update t d) w.
Proof.
  rewrite !world_bind. unfold DCHECK.
  by destruct (_ >=? 0).
Qed.

Lemma cur_Consume this bytes w p :
  consumption_metric_ (obj this) = None ->
  Int64.in_range (cur (heap w) p) ->
  cur (heap_after (Consume obj this bytes) w) p
  = Int64.wrap (cur (heap w) p + occurrences p (all_trackers_ (obj this)) * bytes).
Proof.
  intros Hm Hc. unfold Consume. rewrite Hm.
  destruct (bytes =? 0) eqn:Hb.
  { apply Z.eqb_eq in Hb as ->. rewrite world_ret, Z.mul_0_r, Z.add_0_r.
    symmetry. by apply Int64Facts.wrap_id. }
  rewrite world_bind.
  rewrite (cur_for_each_charge _ bytes) by (intros; apply heap_charge_body).
  rewrite heap_when_LogUpdate. by apply charged_closed.
Qed.

Lemma cur_Release this bytes w p :
  consumption_metric_ (obj this) = None ->
  Int64.in_range (cur (heap w) p) ->
  cur (heap_after (Release obj this bytes) w) p
  = Int64.wrap (cur (heap w) p + occurrences p (all_trackers_ (obj this)) * (- bytes)).
Proof.
  intros Hm Hc. unfold Release. rewrite Hm.
  destruct (bytes =? 0) eqn:Hb.
  { apply Z.eqb_eq in Hb as ->. rewrite world_ret, Z.mul_0_r, Z.add_0_r.
    symmetry. by apply Int64Facts.wrap_id. }
  rewrite world_bind.
  rewrite (cur_for_each_charge _ (Int64.neg bytes)) by (intros; apply heap_charge_body).
  rewrite heap_when_LogUpdate. apply charged_closed; [|done].
  intros a. apply add_neg_wrap.
Qed.

End Charging.

(** C4.  [Consume(bytes)] on a tracker without a consumption metric, whose
    chain lists each ancestor once, adds [bytes] (as [int64_t] addition, which
    is the exact sum whenever that sum is an [int64_t]) to the consumption of
    every tracker of the chain and leaves the consumption of every tracker
    outside the chain as it was. *)
Theorem Consume_charges_exactly_the_chain
    (obj : ptr -> MemTracker) (this : ptr) (bytes : Z) (w : world) :
  consumption_metric_ (obj this) = None ->
  NoDup (all_trackers_ (obj this)) ->
  forall p,
    let before := cur (heap w) p in
    let after := cur (heap_after (Consume obj this bytes) w) p in
    (p ∈ all_trackers_ (obj this) -> Int64.in_range before ->
       after = Int64.add before bytes
       /\ (Int64.in_range (before + bytes) -> after = before + bytes))
    /\ (p ∉ all_trackers_ (obj this) -> after = before).
Proof.
  intros Hm Hnodup p before after. split.
  - intros Hp Hrange.
    assert (Hafter : after = Int64.add before bytes).
    { unfold after. rewrite cur_Consume by done.
      rewrite occurrences_NoDup by done. unfold Int64.add, before. f_equal. lia. }
    split; [done|]. intros Hsum. rewrite Hafter. by apply Int64Facts.add_exact.
  - intros Hp. unfold after, Consume. rewrite Hm.
    destruct (bytes =? 0); [done|].
    rewrite world_bind.
    rewrite (cur_for_each_charge _ bytes) by (intros; apply heap_charge_body).
    rewrite heap_when_LogUpdate.
    clear Hnodup. unfold before. generalize (cur (heap w) p).
    induction (all_trackers_ (obj this)) as [|x l IH]; intros c; [done|].
    apply not_elem_of_cons in Hp as [Hne Hp].
    change (charged p bytes c (x :: l))
      with (charged p bytes (if decide (x = p) then Int64.add c bytes else c) l).
    rewrite decide_False by done. by apply IH.
Qed.

Lemma Consume_charges_exactly_the_chain_witness :
  cur (heap_after (Consume Scenario.chain3 2%nat 25) Scenario.fresh) 0%nat
  = cur (heap Scenario.fresh) 0%nat + 25.
Proof.
  assert (Hnodup : NoDup (all_trackers_ (Scenario.chain3 2%nat))) by by_evaluation.
  assert (Hp : 0%nat ∈ all_trackers_ (Scenario.chain3 2%nat)) by by_evaluation.
  assert (Hrange : Int64.in_range (cur (heap Scenario.fresh) 0%nat))
    by (vm_compute; split; discriminate).
  assert (Hsum : Int64.in_range (cur (heap Scenario.fresh) 0%nat + 25))
    by (vm_compute; split; discriminate).
  destruct (Consume_charges_exactly_the_chain Scenario.chain3 2%nat 25 Scenario.fresh
              eq_refl Hnodup 0%nat) as [Hin _].
  destruct (Hin Hp Hrange) as [_ Hexact]. exact (Hexact Hsum).
Defined.

(** ** Balanced pairs *)

Section Balanced.

Variable obj : ptr -> MemTracker.

Lemma net_Permutation p ops ops' : ops ≡ₚ ops' -> net obj p ops = net obj p ops'.
Proof.
  induction 1 as [|op l l' _ IH|op1 op2 l|l1 l2 l3 _ IH1 _ IH2]; unfold net in *;
    cbn [foldr]; lia.
Qed.

Lemma net_pairs p pairs : net obj p (flat_map consume_release_pair pairs) = 0.
Proof.
  induction pairs as [|[t n] pairs IH]; [reflexivity|].
  unfold net in *. cbn [flat_map consume_release_pair app foldr fst snd delta].
  rewrite IH. lia.
Qed.

Lemma net_balanced p ops : balanced ops -> net obj p ops = 0.
Proof. intros [pairs Hpairs]. rewrite (net_Permutation p _ _ Hpairs). apply net_pairs. Qed.

Lemma cur_perform_charge op w p :
  is_charge op ->
  consumption_metric_ (obj (target op)) = None ->
  Int64.in_range (cur (heap w) p) ->
  cur (heap_after (perform obj op) w) p = Int64.wrap (cur (heap w) p + delta obj p op).
Proof.
  destruct op as [t n|t n|t n|t]; cbn [is_charge target perform delta]; try done;
    intros _ Hm Hc.
  - by apply cur_Consume.
  - by apply cur_Release.
Qed.

(** After a sequence of [Consume]/[Release] calls each consumption is the
    initial one plus the net charge, modulo 2^64. *)
Lemma cur_perform_all ops :
  Forall is_charge ops ->
  (forall op, op ∈ ops -> consumption_metric_ (obj (target op)) = None) ->
  forall w p, Int64.in_range (cur (heap w) p) ->
    cur (heap_after (perform_all obj ops) w) p
    = Int64.wrap (cur (heap w) p + net obj p ops).
Proof.
  induction 1 as [|op ops Hop _ IH]; intros Hm w p Hc.
  { cbn. rewrite Z.add_0_r. symmetry. by apply Int64Facts.wrap_id. }
  unfold perform_all in *. cbn [for_each]. rewrite world_bind.
  rewrite IH.
  - rewrite cur_perform_charge; [|done|apply Hm; by left|done].
    rewrite Int64Facts.wrap_wrap_add_l. unfold net. cbn [foldr]. f_equal. lia.
  - intros op' Hop'. apply Hm. by right.
  - rewrite cur_perform_charge; [|done|apply Hm; by left|done].
    apply Int64Facts.wrap_range.
Qed.

Lemma balanced_charges ops : balanced ops -> Forall is_charge ops.
Proof.
  intros [pairs Hpairs]. rewrite Hpairs. clear Hpairs.
  induction pairs as [|[t n] pairs IH]; [constructor|].
  cbn [flat_map consume_release_pair app]. by repeat constructor.
Qed.

End Balanced.

(** C7.  Trackers without a consumption metric whose consumptions start at
    zero: after any sequence of calls made of [Consume(n)]/[Release(n)] pairs
    (each pair on one tracker, the pairs on arbitrary trackers and in any
    interleaving) the consumption of every tracker is zero again. *)
Theorem balanced_pairs_leave_zero
    (obj : ptr -> MemTracker) (ops : list operation) (w : world) :
  balanced ops ->
  (forall op, op ∈ ops -> consumption_metric_ (obj (target op)) = None) ->
  forall p, cur (heap w) p = 0 ->
            cur (heap_after (perform_all obj ops) w) p = 0.
Proof.
  intros Hbal Hm p Hzero.
  rewrite cur_perform_all.
  - by rewrite Hzero, net_balanced.
  - by apply balanced_charges.
  - done.
  - rewrite Hzero. vm_compute. split; discriminate.
Qed.

Lemma balanced_pairs_leave_zero_witness :
  cur (heap_after
         (perform_all Scenario.chain3
            [OpConsume 2%nat 30; OpConsume 1%nat 45; OpRelease 2%nat 30;
             OpRelease 1%nat 45]) Scenario.fresh) 0%nat = 0.
Proof.
  apply (balanced_pairs_leave_zero Scenario.chain3).
  - exists [(2%nat, 30); (1%nat, 45)]. cbn.
    apply perm_skip. apply perm_swap.
  - intros op Hop. by destruct op as [[|[|?]] ?|[|[|?]] ?|[|[|?]] ?|[|[|?]]].
  - reflexivity.
Defined.

(** ** Relations respected by every operation *)

Section OperationFrames.

Variable obj : ptr -> MemTracker.
Variable R : mem -> mem -> Prop.
Hypothesis R_refl : forall m, R m m.
Hypothesis R_trans : forall m1 m2 m3, R m1 m2 -> R m2 m3 -> R m1 m3.
Hypothesis R_imetrics :
  forall m mp v, R m (mkMem (counters m) (umetrics m) (<[mp := v]> (imetrics m))).
Hypothesis R_Update : forall t d, respects R (consumption_Update t d).
Hypothesis R_Set : forall t v, respects R (consumption_Set t v).

Lemma respects_LogUpdate t c bytes : respects R (LogUpdate t c bytes).
Proof. apply respects_emit, R_refl. Qed.

Lemma respects_resample this metric :
  respects R (bind (metric_value metric)
                (fun v => consumption_Set this (Int64.of_uint64 v))).
Proof.
  apply (respects_bind R R_trans); [apply respects_get_heap, R_refl|].
  intros v. apply R_Set.
Qed.

Lemma respects_charge_loop trackers d :
  respects R (for_each trackers (fun tracker =>
    bind (consumption_Update tracker d) (fun _ =>
    bind (consumption tracker) (fun c => DCHECK tracker (c >=? 0))))).
Proof.
  apply (respects_for_each R R_refl R_trans). intros t _.
  apply (respects_bind R R_trans); [apply R_Update|]. intros _.
  apply (respects_bind R R_trans); [apply respects_consumption, R_refl|]. intros c.
  apply respects_DCHECK, R_refl.
Qed.

Lemma respects_Consume this bytes : respects R (Consume obj this bytes).
Proof.
  unfold Consume. destruct (consumption_metric_ (obj this)) as [metric|].
  - apply (respects_bind R R_trans); [apply respects_DCHECK, R_refl|]. intros _.
    apply respects_resample.
  - destruct (bytes =? 0); [apply respects_ret, R_refl|].
    apply (respects_bind R R_trans).
    + apply respects_when; [apply R_refl | apply respects_LogUpdate].
    + intros _. apply respects_charge_loop.
Qed.

Lemma respects_Release this bytes : respects R (Release obj this bytes).
Proof.
  unfold Release. destruct (consumption_metric_ (obj this)) as [metric|].
  - apply (respects_bind R R_trans); [apply respects_DCHECK, R_refl|]. intros _.
    apply respects_resample.
  - destruct (bytes =? 0); [apply respects_ret, R_refl|].
    apply (respects_bind R R_trans).
    + apply respects_when; [apply R_refl | apply respects_LogUpdate].
    + intros _. apply respects_charge_loop.
Qed.

Lemma respects_TryConsume this bytes :
  (forall t, t ∈ all_trackers_ (obj this) -> gc_functions_respect obj R t) ->
  respects R (TryConsume obj this bytes).
Proof.
  intros Hgc. unfold TryConsume.
  apply (respects_bind R R_trans).
  { destruct (consumption_metric_ (obj this)) as [metric|];
      [apply respects_resample | apply respects_ret, R_refl]. }
  intros _. destruct (bytes =? 0); [apply respects_ret, R_refl|].
  apply (respects_bind R R_trans).
  { apply respects_when; [apply R_refl | apply respects_LogUpdate]. }
  intros _. apply (respects_bind R R_trans).
  { apply (respects_TryConsume_loop obj R R_refl R_trans R_imetrics); [|done].
    intros t _. apply R_Update. }
  intros i. destruct (i =? _)%nat; [apply respects_ret, R_refl|].
  apply (respects_bind R R_trans); [|intros _; apply respects_ret, R_refl].
  apply (respects_for_each R R_refl R_trans). intros t _. apply R_Update.
Qed.

Lemma respects_LimitExceeded this :
  gc_functions_respect obj R this -> respects R (LimitExceeded obj this).
Proof.
  intros Hgc. unfold LimitExceeded.
  apply (respects_bind R R_trans).
  { unfold CheckLimitExceeded.
    apply (respects_bind R R_trans); [apply respects_consumption, R_refl|].
    intros c. apply respects_ret, R_refl. }
  intros exceeded. destruct exceeded; [|apply respects_ret, R_refl].
  apply (respects_bind R R_trans).
  { destruct (bytes_over_limit_metric_ (obj this)) as [metric|];
      [|apply respects_ret, R_refl].
    apply (respects_bind R R_trans); [apply respects_consumption, R_refl|].
    intros c. by apply respects_metric_Update. }
  intros _. by apply respects_GcMemory.
Qed.

Lemma respects_perform op :
  (forall t, gc_functions_respect obj R t) -> respects R (perform obj op).
Proof.
  intros Hgc. destruct op as [t n|t n|t n|t]; cbn [perform].
  - apply respects_Consume.
  - apply respects_Release.
  - apply (respects_bind R R_trans); [by apply respects_TryConsume|].
    intros _. apply respects_ret, R_refl.
  - apply (respects_bind R R_trans); [by apply respects_LimitExceeded|].
    intros _. apply respects_ret, R_refl.
Qed.

Lemma respects_perform_all ops :
  (forall t, gc_functions_respect obj R t) -> respects R (perform_all obj ops).
Proof.
  intros Hgc. apply (respects_for_each R R_refl R_trans).
  intros op _. by apply respects_perform.
Qed.

End OperationFrames.

(** ** The peak is a high-water mark *)

Lemma peaks_kept_Update t d : respects peaks_kept (consumption_Update t d).
Proof.
  intros w p. rewrite heap_Update.
  unfold cur, peak. rewrite counter_of_set_counter.
  destruct (decide (t = p)) as [->|Hne]; [|by split].
  unfold Counter.Update, Counter.value, Counter.current_value. cbn. lia.
Qed.

Lemma peaks_kept_Set t v : respects peaks_kept (consumption_Set t v).
Proof.
  intros w p. rewrite heap_Set.
  unfold cur, peak. rewrite counter_of_set_counter.
  destruct (decide (t = p)) as [->|Hne]; [|by split].
  unfold Counter.Set_, Counter.value, Counter.current_value. cbn. lia.
Qed.

(** C8.  Whatever calls of [Consume], [Release], [TryConsume] (accepted or
    rejected) and [LimitExceeded] are made, on any trackers, no tracker's
    [peak_consumption()] goes down, and a tracker whose peak was at least its
    consumption before still has a peak of at least its consumption after;
    in particular the roll-back of a rejected [TryConsume] lowers no peak.
    GC callbacks are assumed to keep both properties themselves, as every
    operation of the counter does. *)
Theorem peak_is_high_water_mark
    (obj : ptr -> MemTracker) (ops : list operation) (w : world) :
  (forall t, gc_functions_respect obj peaks_kept t) ->
  forall p,
    peak (heap w) p <= peak (heap_after (perform_all obj ops) w) p
    /\ (cur (heap w) p <= peak (heap w) p ->
        cur (heap_after (perform_all obj ops) w) p
        <= peak (heap_after (perform_all obj ops) w) p).
Proof.
  intros Hgc.
  apply (respects_perform_all obj peaks_kept peaks_kept_refl peaks_kept_trans
           peaks_kept_imetrics peaks_kept_Update peaks_kept_Set ops Hgc w).
Qed.

(** A callback that works through calls of the operations keeps the peaks,
    like the operations themselves. *)
Lemma peaks_kept_by_operations (obj : ptr -> MemTracker) (ops : list operation) m :
  (forall t, gc_functions_respect obj peaks_kept t) ->
  peaks_kept m (heap_after (perform_all obj ops) (mkWorld m [])).
Proof.
  intros Hgc.
  apply (respects_perform_all obj peaks_kept peaks_kept_refl peaks_kept_trans
           peaks_kept_imetrics peaks_kept_Update peaks_kept_Set ops Hgc (mkWorld m [])).
Qed.

Lemma peaks_kept_gc_release t bytes m : peaks_kept m (Scenario.gc_release t bytes m).
Proof.
  intros p. unfold Scenario.gc_release, cur, peak. rewrite counter_of_set_counter.
  destruct (decide (t = p)) as [->|Hne]; [|by split].
  unfold Counter.Update, Counter.value, Counter.current_value. cbn. lia.
Qed.

Lemma peak_is_high_water_mark_witness :
  let ops := [OpConsume 0%nat 60; OpConsume 0%nat 50; OpLimitExceeded 0%nat;
              OpTryConsume 0%nat 70; OpRelease 0%nat 60] in
  peak (heap Scenario.fresh) 0%nat
  <= peak (heap_after (perform_all Scenario.single_gc ops) Scenario.fresh) 0%nat
  /\ cur (heap_after (perform_all Scenario.single_gc ops) Scenario.fresh) 0%nat
     <= peak (heap_after (perform_all Scenario.single_gc ops) Scenario.fresh) 0%nat.
Proof.
  intros ops.
  assert (Hgc : forall t, gc_functions_respect Scenario.single_gc peaks_kept t).
  { intros t f m Hf. cbn in Hf. apply list_elem_of_singleton in Hf as ->.
    apply peaks_kept_gc_release. }
  destruct (peak_is_high_water_mark Scenario.single_gc ops Scenario.fresh Hgc 0%nat)
    as [Hpeak Hcur].
  split; [exact Hpeak|]. apply Hcur. vm_compute. discriminate.
Defined.

(** The roll-back of a rejected [TryConsume] leaves the peak where the brief
    charge took it: B asks for 90 bytes, A (limit 80) refuses, and B ends
    with consumption 0 and peak 90. *)
Example rollback_keeps_the_raised_peak :
  let after := world_after (TryConsume Scenario.chain3 2%nat 90) Scenario.fresh in
  result_of (TryConsume Scenario.chain3 2%nat 90) Scenario.fresh = false
  /\ cur (heap after) 2%nat = 0 /\ peak (heap after) 2%nat = 90.
Proof. vm_compute. done. Qed.

(** ** LimitExceeded *)

Section Limits.

Variable obj : ptr -> MemTracker.

Lemma heap_publish metric v w p :
  cur (heap_after (publish metric v) w) p = cur (heap w) p.
Proof. by destruct metric. Qed.

(** What the modelled [GcMemory] returns: whether the consumption it leaves
    is above the target. *)
Lemma result_GcMemory t mx w :
  result_of (GcMemory obj t mx) w
  = (cur (heap_after (GcMemory obj t mx) w) t >? mx).
Proof.
  unfold GcMemory. rewrite result_bind, world_bind, result_bind, world_bind.
  set (w1 := world_after (consumption t) (world_after (emit _) w)).
  change (result_of (consumption t) (world_after (emit (EvGcMemory t mx)) w))
    with (cur (heap w) t).
  destruct (cur (heap w) t >? mx) eqn:Hpre.
  - rewrite !result_bind, !world_bind, result_ret, world_ret.
    rewrite heap_publish. reflexivity.
  - rewrite result_ret, world_ret. symmetry. exact Hpre.
Qed.

Lemma CheckLimitExceeded_eq this w :
  CheckLimitExceeded obj this w
  = ((limit_ (obj this) >=? 0) && (limit_ (obj this) <? cur (heap w) this), w).
Proof. reflexivity. Qed.

End Limits.

(** C5.  [LimitExceeded()] on a tracker without a limit returns false and
    changes nothing.  With a limit that the consumption exceeds it publishes
    consumption minus limit to the bytes-over-limit metric when one is bound,
    then calls [GcMemory] with the limit as target, and returns true iff the
    consumption is still above the limit after that. *)
Theorem LimitExceeded_contract (obj : ptr -> MemTracker) (this : ptr) (w : world) :
  let lim := limit_ (obj this) in
  let after := world_after (LimitExceeded obj this) w in
  (lim < 0 -> LimitExceeded obj this w = (false, w))
  /\ (0 <= lim -> lim < cur (heap w) this ->
      (exists es,
         emitted (LimitExceeded obj this) w
         = match bytes_over_limit_metric_ (obj this) with
           | Some metric => [EvMetricUpdate metric (Int64.sub (cur (heap w) this) lim)]
           | None => []
           end ++ EvGcMemory this lim :: es
         /\ Forall gc_step_event es)
      /\ (result_of (LimitExceeded obj this) w = true <-> lim < cur (heap after) this)).
Proof.
  intros lim after. split.
  - intros Hneg. unfold LimitExceeded. rewrite run_bind.
    unfold result_of, world_after. rewrite CheckLimitExceeded_eq. cbn [fst snd].
    fold lim. replace (lim >=? 0) with false by lia. reflexivity.
  - intros Hlim Hover.
    set (pub := match bytes_over_limit_metric_ (obj this) with
                | Some metric =>
                    bind (consumption this) (fun c =>
                      metric_Update metric (Int64.sub c (limit_ (obj this))))
                | None => ret tt
                end).
    assert (Hshape : LimitExceeded obj this w
                     = bind pub (fun _ => GcMemory obj this lim) w).
    { unfold LimitExceeded. rewrite run_bind.
      unfold result_of, world_after. rewrite CheckLimitExceeded_eq. cbn [fst snd].
      fold lim. replace (lim >=? 0) with true by lia.
      replace (lim <? cur (heap w) this) with true by lia. reflexivity. }
    assert (Hpub_log : log_after pub w
        = log w ++ match bytes_over_limit_metric_ (obj this) with
                   | Some metric =>
                       [EvMetricUpdate metric (Int64.sub (cur (heap w) this) lim)]
                   | None => []
                   end).
    { unfold pub. destruct (bytes_over_limit_metric_ (obj this)).
      - reflexivity.
      - by rewrite world_ret, app_nil_r. }
    split.
    + destruct (log_GcMemory obj this lim (world_after pub w)) as (es & Hlog & Hes).
      exists es. split; [|done]. apply emitted_of_log.
      rewrite (world_after_eq _ _ _ Hshape), world_bind, Hlog, Hpub_log.
      by rewrite <- app_assoc.
    + unfold after.
      rewrite (result_of_eq _ _ _ Hshape), (world_after_eq _ _ _ Hshape).
      rewrite result_bind, world_bind, result_GcMemory. lia.
Qed.

Lemma LimitExceeded_contract_witness :
  let w110 := world_after (perform_all Scenario.single_gc
                             [OpConsume 0%nat 60; OpConsume 0%nat 50])
                Scenario.fresh in
  cur (heap w110) 0%nat = 110
  /\ result_of (LimitExceeded Scenario.single_gc 0%nat) w110 = false
  /\ cur (heap_after (LimitExceeded Scenario.single_gc 0%nat) w110) 0%nat = 60.
Proof.
  intros w110.
  destruct (LimitExceeded_contract Scenario.single_gc 0%nat w110) as [_ H].
  destruct H as [_ Hiff].
  - cbn. lia.
  - vm_compute. reflexivity.
  - split; [vm_compute; reflexivity|].
    assert (Hcur : cur (heap_after (LimitExceeded Scenario.single_gc 0%nat) w110) 0%nat
                   = 60) by (vm_compute; reflexivity).
    split; [|exact Hcur].
    destruct (result_of (LimitExceeded Scenario.single_gc 0%nat) w110) eqn:Hr; [|done].
    apply proj1 in Hiff. specialize (Hiff eq_refl).
    rewrite Hcur in Hiff. cbn in Hiff. lia.
Defined.

(** ** Trackers that take their consumption from a metric *)

Section MetricTrackers.

Variable obj : ptr -> MemTracker.

Lemma resample_world this metric w :
  world_after (bind (metric_value metric)
                 (fun v => consumption_Set this (Int64.of_uint64 v))) w
  = world_after (consumption_Set this (sampled (heap w) metric)) w.
Proof. reflexivity. Qed.

Lemma Consume_metric_world this metric bytes w :
  consumption_metric_ (obj this) = Some metric ->
  world_after (Consume obj this bytes) w
  = world_after (consumption_Set this (sampled (heap w) metric))
      (world_after (DCHECK this (bool_decide (parent_ (obj this) = None))) w).
Proof.
  intros Hm. unfold Consume. rewrite Hm. rewrite world_bind, resample_world.
  f_equal. by destruct (bool_decide _).
Qed.

Lemma Release_metric_world this metric bytes w :
  consumption_metric_ (obj this) = Some metric ->
  world_after (Release obj this bytes) w
  = world_after (consumption_Set this (sampled (heap w) metric))
      (world_after (DCHECK this (bool_decide (parent_ (obj this) = None))) w).
Proof.
  intros Hm. unfold Release. rewrite Hm. rewrite world_bind, resample_world.
  f_equal. by destruct (bool_decide _).
Qed.

Lemma heap_DCHECK t b w : heap_after (DCHECK t b) w = heap w.
Proof. by destruct b. Qed.

Lemma log_parent_check this w :
  log_after (DCHECK this (bool_decide (parent_ (obj this) = None))) w
  = log w ++ parent_check obj this.
Proof.
  unfold parent_check. destruct (bool_decide _); [|reflexivity].
  by rewrite app_nil_r.
Qed.

Lemma log_Set t v w : log_after (consumption_Set t v) w = log w ++ [EvSet t v].
Proof. reflexivity. Qed.

Lemma of_uint64_small u :
  0 <= u <= Int64.max_signed -> Int64.of_uint64 u = u.
Proof.
  intros Hu. apply Int64Facts.wrap_id. unfold Int64.in_range, Int64.min_signed. lia.
Qed.

End MetricTrackers.

(** C6.  On a tracker built on a consumption metric, [Consume(bytes)] and
    [Release(bytes)] do one thing: [consumption_->Set] with the value the
    metric has at that moment (a [uint64_t] read as [int64_t], so the value
    itself when it is below 2^63).  The outcome does not depend on [bytes],
    no [Update] is made, and no other tracker's counter changes.  The check
    that the tracker has no parent is a [DCHECK]. *)
Theorem metric_tracker_resamples
    (obj : ptr -> MemTracker) (this : ptr) (metric : metric_ptr)
    (bytes : Z) (w : world) :
  consumption_metric_ (obj this) = Some metric ->
  let sample := umetrics (heap w) !!! metric in
  let stored := set_counter this
                  (Counter.Set_ (Int64.of_uint64 sample) (counter_of (heap w) this))
                  (heap w) in
  (heap_after (Consume obj this bytes) w = stored
   /\ heap_after (Release obj this bytes) w = stored)
  /\ (emitted (Consume obj this bytes) w
      = parent_check obj this ++ [EvSet this (Int64.of_uint64 sample)]
      /\ emitted (Release obj this bytes) w
         = parent_check obj this ++ [EvSet this (Int64.of_uint64 sample)])
  /\ cur stored this = Int64.of_uint64 sample
  /\ (0 <= sample <= Int64.max_signed -> cur stored this = sample)
  /\ (forall p, p <> this -> counter_of stored p = counter_of (heap w) p)
  /\ (world_after (Consume obj this bytes) w = world_after (Consume obj this 0) w
      /\ world_after (Release obj this bytes) w = world_after (Release obj this 0) w).
Proof.
  intros Hm sample stored.
  assert (Hcur : cur stored this = Int64.of_uint64 sample).
  { unfold stored. rewrite cur_set_counter. by rewrite decide_True. }
  split; [|split; [|split; [|split; [|split]]]].
  - rewrite (Consume_metric_world obj this metric), (Release_metric_world obj this metric)
      by done.
    rewrite heap_Set, heap_DCHECK. done.
  - split; apply emitted_of_log.
    + rewrite (Consume_metric_world obj this metric) by done.
      rewrite log_Set, log_parent_check. by rewrite <- app_assoc.
    + rewrite (Release_metric_world obj this metric) by done.
      rewrite log_Set, log_parent_check. by rewrite <- app_assoc.
  - exact Hcur.
  - intros Hsmall. rewrite Hcur. by apply of_uint64_small.
  - intros p Hp. unfold stored. rewrite counter_of_set_counter.
    by rewrite decide_False.
  - by rewrite !(Consume_metric_world obj this metric),
      !(Release_metric_world obj this metric).
Qed.

Lemma metric_tracker_resamples_witness :
  cur (heap_after (Consume Scenario.process 0%nat 77) Scenario.metric500) 0%nat = 500
  /\ cur (heap_after (Release Scenario.process 0%nat 77) Scenario.metric500) 0%nat = 500.
Proof.
  destruct (metric_tracker_resamples Scenario.process 0%nat 3%nat 77 Scenario.metric500
              eq_refl) as ([Hc Hr] & _ & _ & Hsmall & _).
  rewrite Hc, Hr. split; apply Hsmall; vm_compute; split; discriminate.
Defined.

(** ** Zero bytes *)

(** C10.  On a tracker without a consumption metric [Consume(0)] and
    [Release(0)] leave the store and the log as they are, and [TryConsume(0)]
    returns true and leaves them as they are: no counter is touched, no limit
    is looked at and [GcMemory] is not called, whatever the consumptions and
    limits are. *)
Theorem zero_bytes_is_a_no_op (obj : ptr -> MemTracker) (this : ptr) (w : world) :
  consumption_metric_ (obj this) = None ->
  world_after (Consume obj this 0) w = w
  /\ world_after (Release obj this 0) w = w
  /\ TryConsume obj this 0 w = (true, w).
Proof.
  intros Hm. unfold world_after, Consume, Release, TryConsume. rewrite Hm.
  done.
Qed.

Lemma zero_bytes_is_a_no_op_witness :
  let over := world_after (Consume Scenario.single_gc 0%nat 110) Scenario.fresh in
  limit_ (Scenario.single_gc 0%nat) < cur (heap over) 0%nat
  /\ TryConsume Scenario.single_gc 0%nat 0 over = (true, over).
Proof.
  intros over. split; [vm_compute; reflexivity|].
  apply (zero_bytes_is_a_no_op Scenario.single_gc 0%nat over). reflexivity.
Defined.

(** ** TryConsume on a tracker with a consumption metric *)

Section MetricAdmission.

Variable obj : ptr -> MemTracker.

Lemma keeps_tracking_refl t metric m : keeps_tracking t metric m m.
Proof. by intros H. Qed.

Lemma keeps_tracking_trans t metric m1 m2 m3 :
  keeps_tracking t metric m1 m2 -> keeps_tracking t metric m2 m3 ->
  keeps_tracking t metric m1 m3.
Proof. intros H1 H2 H. auto. Qed.

Lemma keeps_tracking_imetrics t metric m mp v :
  keeps_tracking t metric m (mkMem (counters m) (umetrics m) (<[mp := v]> (imetrics m))).
Proof. by intros H. Qed.

Lemma umetrics_Update t d w :
  umetrics (heap_after (consumption_Update t d) w) = umetrics (heap w).
Proof. reflexivity. Qed.

Lemma umetrics_TryUpdate t d mx w :
  umetrics (heap_after (consumption_TryUpdate t d mx) w) = umetrics (heap w).
Proof.
  destruct (result_of (consumption_TryUpdate t d mx) w) eqn:Hr.
  - by rewrite heap_TryUpdate_true.
  - by rewrite heap_TryUpdate_false.
Qed.

(** The first call a loop body makes on the counter. *)
Lemma log_TryConsume_body_head bytes t w :
  exists es,
    log_after (TryConsume_body obj bytes t) w
    = log w ++ (if limit_ (obj t) <? 0 then EvUpdate t bytes
                else EvTryUpdate t bytes (limit_ (obj t))
                       (negb (Int64.add (cur (heap w) t) bytes >? limit_ (obj t))))
         :: es.
Proof.
  rewrite <- result_TryUpdate.
  destruct (TryConsume_body_cases obj bytes t w)
    as [(Hlim & _ & ->)|[(Hlim & Hok & _ & ->)
       |[(Hlim & Hno & _ & _ & ->)|(Hlim & Hno & _ & _ & ->)]]].
  - exists []. replace (limit_ (obj t) <? 0) with true by lia. apply log_Update.
  - exists []. replace (limit_ (obj t) <? 0) with false by lia. apply log_TryUpdate.
  - replace (limit_ (obj t) <? 0) with false by lia.
    destruct (log_GcMemory obj t (Int64.sub (limit_ (obj t)) bytes)
                (world_after (consumption_TryUpdate t bytes (limit_ (obj t))) w))
      as (es & -> & _).
    rewrite log_TryUpdate, <- app_assoc. by eexists.
  - replace (limit_ (obj t) <? 0) with false by lia.
    rewrite log_TryUpdate.
    destruct (log_GcMemory obj t (Int64.sub (limit_ (obj t)) bytes)
                (world_after (consumption_TryUpdate t bytes (limit_ (obj t))) w))
      as (es & -> & _).
    rewrite log_TryUpdate, <- !app_assoc. by eexists.
Qed.

(** With a chain of one tracker nothing is ever rolled back: [TryConsume] is
    its prologue followed by one run of the loop body. *)
Lemma TryConsume_single this bytes w :
  all_trackers_ (obj this) = [this] ->
  bytes <> 0 ->
  let w0 := world_after (TryConsume_prologue obj this bytes) w in
  result_of (TryConsume obj this bytes) w = result_of (TryConsume_body obj bytes this) w0
  /\ world_after (TryConsume obj this bytes) w
     = world_after (TryConsume_body obj bytes this) w0.
Proof.
  intros Hchain Hb w0.
  assert (Hres : result_of (TryConsume obj this bytes) w
                 = result_of (TryConsume_body obj bytes this) w0).
  { rewrite result_TryConsume by done. rewrite Hchain.
    rewrite result_TryConsume_loop_cons. fold w0.
    by destruct (result_of (TryConsume_body obj bytes this) w0). }
  split; [exact Hres|].
  rewrite world_TryConsume by done. rewrite Hres. unfold TryConsume_rollback.
  rewrite Hchain, result_TryConsume_loop_cons, world_TryConsume_loop_cons. fold w0.
  by destruct (result_of (TryConsume_body obj bytes this) w0).
Qed.

Lemma prologue_metric this metric bytes w :
  consumption_metric_ (obj this) = Some metric ->
  let w0 := world_after (TryConsume_prologue obj this bytes) w in
  heap w0 = heap_after (consumption_Set this (sampled (heap w) metric)) w
  /\ log w0 = log w ++ EvSet this (sampled (heap w) metric)
                :: (if enable_logging_ (obj this) then [EvLogUpdate this true bytes]
                    else []).
Proof.
  intros Hm w0. unfold w0, TryConsume_prologue. rewrite Hm.
  rewrite world_bind, resample_world.
  destruct (enable_logging_ (obj this)); split; try reflexivity.
  change (log_after (when true (LogUpdate this true bytes)) ?v)
    with (log v ++ [EvLogUpdate this true bytes]).
  rewrite log_Set. by rewrite <- app_assoc.
Qed.

(** A loop body that goes on from a store in which the counter holds the
    sample leaves the counter [bytes] above the sample. *)
Lemma TryConsume_body_on_top this metric bytes w0 :
  gc_functions_respect obj (keeps_tracking this metric) this ->
  tracks_metric this metric (heap w0) ->
  result_of (TryConsume_body obj bytes this) w0 = true ->
  let after := world_after (TryConsume_body obj bytes this) w0 in
  cur (heap after) this = Int64.add (sampled (heap after) metric) bytes.
Proof.
  intros Hgc Htracks Hres after. unfold after.
  pose proof (respects_GcMemory obj (keeps_tracking this metric)
                (keeps_tracking_refl this metric) (keeps_tracking_trans this metric)
                (keeps_tracking_imetrics this metric) this
                (Int64.sub (limit_ (obj this)) bytes) Hgc) as HGC.
  destruct (TryConsume_body_cases obj bytes this w0)
    as [(_ & _ & ->)|[(_ & Hok & _ & ->)
       |[(_ & _ & _ & Hfalse & _)|(_ & Hno & _ & Hr & ->)]]].
  - rewrite cur_Update, decide_True by done.
    unfold sampled. rewrite umetrics_Update. by rewrite Htracks.
  - rewrite heap_TryUpdate_true by done. rewrite cur_Update, decide_True by done.
    unfold sampled. rewrite umetrics_Update. by rewrite Htracks.
  - congruence.
  - rewrite Hres in Hr. symmetry in Hr.
    set (w1 := world_after (consumption_TryUpdate this bytes (limit_ (obj this))) w0) in *.
    set (w2 := world_after (GcMemory obj this _) w1) in *.
    assert (Hw2 : tracks_metric this metric (heap w2)).
    { apply HGC. unfold w1. by rewrite heap_TryUpdate_false. }
    rewrite heap_TryUpdate_true by done. rewrite cur_Update, decide_True by done.
    unfold sampled. rewrite umetrics_Update. by rewrite Hw2.
Qed.

(** A callback that calls [Release] on the tracker itself leaves the counter
    on the sample. *)
Lemma Release_keeps_tracking this metric bytes m :
  consumption_metric_ (obj this) = Some metric ->
  keeps_tracking this metric m (heap_after (Release obj this bytes) (mkWorld m [])).
Proof.
  intros Hm _. unfold tracks_metric.
  rewrite (Release_metric_world obj this metric) by done.
  rewrite heap_Set, cur_set_counter, decide_True by done.
  by rewrite heap_DCHECK.
Qed.

End MetricAdmission.

(** ** Whether the loop of TryConsume goes on *)

Section BodyDecision.

Variable obj : ptr -> MemTracker.

Lemma fits_TryUpdate bytes m t :
  0 <= limit_ (obj t) ->
  (fits obj bytes m t
   <-> negb (Int64.add (cur m t) bytes >? limit_ (obj t)) = true).
Proof.
  intros Hlim. unfold fits. rewrite negb_true_iff. split.
  - intros [?|?]; lia.
  - intros H. right. lia.
Qed.

(** Under callbacks that free nothing the loop body goes on exactly when the
    charge fits at the tracker. *)
Lemma TryConsume_body_result bytes t w :
  gc_functions_respect obj same_consumption t ->
  (result_of (TryConsume_body obj bytes t) w = true <-> fits obj bytes (heap w) t).
Proof.
  intros Hgc.
  pose proof (respects_GcMemory obj same_consumption same_consumption_refl
                same_consumption_trans same_consumption_imetrics t
                (Int64.sub (limit_ (obj t)) bytes) Hgc) as HGC.
  destruct (TryConsume_body_cases obj bytes t w)
    as [(Hlim & -> & _)|[(Hlim & Hok & -> & _)
       |[(Hlim & Hno & _ & -> & _)|(Hlim & Hno & _ & -> & _)]]].
  - split; [intros _; by left | done].
  - split; [|done]. intros _. apply fits_TryUpdate; [done|].
    by rewrite <- result_TryUpdate.
  - split; [done|]. intros Hfits. apply fits_TryUpdate in Hfits; [|done].
    rewrite <- result_TryUpdate in Hfits. congruence.
  - rewrite result_TryUpdate, (HGC _ t), heap_TryUpdate_false by done.
    rewrite <- result_TryUpdate, Hno.
    split; [done|]. intros Hfits. apply fits_TryUpdate in Hfits; [|done].
    rewrite <- result_TryUpdate in Hfits. congruence.
Qed.

End BodyDecision.

(** C9.  [TryConsume(bytes)] on a tracker built on a consumption metric (its
    chain is the tracker alone): the counter is set to the sample of the
    metric and the call does not return there.  With [bytes <> 0] the walk is
    then made all the same, its first call on the counter being the charge of
    [bytes] on top of the sample; with [bytes = 0] the call returns true at
    the test for zero, as on every tracker.  When the charge fits at once the
    call returns true and the consumption is the sample plus [bytes],
    whatever the callbacks are.  An accepted call leaves the consumption at
    the sample plus [bytes] when the callbacks change no consumption, and at
    [bytes] above the latest value of the metric when the callbacks keep the
    counter on the metric.  [Consume] and [Release] on the same tracker leave
    the consumption on the sample. *)
Theorem TryConsume_on_metric_tracker_charges_on_top
    (obj : ptr -> MemTracker) (this : ptr) (metric : metric_ptr)
    (bytes : Z) (w : world) :
  consumption_metric_ (obj this) = Some metric ->
  all_trackers_ (obj this) = [this] ->
  let sample := sampled (heap w) metric in
  let lim := limit_ (obj this) in
  let after := world_after (TryConsume obj this bytes) w in
  (bytes <> 0 ->
   exists es,
     emitted (TryConsume obj this bytes) w
     = EvSet this sample
         :: (if enable_logging_ (obj this) then [EvLogUpdate this true bytes] else [])
         ++ (if lim <? 0 then EvUpdate this bytes
             else EvTryUpdate this bytes lim (negb (Int64.add sample bytes >? lim)))
         :: es)
  /\ (bytes = 0 ->
      result_of (TryConsume obj this bytes) w = true
      /\ emitted (TryConsume obj this bytes) w = [EvSet this sample])
  /\ (lim < 0 \/ Int64.add sample bytes <= lim ->
      result_of (TryConsume obj this bytes) w = true
      /\ cur (heap after) this = Int64.add sample bytes)
  /\ (gc_functions_respect obj same_consumption this ->
      result_of (TryConsume obj this bytes) w = true ->
      cur (heap after) this = Int64.add sample bytes)
  /\ (gc_functions_respect obj (keeps_tracking this metric) this ->
      result_of (TryConsume obj this bytes) w = true ->
      cur (heap after) this = Int64.add (sampled (heap after) metric) bytes)
  /\ cur (heap_after (Consume obj this bytes) w) this = sample
  /\ cur (heap_after (Release obj this bytes) w) this = sample.
Proof.
  intros Hm Hchain sample lim after.
  assert (Hrest : cur (heap_after (Consume obj this bytes) w) this = sample
                  /\ cur (heap_after (Release obj this bytes) w) this = sample).
  { rewrite (Consume_metric_world obj this metric), (Release_metric_world obj this metric)
      by done.
    rewrite heap_Set, cur_set_counter, decide_True by done.
    by rewrite heap_DCHECK. }
  destruct (decide (bytes = 0)) as [->|Hb].
  { assert (Hres : result_of (TryConsume obj this 0) w = true).
    { unfold TryConsume. rewrite Hm. by rewrite result_bind. }
    assert (Hworld : world_after (TryConsume obj this 0) w
                     = world_after (consumption_Set this sample) w).
    { unfold TryConsume. rewrite Hm. by rewrite world_bind, resample_world. }
    assert (Hcur : cur (heap after) this = Int64.add (sampled (heap after) metric) 0).
    { unfold after. rewrite Hworld, heap_Set, cur_set_counter, decide_True by done.
      symmetry. apply Int64Facts.add_0_r, Int64Facts.wrap_range. }
    assert (Hcur' : cur (heap after) this = Int64.add sample 0).
    { rewrite Hcur. unfold after. by rewrite Hworld. }
    split; [done|].
    split; [intros _; split; [done|]; apply emitted_of_log; by rewrite Hworld, log_Set|].
    split; [intros _; by split|].
    split; [by intros _ _|].
    split; [by intros _ _ | exact Hrest]. }
  destruct (TryConsume_single obj this bytes w Hchain Hb) as [Hres Hworld].
  destruct (prologue_metric obj this metric bytes w Hm) as [Hheap0 Hlog0].
  set (w0 := world_after (TryConsume_prologue obj this bytes) w) in *.
  assert (Hcur0 : cur (heap w0) this = sample).
  { rewrite Hheap0, heap_Set, cur_set_counter. by rewrite decide_True. }
  assert (Htracks0 : tracks_metric this metric (heap w0)).
  { unfold tracks_metric. rewrite Hcur0. unfold sampled. by rewrite Hheap0. }
  assert (Hfit : lim < 0 \/ Int64.add sample bytes <= lim ->
                 result_of (TryConsume obj this bytes) w = true
                 /\ cur (heap after) this = Int64.add sample bytes).
  { intros Hfits. unfold after. rewrite Hres, Hworld.
    destruct (TryConsume_body_cases obj bytes this w0)
      as [(_ & -> & ->)|[(_ & Hok & -> & ->)|[(Hlim & Hno & _)|(Hlim & Hno & _)]]].
    + split; [done|]. rewrite cur_Update, decide_True by done. by rewrite Hcur0.
    + split; [done|]. rewrite heap_TryUpdate_true by done.
      rewrite cur_Update, decide_True by done. by rewrite Hcur0.
    + rewrite result_TryUpdate, Hcur0 in Hno. fold lim in Hlim, Hno. lia.
    + rewrite result_TryUpdate, Hcur0 in Hno. fold lim in Hlim, Hno. lia. }
  split.
  { intros _. destruct (log_TryConsume_body_head obj bytes this w0) as (es & Hlog).
    exists es. apply emitted_of_log. rewrite Hworld, Hlog, Hlog0, Hcur0.
    by rewrite <- app_assoc. }
  split; [done|]. split; [exact Hfit|]. split; [|split; [|exact Hrest]].
  - intros Hgc Hacc. apply Hfit. rewrite Hres in Hacc.
    apply (TryConsume_body_result obj bytes this w0 Hgc) in Hacc.
    unfold fits in Hacc. rewrite Hcur0 in Hacc. exact Hacc.
  - intros Hgc Hacc. unfold after. rewrite Hworld.
    apply TryConsume_body_on_top; [done|done|]. by rewrite <- Hres.
Qed.

Lemma TryConsume_on_metric_tracker_charges_on_top_witness :
  cur (heap_after (TryConsume
                     (MetricScenario.process_with
                        (MetricScenario.gc_lower_metric 3%nat 200)) 0%nat 77)
                  Scenario.metric500) 0%nat
  = Int64.add 500 77
  /\ (let after :=
        heap_after (TryConsume
                      (MetricScenario.process_with
                         (MetricScenario.gc_resample 0%nat 3%nat 200)) 0%nat 600)
                   Scenario.metric500 in
      cur after 0%nat = Int64.add (sampled after 3%nat) 600)
  /\ cur (heap_after (Consume
                        (MetricScenario.process_with
                           (MetricScenario.gc_lower_metric 3%nat 200)) 0%nat 77)
                     Scenario.metric500) 0%nat
     = 500.
Proof.
  assert (Hsame : gc_functions_respect
                    (MetricScenario.process_with
                       (MetricScenario.gc_lower_metric 3%nat 200))
                    same_consumption 0%nat).
  { intros f m Hf p. apply list_elem_of_singleton in Hf as ->. reflexivity. }
  assert (Htracks : gc_functions_respect
                      (MetricScenario.process_with
                         (MetricScenario.gc_resample 0%nat 3%nat 200))
                      (keeps_tracking 0%nat 3%nat) 0%nat).
  { intros f m Hf _. apply list_elem_of_singleton in Hf as ->.
    unfold tracks_metric, MetricScenario.gc_resample.
    rewrite cur_set_counter, decide_True by done.
    unfold sampled, set_counter, MetricScenario.gc_lower_metric. cbn [umetrics].
    by rewrite lookup_total_insert_eq. }
  destruct (TryConsume_on_metric_tracker_charges_on_top
              (MetricScenario.process_with (MetricScenario.gc_lower_metric 3%nat 200))
              0%nat 3%nat 77 Scenario.metric500 eq_refl eq_refl)
    as (_ & _ & Hfits & Hquiet & _ & Hconsume & _).
  destruct (TryConsume_on_metric_tracker_charges_on_top
              (MetricScenario.process_with (MetricScenario.gc_resample 0%nat 3%nat 200))
              0%nat 3%nat 600 Scenario.metric500 eq_refl eq_refl)
    as (_ & _ & _ & _ & Hlatest & _).
  destruct Hfits as [Hres _]; [right; vm_compute; discriminate|].
  split; [exact (Hquiet Hsame Hres)|].
  split; [|exact Hconsume].
  apply (Hlatest Htracks). vm_compute. reflexivity.
Defined.

(** C9 (as stated) fails when the charge is accepted only after a garbage
    collection: the metric reads 500 and the limit is 1000, so
    [TryUpdate(600, 1000)] fails on the sample; [GcMemory(400)] calls the
    callback, which brings metric and counter down to 200; the second
    [TryUpdate(600, 1000)] is applied and leaves 800, which is 600 above the
    value the callback left and not 600 above the 500 sampled at the start of
    the call. *)
Lemma charges_on_top_of_sample_counterexample :
  let obj := MetricScenario.process_with (MetricScenario.gc_resample 0%nat 3%nat 200) in
  emitted (TryConsume obj 0%nat 600) Scenario.metric500
  = [EvSet 0%nat 500; EvTryUpdate 0%nat 600 1000 false; EvGcMemory 0%nat 400;
     EvGcFunction 0%nat 0; EvTryUpdate 0%nat 600 1000 true]
  /\ result_of (TryConsume obj 0%nat 600) Scenario.metric500 = true
  /\ cur (heap_after (TryConsume obj 0%nat 600) Scenario.metric500) 0%nat = 800
  /\ ~ charges_on_top_of_sample obj 0%nat 3%nat 600 Scenario.metric500.
Proof.
  intros obj. split; [vm_compute; reflexivity|].
  split; [vm_compute; reflexivity|]. split; [vm_compute; reflexivity|].
  unfold charges_on_top_of_sample. intros H.
  specialize (H eq_refl). vm_compute in H. discriminate.
Qed.

(** * Further properties of the operations *)

(** ** Release along the chain *)

Section ChargeLoops.

Variable obj : ptr -> MemTracker.

Lemma charged_not_in p d c l : p ∉ l -> charged p d c l = c.
Proof.
  revert c. induction l as [|x l IH]; intros c Hp; [done|].
  apply not_elem_of_cons in Hp as [Hne Hp].
  change (charged p d c (x :: l))
    with (charged p d (if decide (x = p) then Int64.add c d else c) l).
  rewrite decide_False by done. by apply IH.
Qed.

Lemma charged_NoDup p d c l :
  NoDup l -> p ∈ l -> charged p d c l = Int64.add c d.
Proof.
  induction 1 as [|x l Hx Hl IH] in c |- *; intros Hp; [inversion Hp|].
  change (charged p d c (x :: l))
    with (charged p d (if decide (x = p) then Int64.add c d else c) l).
  destruct (decide (x = p)) as [->|Hne].
  - by apply charged_not_in.
  - apply elem_of_cons in Hp as [?|Hp]; [congruence|]. by apply IH.
Qed.

(** The consumption [Consume] and [Release] leave, for a chain without
    repetitions. *)
Lemma cur_charge_loop d l w p :
  NoDup l ->
  cur (heap_after (for_each l (fun tracker =>
         bind (consumption_Update tracker d) (fun _ =>
         bind (consumption tracker) (fun c => DCHECK tracker (c >=? 0))))) w) p
  = if decide (p ∈ l) then Int64.add (cur (heap w) p) d else cur (heap w) p.
Proof.
  intros Hl. rewrite (cur_for_each_charge _ d) by (intros; apply heap_charge_body).
  destruct (decide (p ∈ l)); [by apply charged_NoDup | by apply charged_not_in].
Qed.

Lemma log_charge_body t d w :
  log_after (bind (consumption_Update t d)
               (fun _ => bind (consumption t) (fun c => DCHECK t (c >=? 0)))) w
  = log w ++ charge_events d (cur (heap w) t) t.
Proof.
  rewrite !world_bind.
  change (result_of (consumption t) (world_after (consumption_Update t d) w))
    with (cur (heap_after (consumption_Update t d) w) t).
  rewrite cur_Update, decide_True by done.
  change (world_after (consumption t) ?v) with v.
  unfold charge_events, DCHECK.
  destruct (Int64.add (cur (heap w) t) d <? 0) eqn:Hneg.
  - replace (Int64.add (cur (heap w) t) d >=? 0) with false by lia.
    change (log_after (emit ?e) ?v) with (log v ++ [e]).
    rewrite log_Update. by rewrite <- app_assoc.
  - replace (Int64.add (cur (heap w) t) d >=? 0) with true by lia.
    rewrite world_ret. apply log_Update.
Qed.

Lemma flat_map_ext_elem {A B : Type} (f g : A -> list B) (l : list A) :
  (forall x, x ∈ l -> f x = g x) -> flat_map f l = flat_map g l.
Proof.
  induction l as [|x l IH]; intros H; [done|].
  cbn [flat_map]. rewrite H by (by left). f_equal.
  apply IH. intros y Hy. apply H. by right.
Qed.

(** The calls of the loop, in order, for a chain without repetitions. *)
Lemma log_charge_loop d l :
  NoDup l ->
  forall w,
    log_after (for_each l (fun tracker =>
       bind (consumption_Update tracker d) (fun _ =>
       bind (consumption tracker) (fun c => DCHECK tracker (c >=? 0))))) w
    = log w ++ flat_map (fun t => charge_events d (cur (heap w) t) t) l.
Proof.
  induction 1 as [|t l Ht Hl IH]; intros w.
  { cbn [for_each flat_map]. by rewrite world_ret, app_nil_r. }
  cbn [for_each flat_map]. rewrite world_bind, IH, log_charge_body.
  rewrite <- app_assoc. f_equal. f_equal.
  apply flat_map_ext_elem. intros p Hp. f_equal.
  rewrite heap_charge_body, cur_Update, decide_False; [done|].
  by intros ->.
Qed.

End ChargeLoops.

Section ChargeShape.

Variable obj : ptr -> MemTracker.

Lemma Consume_plain_world this bytes w :
  consumption_metric_ (obj this) = None ->
  bytes <> 0 ->
  world_after (Consume obj this bytes) w
  = world_after (for_each (all_trackers_ (obj this)) (fun tracker =>
       bind (consumption_Update tracker bytes) (fun _ =>
       bind (consumption tracker) (fun c => DCHECK tracker (c >=? 0)))))
      (world_after (when (enable_logging_ (obj this)) (LogUpdate this true bytes)) w).
Proof.
  intros Hm Hb. unfold Consume. rewrite Hm.
  apply Z.eqb_neq in Hb. rewrite Hb. by rewrite world_bind.
Qed.

Lemma Release_plain_world this bytes w :
  consumption_metric_ (obj this) = None ->
  bytes <> 0 ->
  world_after (Release obj this bytes) w
  = world_after (for_each (all_trackers_ (obj this)) (fun tracker =>
       bind (consumption_Update tracker (Int64.neg bytes)) (fun _ =>
       bind (consumption tracker) (fun c => DCHECK tracker (c >=? 0)))))
      (world_after (when (enable_logging_ (obj this)) (LogUpdate this false bytes)) w).
Proof.
  intros Hm Hb. unfold Release. rewrite Hm.
  apply Z.eqb_neq in Hb. rewrite Hb. by rewrite world_bind.
Qed.

Lemma log_when_LogUpdate this c bytes w :
  log_after (when (enable_logging_ (obj this)) (LogUpdate this c bytes)) w
  = log w ++ logging_events obj this c bytes.
Proof.
  unfold logging_events. destruct (enable_logging_ (obj this)); [reflexivity|].
  by rewrite app_nil_r.
Qed.

Lemma first_failed_check_logging this is_consume bytes es :
  first_failed_check (logging_events obj this is_consume bytes ++ es)
  = first_failed_check es.
Proof. unfold logging_events. by destruct (enable_logging_ (obj this)). Qed.

Lemma first_failed_charge_events (f : ptr -> Z) d l :
  first_failed_check (flat_map (fun x => charge_events d (f x) x) l)
  = List.find (fun t => Int64.add (f t) d <? 0) l.
Proof.
  induction l as [|x l IH]; [reflexivity|].
  cbn [flat_map List.find]. unfold charge_events at 1.
  destruct (Int64.add (f x) d <? 0); cbn [app first_failed_check]; [reflexivity|].
  exact IH.
Qed.

End ChargeShape.

(** X1.  [Release(bytes)] on a tracker without a consumption metric, whose
    chain lists each ancestor once, subtracts [bytes] (as [int64_t]
    subtraction, which is the exact difference whenever that difference is an
    [int64_t]) from the consumption of every tracker of the chain and leaves
    the consumption of every tracker outside the chain as it was. *)
Theorem Release_discharges_exactly_the_chain
    (obj : ptr -> MemTracker) (this : ptr) (bytes : Z) (w : world) :
  consumption_metric_ (obj this) = None ->
  NoDup (all_trackers_ (obj this)) ->
  forall p,
    let before := cur (heap w) p in
    let after := cur (heap_after (Release obj this bytes) w) p in
    (p ∈ all_trackers_ (obj this) -> Int64.in_range before ->
       after = Int64.sub before bytes
       /\ (Int64.in_range (before - bytes) -> after = before - bytes))
    /\ (p ∉ all_trackers_ (obj this) -> after = before).
Proof.
  intros Hm Hnodup p before after.
  assert (Hafter : bytes <> 0 ->
            after = if decide (p ∈ all_trackers_ (obj this))
                    then Int64.sub before bytes else before).
  { intros Hb. unfold after. rewrite Release_plain_world by done.
    rewrite cur_charge_loop by done. rewrite heap_when_LogUpdate.
    destruct (decide _); [|done].
    rewrite add_neg_wrap. unfold Int64.sub. f_equal. }
  assert (Hzero : bytes = 0 -> after = before).
  { intros ->. unfold after, Release. by rewrite Hm. }
  split.
  - intros Hp Hrange.
    assert (Hsub : after = Int64.sub before bytes).
    { destruct (decide (bytes = 0)) as [->|Hb].
      - rewrite Hzero by done. unfold Int64.sub. rewrite Z.sub_0_r.
        symmetry. by apply Int64Facts.wrap_id.
      - rewrite Hafter by done. by rewrite decide_True. }
    split; [done|]. intros Hdiff. rewrite Hsub. by apply Int64Facts.sub_exact.
  - intros Hp. destruct (decide (bytes = 0)) as [->|Hb]; [by apply Hzero|].
    rewrite Hafter by done. by rewrite decide_False.
Qed.

Lemma Release_discharges_exactly_the_chain_witness :
  let w90 := world_after (Consume Scenario.chain3 2%nat 90) Scenario.fresh in
  cur (heap_after (Release Scenario.chain3 1%nat 40) w90) 0%nat = 90 - 40
  /\ cur (heap_after (Release Scenario.chain3 1%nat 40) w90) 2%nat = 90.
Proof.
  intros w90.
  assert (Hnodup : NoDup (all_trackers_ (Scenario.chain3 1%nat))) by by_evaluation.
  split.
  - destruct (Release_discharges_exactly_the_chain Scenario.chain3 1%nat 40 w90
                eq_refl Hnodup 0%nat) as [Hin _].
    destruct Hin as [_ Hexact].
    + by_evaluation.
    + vm_compute. split; discriminate.
    + change (cur (heap w90) 0%nat) with 90 in Hexact. apply Hexact.
      vm_compute. split; discriminate.
  - destruct (Release_discharges_exactly_the_chain Scenario.chain3 1%nat 40 w90
                eq_refl Hnodup 2%nat) as [_ Hout].
    rewrite Hout; [reflexivity|]. by_evaluation.
Defined.

(** X2.  The debug check of [Consume] and [Release], up to its first
    failure (glog's [DCHECK_GE] is fatal in a debug build, so nothing is said
    about what follows it).  For a call with [bytes <> 0] on a tracker
    without a consumption metric, whose chain lists each ancestor once, the
    first [DCHECK_GE(current_value(), 0)] that fails is the one at the first
    tracker, in chain order, whose consumption plus [bytes] (minus [bytes]
    for [Release]; [int64_t] arithmetic) is negative; when the chain has no
    such tracker, every check passes. *)
Theorem first_failed_DCHECK_is_at_first_negative
    (obj : ptr -> MemTracker) (this : ptr) (bytes : Z) (w : world) :
  consumption_metric_ (obj this) = None ->
  NoDup (all_trackers_ (obj this)) ->
  bytes <> 0 ->
  first_failed_check (emitted (Consume obj this bytes) w)
  = List.find (fun t => Int64.add (cur (heap w) t) bytes <? 0)
      (all_trackers_ (obj this))
  /\ first_failed_check (emitted (Release obj this bytes) w)
     = List.find (fun t => Int64.add (cur (heap w) t) (Int64.neg bytes) <? 0)
         (all_trackers_ (obj this)).
Proof.
  intros Hm Hnodup Hb. split.
  - rewrite (emitted_of_log _ _
               (logging_events obj this true bytes
                ++ flat_map (fun x => charge_events bytes (cur (heap w) x) x)
                     (all_trackers_ (obj this)))).
    + rewrite first_failed_check_logging. apply first_failed_charge_events.
    + rewrite Consume_plain_world, log_charge_loop by done.
      rewrite log_when_LogUpdate, <- app_assoc. f_equal. f_equal.
      apply flat_map_ext_elem. intros x _. by rewrite heap_when_LogUpdate.
  - rewrite (emitted_of_log _ _
               (logging_events obj this false bytes
                ++ flat_map (fun x => charge_events (Int64.neg bytes)
                                        (cur (heap w) x) x)
                     (all_trackers_ (obj this)))).
    + rewrite first_failed_check_logging. apply first_failed_charge_events.
    + rewrite Release_plain_world, log_charge_loop by done.
      rewrite log_when_LogUpdate, <- app_assoc. f_equal. f_equal.
      apply flat_map_ext_elem. intros x _. by rewrite heap_when_LogUpdate.
Qed.

Lemma first_failed_DCHECK_is_at_first_negative_witness :
  first_failed_check (emitted (Consume Scenario.chain3 1%nat 30) Scenario.fresh) = None
  /\ first_failed_check (emitted (Release Scenario.chain3 1%nat 30) Scenario.fresh)
     = Some 1%nat.
Proof.
  assert (Hnodup : NoDup (all_trackers_ (Scenario.chain3 1%nat))) by by_evaluation.
  assert (Hb : 30 <> 0) by discriminate.
  destruct (first_failed_DCHECK_is_at_first_negative Scenario.chain3 1%nat 30
              Scenario.fresh eq_refl Hnodup Hb) as [Hconsume Hrelease].
  split.
  - rewrite Hconsume. vm_compute. reflexivity.
  - rewrite Hrelease. vm_compute. reflexivity.
Defined.

(** ** The decision of TryConsume *)

Section AdmissionDecision.

Variable obj : ptr -> MemTracker.

Lemma TryConsume_loop_accepts_iff bytes remaining :
  NoDup remaining ->
  (forall t, t ∈ remaining -> gc_functions_respect obj same_consumption t) ->
  forall i w,
    result_of (TryConsume_loop obj bytes remaining i) w = (i + length remaining)%nat
    <-> forall p, p ∈ remaining -> fits obj bytes (heap w) p.
Proof.
  induction 1 as [|t l Ht Hl IH]; intros Hgc i w.
  { split; [intros _ p Hp; inversion Hp | intros _; cbn; unfold result_of; cbn; lia]. }
  assert (Hgct : gc_functions_respect obj same_consumption t) by (apply Hgc; by left).
  rewrite result_TryConsume_loop_cons.
  pose proof (TryConsume_body_result obj bytes t w Hgct) as Hbody.
  pose proof (fun p => TryConsume_body_consumption obj bytes t w p Hgct) as Hcur.
  destruct (result_of (TryConsume_body obj bytes t) w) eqn:Hr.
  - cbn [length]. replace (i + S (length l))%nat with (S i + length l)%nat by lia.
    rewrite IH by (intros t' Ht'; apply Hgc; by right).
    split.
    + intros Hall p Hp. apply elem_of_cons in Hp as [->|Hp]; [by apply Hbody|].
      specialize (Hall p Hp). unfold fits in *.
      rewrite Hcur, decide_False in Hall by (by intros ->). exact Hall.
    + intros Hall p Hp. assert (Hfit : fits obj bytes (heap w) p)
        by (apply Hall; by right).
      unfold fits in *. rewrite Hcur, decide_False by (by intros ->). exact Hfit.
  - cbn [length]. split; [lia|]. intros Hall.
    assert (Hfit : fits obj bytes (heap w) t) by (apply Hall; by left).
    apply Hbody in Hfit. discriminate.
Qed.

(** The consumption an accepting loop leaves. *)
Lemma TryConsume_loop_accepted_consumption bytes remaining p :
  (forall t, t ∈ remaining -> gc_functions_respect obj same_consumption t) ->
  forall i w,
    result_of (TryConsume_loop obj bytes remaining i) w = (i + length remaining)%nat ->
    cur (heap_after (TryConsume_loop obj bytes remaining i) w) p
    = charged p bytes (cur (heap w) p) remaining.
Proof.
  induction remaining as [|t l IH]; intros Hgc i w Hres; [reflexivity|].
  assert (Hgct : gc_functions_respect obj same_consumption t) by (apply Hgc; by left).
  rewrite result_TryConsume_loop_cons in Hres. rewrite world_TryConsume_loop_cons.
  pose proof (TryConsume_loop_bounds obj bytes l (S i)
                (world_after (TryConsume_body obj bytes t) w)) as Hb.
  destruct (result_of (TryConsume_body obj bytes t) w) eqn:Hr;
    [|cbn [length] in Hres; lia].
  rewrite IH.
  - change (charged p bytes ?c (t :: l))
      with (charged p bytes (if decide (t = p) then Int64.add c bytes else c) l).
    f_equal. by rewrite TryConsume_body_consumption, Hr.
  - intros t' Ht'. apply Hgc. by right.
  - rewrite Hres. cbn [length]. lia.
Qed.

End AdmissionDecision.

(** X3.  The decision of [TryConsume]: on a tracker without a consumption
    metric, whose chain lists each ancestor once and whose GC callbacks free
    nothing (for instance because there are none), [TryConsume(bytes)] with
    [bytes <> 0] returns true iff the charge fits at every tracker of the
    chain, that is, iff each of them has no limit or a consumption that stays
    within the limit once [bytes] are added. *)
Theorem TryConsume_accepts_iff_charge_fits
    (obj : ptr -> MemTracker) (this : ptr) (bytes : Z) (w : world) :
  consumption_metric_ (obj this) = None ->
  NoDup (all_trackers_ (obj this)) ->
  (forall t, t ∈ all_trackers_ (obj this) ->
             gc_functions_respect obj same_consumption t) ->
  bytes <> 0 ->
  (result_of (TryConsume obj this bytes) w = true
   <-> forall p, p ∈ all_trackers_ (obj this) -> fits obj bytes (heap w) p).
Proof.
  intros Hm Hnodup Hgc Hb.
  rewrite result_TryConsume by done. rewrite Nat.eqb_eq.
  rewrite <- (heap_prologue_plain obj this bytes w Hm).
  apply (TryConsume_loop_accepts_iff obj bytes _ Hnodup Hgc 0).
Qed.

Lemma TryConsume_accepts_iff_charge_fits_witness :
  result_of (TryConsume Scenario.chain2 1%nat 60) Scenario.fresh <> true
  /\ result_of (TryConsume Scenario.chain2 1%nat 50) Scenario.fresh = true.
Proof.
  assert (Hnodup : NoDup (all_trackers_ (Scenario.chain2 1%nat))) by by_evaluation.
  assert (Hgc : forall t, t ∈ all_trackers_ (Scenario.chain2 1%nat) ->
                  gc_functions_respect Scenario.chain2 same_consumption t).
  { intros t _ f m Hf. destruct t; inversion Hf. }
  assert (Hb60 : 60 <> 0) by discriminate.
  assert (Hb50 : 50 <> 0) by discriminate.
  destruct (TryConsume_accepts_iff_charge_fits Scenario.chain2 1%nat 60 Scenario.fresh
              eq_refl Hnodup Hgc Hb60) as [Honly _].
  destruct (TryConsume_accepts_iff_charge_fits Scenario.chain2 1%nat 50 Scenario.fresh
              eq_refl Hnodup Hgc Hb50) as [_ Hif].
  split.
  - intros Hacc.
    assert (Hin : 1%nat ∈ all_trackers_ (Scenario.chain2 1%nat)) by by_evaluation.
    destruct (Honly Hacc 1%nat Hin) as [H|H]; vm_compute in H;
      first [discriminate | by apply H].
  - apply Hif. intros p Hp. right.
    destruct p as [|[|p]]; vm_compute; discriminate.
Defined.

(** ** An admitted charge *)

Section FittingCharge.

Variable obj : ptr -> MemTracker.

Lemma heap_for_each_charge (body : ptr -> M unit) d l :
  (forall t w, heap_after (body t) w = heap_after (consumption_Update t d) w) ->
  forall w, heap_after (for_each l body) w = charge_store d l (heap w).
Proof.
  intros Hbody. induction l as [|t l IH]; intros w; [reflexivity|].
  cbn [for_each]. rewrite world_bind, IH, Hbody. reflexivity.
Qed.

(** A loop body at a tracker where the charge fits: one call on the counter,
    which is applied, and no call of [GcMemory]. *)
Lemma TryConsume_body_fits bytes t w :
  fits obj bytes (heap w) t ->
  result_of (TryConsume_body obj bytes t) w = true
  /\ heap_after (TryConsume_body obj bytes t) w
     = heap_after (consumption_Update t bytes) w
  /\ log_after (TryConsume_body obj bytes t) w
     = log w ++ [admission_call obj bytes t].
Proof.
  intros Hfits. unfold admission_call.
  destruct (TryConsume_body_cases obj bytes t w)
    as [(Hlim & -> & ->)|[(Hlim & Hok & -> & ->)
       |[(Hlim & Hno & _)|(Hlim & Hno & _)]]].
  - replace (limit_ (obj t) <? 0) with true by lia.
    split; [done|]. split; [done|]. apply log_Update.
  - replace (limit_ (obj t) <? 0) with false by lia.
    split; [done|]. split; [by apply heap_TryUpdate_true|].
    by rewrite log_TryUpdate, Hok.
  - apply (fits_TryUpdate obj) in Hfits; [|done].
    rewrite <- result_TryUpdate in Hfits. congruence.
  - apply (fits_TryUpdate obj) in Hfits; [|done].
    rewrite <- result_TryUpdate in Hfits. congruence.
Qed.

Lemma TryConsume_loop_fits bytes remaining :
  NoDup remaining ->
  forall i w,
    (forall p, p ∈ remaining -> fits obj bytes (heap w) p) ->
    result_of (TryConsume_loop obj bytes remaining i) w = (i + length remaining)%nat
    /\ heap_after (TryConsume_loop obj bytes remaining i) w
       = charge_store bytes remaining (heap w)
    /\ log_after (TryConsume_loop obj bytes remaining i) w
       = log w ++ map (admission_call obj bytes) remaining.
Proof.
  induction 1 as [|t l Ht Hl IH]; intros i w Hfits.
  { cbn [TryConsume_loop map length charge_store foldl].
    rewrite result_ret, world_ret, app_nil_r. split; [lia|done]. }
  destruct (TryConsume_body_fits bytes t w) as (Hr & Hheap & Hlog).
  { apply Hfits. by left. }
  rewrite result_TryConsume_loop_cons, world_TryConsume_loop_cons, Hr.
  destruct (IH (S i) (world_after (TryConsume_body obj bytes t) w))
    as (Hres & Hh & Hl').
  { intros p Hp. assert (Hfit : fits obj bytes (heap w) p) by (apply Hfits; by right).
    unfold fits in *. rewrite Hheap, cur_Update, decide_False by (by intros ->).
    exact Hfit. }
  rewrite Hres, Hh, Hl', Hheap, Hlog. cbn [length map].
  split; [lia|]. split; [reflexivity|]. by rewrite <- app_assoc.
Qed.

Lemma heap_Consume_plain this bytes w :
  consumption_metric_ (obj this) = None ->
  bytes <> 0 ->
  heap_after (Consume obj this bytes) w
  = charge_store bytes (all_trackers_ (obj this)) (heap w).
Proof.
  intros Hm Hb. rewrite Consume_plain_world by done.
  rewrite (heap_for_each_charge _ bytes) by (intros; apply heap_charge_body).
  by rewrite heap_when_LogUpdate.
Qed.

End FittingCharge.

(** X4.  An admitted charge needs no garbage collection and is the charge
    [Consume] makes: when [bytes <> 0] fit at every tracker of the chain (no
    consumption metric, each ancestor listed once), [TryConsume(bytes)]
    returns true, makes exactly one call on the counter of each tracker, in
    chain order ([Update] if the tracker has no limit, an applied [TryUpdate]
    otherwise), never calls [GcMemory] or a callback, and leaves the store
    that [Consume(bytes)] leaves. *)
Theorem TryConsume_that_fits_charges_like_Consume
    (obj : ptr -> MemTracker) (this : ptr) (bytes : Z) (w : world) :
  consumption_metric_ (obj this) = None ->
  NoDup (all_trackers_ (obj this)) ->
  bytes <> 0 ->
  (forall p, p ∈ all_trackers_ (obj this) -> fits obj bytes (heap w) p) ->
  result_of (TryConsume obj this bytes) w = true
  /\ emitted (TryConsume obj this bytes) w
     = logging_events obj this true bytes
       ++ map (admission_call obj bytes) (all_trackers_ (obj this))
  /\ heap_after (TryConsume obj this bytes) w = heap_after (Consume obj this bytes) w.
Proof.
  intros Hm Hnodup Hb Hfits.
  set (w0 := world_after (TryConsume_prologue obj this bytes) w).
  assert (Hheap0 : heap w0 = heap w) by (by apply heap_prologue_plain).
  assert (Hlog0 : log w0 = log w ++ logging_events obj this true bytes).
  { unfold w0, TryConsume_prologue. rewrite Hm, world_bind, world_ret.
    apply log_when_LogUpdate. }
  destruct (TryConsume_loop_fits obj bytes (all_trackers_ (obj this)) Hnodup 0 w0)
    as (Hres & Hheap & Hlog).
  { intros p Hp. unfold fits. rewrite Hheap0. by apply Hfits. }
  assert (Hacc : result_of (TryConsume obj this bytes) w = true).
  { rewrite result_TryConsume by done. fold w0. rewrite Hres. apply Nat.eqb_refl. }
  split; [exact Hacc|]. split.
  - apply emitted_of_log. rewrite world_TryConsume by done. rewrite Hacc.
    fold w0. rewrite Hlog, Hlog0. by rewrite <- app_assoc.
  - rewrite world_TryConsume by done. rewrite Hacc. fold w0.
    rewrite Hheap, Hheap0. symmetry. by apply heap_Consume_plain.
Qed.

Lemma TryConsume_that_fits_charges_like_Consume_witness :
  emitted (TryConsume Scenario.chain3 2%nat 70) Scenario.fresh
  = [EvUpdate 2%nat 70; EvTryUpdate 1%nat 70 80 true; EvTryUpdate 0%nat 70 100 true]
  /\ heap_after (TryConsume Scenario.chain3 2%nat 70) Scenario.fresh
     = heap_after (Consume Scenario.chain3 2%nat 70) Scenario.fresh.
Proof.
  assert (Hnodup : NoDup (all_trackers_ (Scenario.chain3 2%nat))) by by_evaluation.
  assert (Hb : 70 <> 0) by discriminate.
  destruct (TryConsume_that_fits_charges_like_Consume Scenario.chain3 2%nat 70
              Scenario.fresh eq_refl Hnodup Hb) as (_ & Hlog & Hheap).
  - intros p Hp. destruct p as [|[|p]].
    + right. vm_compute. discriminate.
    + right. vm_compute. discriminate.
    + left. reflexivity.
  - split; [exact Hlog | exact Hheap].
Defined.

(** X5.  [TryConsume] and [Release] form a round trip: after an accepted
    [TryConsume(bytes)] on a tracker without a consumption metric whose GC
    callbacks free nothing, [Release(bytes)] on the same tracker gives every
    tracker the consumption it had before the [TryConsume], also when a sum
    wrapped around in between. *)
Theorem TryConsume_then_Release_restores_consumption
    (obj : ptr -> MemTracker) (this : ptr) (bytes : Z) (w : world) :
  consumption_metric_ (obj this) = None ->
  (forall t, t ∈ all_trackers_ (obj this) ->
             gc_functions_respect obj same_consumption t) ->
  result_of (TryConsume obj this bytes) w = true ->
  forall p, Int64.in_range (cur (heap w) p) ->
    cur (heap_after (Release obj this bytes)
           (world_after (TryConsume obj this bytes) w)) p
    = cur (heap w) p.
Proof.
  intros Hm Hgc Hacc p Hrange.
  destruct (decide (bytes = 0)) as [->|Hb].
  { unfold world_after at 1, Release. rewrite Hm. cbn [snd].
    unfold world_after, TryConsume. by rewrite Hm. }
  assert (Hcur : cur (heap_after (TryConsume obj this bytes) w) p
                 = Int64.wrap (cur (heap w) p
                               + occurrences p (all_trackers_ (obj this)) * bytes)).
  { rewrite world_TryConsume by done. rewrite Hacc.
    rewrite result_TryConsume in Hacc by done. apply Nat.eqb_eq in Hacc.
    rewrite TryConsume_loop_accepted_consumption by done.
    rewrite heap_prologue_plain by done. by apply charged_closed. }
  rewrite cur_Release; [|done|rewrite Hcur; apply Int64Facts.wrap_range].
  rewrite Hcur, Int64Facts.wrap_wrap_add_l.
  replace (cur (heap w) p + occurrences p (all_trackers_ (obj this)) * bytes
           + occurrences p (all_trackers_ (obj this)) * - bytes)
    with (cur (heap w) p) by lia.
  by apply Int64Facts.wrap_id.
Qed.

Lemma TryConsume_then_Release_restores_consumption_witness :
  let w40 := Scenario.charged40 in
  cur (heap_after (Release Scenario.chain2 1%nat 10)
         (world_after (TryConsume Scenario.chain2 1%nat 10) w40)) 0%nat
  = cur (heap w40) 0%nat.
Proof.
  intros w40.
  apply (TryConsume_then_Release_restores_consumption Scenario.chain2 1%nat 10 w40).
  - reflexivity.
  - intros t _ f m Hf. destruct t; inversion Hf.
  - vm_compute. reflexivity.
  - vm_compute. split; discriminate.
Defined.

(** ** What a rejected TryConsume leaves in the counters *)

Section Rejected.

Variable obj : ptr -> MemTracker.

Lemma same_counters_refl m : same_counters m m.
Proof. by intros p. Qed.

Lemma same_counters_trans m1 m2 m3 :
  same_counters m1 m2 -> same_counters m2 m3 -> same_counters m1 m3.
Proof. intros H1 H2 p. by rewrite H2, H1. Qed.

Lemma same_counters_imetrics m mp v :
  same_counters m (mkMem (counters m) (umetrics m) (<[mp := v]> (imetrics m))).
Proof. by intros p. Qed.

Lemma counter_of_Update t d w p :
  counter_of (heap_after (consumption_Update t d) w) p
  = if decide (t = p) then Counter.Update d (counter_of (heap w) p)
    else counter_of (heap w) p.
Proof.
  rewrite heap_Update, counter_of_set_counter.
  destruct (decide (t = p)) as [->|]; reflexivity.
Qed.

Lemma TryConsume_body_counters bytes t w p :
  gc_functions_respect obj same_counters t ->
  counter_of (heap_after (TryConsume_body obj bytes t) w) p
  = if result_of (TryConsume_body obj bytes t) w
    then (if decide (t = p) then Counter.Update bytes (counter_of (heap w) p)
          else counter_of (heap w) p)
    else counter_of (heap w) p.
Proof.
  intros Hgc.
  pose proof (respects_GcMemory obj same_counters same_counters_refl
                same_counters_trans same_counters_imetrics t
                (Int64.sub (limit_ (obj t)) bytes) Hgc) as HGC.
  set (try := consumption_TryUpdate t bytes (limit_ (obj t))).
  assert (Hfail : result_of try w = false ->
            forall q, counter_of (heap_after (GcMemory obj t
                             (Int64.sub (limit_ (obj t)) bytes))
                           (world_after try w)) q = counter_of (heap w) q).
  { intros Hno q. rewrite (HGC _ q).
    unfold try. by rewrite heap_TryUpdate_false. }
  destruct (TryConsume_body_cases obj bytes t w)
    as [(_ & -> & ->)|[(_ & Hok & -> & ->)
       |[(_ & Hno & _ & -> & ->)|(_ & Hno & _ & -> & ->)]]].
  - apply counter_of_Update.
  - rewrite heap_TryUpdate_true by done. apply counter_of_Update.
  - by apply Hfail.
  - fold try. fold try in Hno. specialize (Hfail Hno).
    set (w2 := world_after _ (world_after _ w)) in *.
    destruct (result_of try w2) eqn:Hr; unfold try in *.
    + rewrite heap_TryUpdate_true by done. rewrite counter_of_Update.
      by rewrite !Hfail.
    + rewrite heap_TryUpdate_false by done. apply Hfail.
Qed.

(** The loop has charged exactly the trackers it got past. *)
Lemma TryConsume_loop_counters bytes remaining p :
  NoDup remaining ->
  (forall t, t ∈ remaining -> gc_functions_respect obj same_counters t) ->
  forall i w,
    counter_of (heap_after (TryConsume_loop obj bytes remaining i) w) p
    = if decide (p ∈ take (result_of (TryConsume_loop obj bytes remaining i) w - i)
                        remaining)
      then Counter.Update bytes (counter_of (heap w) p)
      else counter_of (heap w) p.
Proof.
  induction 1 as [|t l Ht Hl IH]; intros Hgc i w.
  { rewrite take_nil. rewrite decide_False by apply not_elem_of_nil. reflexivity. }
  assert (Hgct : gc_functions_respect obj same_counters t) by (apply Hgc; by left).
  pose proof (TryConsume_body_counters bytes t w p Hgct) as Hbody.
  rewrite result_TryConsume_loop_cons, world_TryConsume_loop_cons.
  destruct (result_of (TryConsume_body obj bytes t) w) eqn:Hcont.
  - set (w1 := world_after (TryConsume_body obj bytes t) w) in *.
    pose proof (TryConsume_loop_bounds obj bytes l (S i) w1) as Hb.
    set (i' := result_of (TryConsume_loop obj bytes l (S i)) w1) in *.
    replace (i' - i)%nat with (S (i' - S i)) by lia.
    rewrite firstn_cons, IH by (intros t' Ht'; apply Hgc; by right).
    fold i'. rewrite Hbody.
    destruct (decide (p ∈ take (i' - S i) l)) as [Hin|Hnotin].
    + assert (Hpl : p ∈ l).
      { rewrite <- (take_drop (i' - S i) l). apply elem_of_app. by left. }
      rewrite decide_False by (by intros ->).
      rewrite decide_True by (by right). reflexivity.
    + destruct (decide (t = p)) as [->|Hne].
      * rewrite decide_True by (by left). reflexivity.
      * rewrite decide_False; [reflexivity|].
        intros Hin. apply elem_of_cons in Hin as [?|?]; [congruence|done].
  - rewrite Nat.sub_diag, take_0.
    rewrite decide_False by apply not_elem_of_nil. exact Hbody.
Qed.

Lemma counter_of_for_each_Update d l :
  NoDup l ->
  forall w p,
    counter_of (heap_after (for_each l (fun t => consumption_Update t d)) w) p
    = if decide (p ∈ l) then Counter.Update d (counter_of (heap w) p)
      else counter_of (heap w) p.
Proof.
  induction 1 as [|t l Ht Hl IH]; intros w p.
  { rewrite decide_False by apply not_elem_of_nil. reflexivity. }
  cbn [for_each]. rewrite world_bind, IH, counter_of_Update.
  destruct (decide (p ∈ l)) as [Hin|Hnotin].
  - rewrite decide_False by (by intros ->).
    rewrite decide_True by (by right). reflexivity.
  - destruct (decide (t = p)) as [->|Hne].
    + rewrite decide_True by (by left). reflexivity.
    + rewrite decide_False; [reflexivity|].
      intros Hin. apply elem_of_cons in Hin as [?|?]; [congruence|done].
Qed.

End Rejected.

(** X6.  What a rejected [TryConsume(bytes)] leaves in the counters (the
    imprecision the TODO in the code describes).  The tracker has no
    consumption metric, its chain lists each ancestor once, the callbacks leave
    the counters alone, and the walk stopped at index [i].  Each tracker
    before [i] has its consumption again, but its peak is now at least the
    consumption plus [bytes] that it held for a moment; the tracker at [i]
    and all trackers after it, like those outside the chain, have their
    counter unchanged, peak included. *)
Theorem TryConsume_rejected_leaves_raised_peaks
    (obj : ptr -> MemTracker) (this : ptr) (bytes : Z) (w : world) :
  consumption_metric_ (obj this) = None ->
  NoDup (all_trackers_ (obj this)) ->
  (forall t, t ∈ all_trackers_ (obj this) ->
             gc_functions_respect obj same_counters t) ->
  result_of (TryConsume obj this bytes) w = false ->
  let i := result_of (TryConsume_walk obj this bytes) w in
  let after := heap_after (TryConsume obj this bytes) w in
  forall p,
    (p ∈ take i (all_trackers_ (obj this)) ->
       Int64.in_range (cur (heap w) p) -> cur (heap w) p <= peak (heap w) p ->
       cur after p = cur (heap w) p
       /\ peak after p = Z.max (peak (heap w) p) (Int64.add (cur (heap w) p) bytes))
    /\ (p ∉ take i (all_trackers_ (obj this)) ->
        counter_of after p = counter_of (heap w) p).
Proof.
  intros Hm Hnodup Hgc Hrej i after p.
  destruct (decide (bytes = 0)) as [->|Hb].
  { unfold result_of, TryConsume in Hrej. rewrite Hm in Hrej. discriminate. }
  set (chain := all_trackers_ (obj this)) in *.
  set (w0 := world_after (TryConsume_prologue obj this bytes) w).
  assert (Hi : i = result_of (TryConsume_loop obj bytes chain 0) w0) by reflexivity.
  assert (Hnodup_i : NoDup (take i chain)).
  { rewrite <- (take_drop i chain) in Hnodup.
    by apply NoDup_app in Hnodup as (H & _ & _). }
  assert (Hafter : counter_of after p
                   = if decide (p ∈ take i chain)
                     then Counter.Update (Int64.neg bytes)
                            (Counter.Update bytes (counter_of (heap w) p))
                     else counter_of (heap w) p).
  { unfold after. rewrite world_TryConsume by done. rewrite Hrej.
    unfold TryConsume_rollback. fold chain w0. rewrite <- Hi.
    rewrite counter_of_for_each_Update by done.
    rewrite (TryConsume_loop_counters obj bytes chain p Hnodup Hgc 0 w0).
    rewrite Nat.sub_0_r, <- Hi. unfold w0.
    rewrite heap_prologue_plain by done.
    destruct (decide (p ∈ take i chain)); reflexivity. }
  split.
  - intros Hp Hrange Hpeak. unfold cur, peak in *. rewrite Hafter.
    rewrite decide_True by done.
    unfold Counter.Update, Counter.current_value, Counter.value in *.
    cbn [current_value_ max_value_].
    rewrite Int64Facts.add_neg_cancel by done. split; [reflexivity|lia].
  - intros Hp. rewrite Hafter. by rewrite decide_False.
Qed.

Lemma TryConsume_rejected_leaves_raised_peaks_witness :
  let after := heap_after (TryConsume Scenario.chain3 2%nat 90) Scenario.fresh in
  (cur after 2%nat = 0 /\ peak after 2%nat = 90)
  /\ counter_of after 1%nat = counter_of (heap Scenario.fresh) 1%nat
  /\ counter_of after 0%nat = counter_of (heap Scenario.fresh) 0%nat.
Proof.
  intros after.
  assert (Hnodup : NoDup (all_trackers_ (Scenario.chain3 2%nat))) by by_evaluation.
  assert (Hgc : forall t, t ∈ all_trackers_ (Scenario.chain3 2%nat) ->
                  gc_functions_respect Scenario.chain3 same_counters t).
  { intros t Ht f m Hf p.
    destruct t as [|[|t]]; cbn in Hf.
    - inversion Hf.
    - apply list_elem_of_singleton in Hf as ->. reflexivity.
    - destruct t; inversion Hf. }
  assert (Hrej : result_of (TryConsume Scenario.chain3 2%nat 90) Scenario.fresh = false)
    by (vm_compute; reflexivity).
  pose proof (TryConsume_rejected_leaves_raised_peaks Scenario.chain3 2%nat 90
                Scenario.fresh eq_refl Hnodup Hgc Hrej) as H.
  cbv zeta in H.
  change (result_of (TryConsume_walk Scenario.chain3 2%nat 90) Scenario.fresh)
    with 1%nat in H.
  split; [|split].
  - destruct (H 2%nat) as [Hin _]. apply Hin.
    + by_evaluation.
    + vm_compute. split; discriminate.
    + vm_compute. discriminate.
  - destruct (H 1%nat) as [_ Hout]. apply Hout. by_evaluation.
  - destruct (H 0%nat) as [_ Hout]. apply Hout. by_evaluation.
Defined.

(** ** LimitExceeded and AnyLimitExceeded *)

Section LimitChecks.

Variable obj : ptr -> MemTracker.

Lemma exceeded_check m t :
  (limit_ (obj t) >=? 0) && (limit_ (obj t) <? cur m t) = true <-> exceeded obj m t.
Proof. unfold exceeded. rewrite andb_true_iff. lia. Qed.

(** Within its limit a tracker is only looked at. *)
Lemma LimitExceeded_within this w :
  ~ exceeded obj (heap w) this -> LimitExceeded obj this w = (false, w).
Proof.
  intros Hnot. unfold LimitExceeded. rewrite run_bind.
  unfold result_of, world_after. rewrite CheckLimitExceeded_eq. cbn [fst snd].
  destruct ((limit_ (obj this) >=? 0) && (limit_ (obj this) <? cur (heap w) this))
    eqn:Hc; [|reflexivity].
  apply exceeded_check in Hc. contradiction.
Qed.

Lemma LimitExceeded_result this w :
  result_of (LimitExceeded obj this) w = true
  <-> exceeded obj (heap_after (LimitExceeded obj this) w) this.
Proof.
  destruct (decide (exceeded obj (heap w) this)) as [Hex|Hnot].
  - assert (Hshape : LimitExceeded obj this w
      = bind (match bytes_over_limit_metric_ (obj this) with
              | Some metric =>
                  bind (consumption this) (fun c =>
                    metric_Update metric (Int64.sub c (limit_ (obj this))))
              | None => ret tt
              end) (fun _ => GcMemory obj this (limit_ (obj this))) w).
    { unfold LimitExceeded. rewrite run_bind.
      unfold result_of, world_after. rewrite CheckLimitExceeded_eq. cbn [fst snd].
      apply exceeded_check in Hex. by rewrite Hex. }
    rewrite (result_of_eq _ _ _ Hshape), (world_after_eq _ _ _ Hshape).
    rewrite result_bind, world_bind, result_GcMemory.
    destruct Hex as [Hlim _]. unfold exceeded. lia.
  - unfold result_of, world_after. rewrite LimitExceeded_within by done.
    cbn [fst snd]. split; [discriminate | contradiction].
Qed.

Lemma AnyLimitExceeded_loop_cons t rest w :
  AnyLimitExceeded_loop obj (t :: rest) w
  = if result_of (LimitExceeded obj t) w
    then (true, world_after (LimitExceeded obj t) w)
    else AnyLimitExceeded_loop obj rest (world_after (LimitExceeded obj t) w).
Proof.
  cbn [AnyLimitExceeded_loop]. rewrite run_bind.
  by destruct (result_of (LimitExceeded obj t) w).
Qed.

Lemma AnyLimitExceeded_loop_within trackers w :
  (forall t, t ∈ trackers -> ~ exceeded obj (heap w) t) ->
  AnyLimitExceeded_loop obj trackers w = (false, w).
Proof.
  induction trackers as [|t l IH]; intros Hall; [reflexivity|].
  rewrite AnyLimitExceeded_loop_cons.
  unfold result_of, world_after.
  rewrite LimitExceeded_within by (apply Hall; by left). cbn [fst snd].
  apply IH. intros t' Ht'. apply Hall. by right.
Qed.

Lemma AnyLimitExceeded_loop_true trackers :
  forall w,
    result_of (AnyLimitExceeded_loop obj trackers) w = true ->
    exists t, t ∈ trackers
              /\ exceeded obj (heap_after (AnyLimitExceeded_loop obj trackers) w) t.
Proof.
  induction trackers as [|t l IH]; intros w Hres; [discriminate|].
  unfold result_of, world_after in *. rewrite AnyLimitExceeded_loop_cons in *.
  destruct (result_of (LimitExceeded obj t) w) eqn:Hr.
  - exists t. split; [by left|]. cbn [snd]. by apply LimitExceeded_result.
  - destruct (IH _ Hres) as (t' & Ht' & Hex). exists t'. split; [by right|done].
Qed.

Lemma AnyLimitExceeded_loop_false trackers :
  (forall t, t ∈ trackers -> gc_functions_respect obj no_higher_consumption t) ->
  forall w,
    result_of (AnyLimitExceeded_loop obj trackers) w = false ->
    forall t, t ∈ trackers ->
      ~ exceeded obj (heap_after (AnyLimitExceeded_loop obj trackers) w) t.
Proof.
  induction trackers as [|t l IH]; intros Hgc w Hres t' Ht'; [inversion Ht'|].
  assert (Hrest : forall w, no_higher_consumption (heap w)
                    (heap_after (AnyLimitExceeded_loop obj l) w)).
  { clear -Hgc. assert (Hgcl : forall t, t ∈ l ->
        gc_functions_respect obj no_higher_consumption t)
      by (intros; apply Hgc; by right).
    clear Hgc. induction l as [|x l IHl]; intros w; [by intros p|].
    unfold world_after. rewrite AnyLimitExceeded_loop_cons.
    pose proof (respects_LimitExceeded obj no_higher_consumption
                  no_higher_consumption_refl no_higher_consumption_trans
                  no_higher_consumption_imetrics x (Hgcl x ltac:(by left)) w) as Hx.
    destruct (result_of (LimitExceeded obj x) w); cbn [snd]; [exact Hx|].
    eapply no_higher_consumption_trans; [exact Hx|].
    apply IHl. intros; apply Hgcl; by right. }
  unfold result_of, world_after in *. rewrite AnyLimitExceeded_loop_cons in *.
  destruct (result_of (LimitExceeded obj t) w) eqn:Hr; [discriminate|].
  apply elem_of_cons in Ht' as [->|Ht'].
  - intros [Hlim Hover].
    assert (Hnot : ~ exceeded obj (heap_after (LimitExceeded obj t) w) t).
    { intros Hex. apply LimitExceeded_result in Hex. congruence. }
    apply Hnot. split; [done|].
    pose proof (Hrest (world_after (LimitExceeded obj t) w) t) as Hle.
    lia.
  - apply IH; [intros; apply Hgc; by right|done|done].
Qed.

End LimitChecks.

(** X7.  What [LimitExceeded()] answers is true of the store it leaves: it
    returns true iff the tracker has a limit and its consumption is above the
    limit when the call returns.  When the limit is not exceeded at the call,
    nothing happens at all: no metric is published, [GcMemory] is not called,
    store and log are unchanged. *)
Theorem LimitExceeded_answers_for_the_store_it_leaves
    (obj : ptr -> MemTracker) (this : ptr) (w : world) :
  (result_of (LimitExceeded obj this) w = true
   <-> exceeded obj (heap_after (LimitExceeded obj this) w) this)
  /\ (~ exceeded obj (heap w) this -> LimitExceeded obj this w = (false, w)).
Proof.
  split; [apply LimitExceeded_result | apply LimitExceeded_within].
Qed.

Lemma LimitExceeded_answers_for_the_store_it_leaves_witness :
  let w90 := world_after (Consume Scenario.chain3 1%nat 90) Scenario.fresh in
  result_of (LimitExceeded Scenario.chain3 1%nat) w90 = true
  /\ LimitExceeded Scenario.chain3 0%nat w90 = (false, w90).
Proof.
  intros w90.
  destruct (LimitExceeded_answers_for_the_store_it_leaves Scenario.chain3 1%nat w90)
    as [[_ Hif] _].
  destruct (LimitExceeded_answers_for_the_store_it_leaves Scenario.chain3 0%nat w90)
    as [_ Hidle].
  split.
  - apply Hif. split; vm_compute; [discriminate | reflexivity].
  - apply Hidle. intros [_ Hover]. vm_compute in Hover. discriminate.
Defined.

(** X8.  [AnyLimitExceeded()] on a tracker none of whose [limit_trackers_]
    is over its limit returns false and does nothing else: no callback is
    called, store and log are unchanged. *)
Theorem AnyLimitExceeded_within_limits_is_idle
    (obj : ptr -> MemTracker) (this : ptr) (w : world) :
  (forall t, t ∈ limit_trackers_ (obj this) -> ~ exceeded obj (heap w) t) ->
  AnyLimitExceeded obj this w = (false, w).
Proof. apply AnyLimitExceeded_loop_within. Qed.

Lemma AnyLimitExceeded_within_limits_is_idle_witness :
  let w30 := world_after (TryConsume Scenario.chain2 1%nat 30) Scenario.fresh in
  AnyLimitExceeded Scenario.chain2 1%nat w30 = (false, w30).
Proof.
  intros w30. apply (AnyLimitExceeded_within_limits_is_idle Scenario.chain2 1%nat w30).
  intros t Ht [_ Hover]. change (t ∈ [1%nat; 0%nat]) in Ht.
  apply elem_of_cons in Ht as [->|Ht];
    [|apply list_elem_of_singleton in Ht as ->];
    vm_compute in Hover; discriminate.
Defined.

(** X9.  With GC callbacks that never raise a consumption,
    [AnyLimitExceeded()] returns true iff, when it returns, one of the
    trackers in [limit_trackers_] has a limit and a consumption above it. *)
Theorem AnyLimitExceeded_iff_some_limit_exceeded
    (obj : ptr -> MemTracker) (this : ptr) (w : world) :
  (forall t, t ∈ limit_trackers_ (obj this) ->
             gc_functions_respect obj no_higher_consumption t) ->
  (result_of (AnyLimitExceeded obj this) w = true
   <-> exists t, t ∈ limit_trackers_ (obj this)
                 /\ exceeded obj (heap_after (AnyLimitExceeded obj this) w) t).
Proof.
  intros Hgc. unfold AnyLimitExceeded. split.
  - apply AnyLimitExceeded_loop_true.
  - intros (t & Ht & Hex).
    destruct (result_of (AnyLimitExceeded_loop obj (limit_trackers_ (obj this))) w)
      eqn:Hres; [reflexivity|].
    exfalso. by apply (AnyLimitExceeded_loop_false obj _ Hgc w Hres t Ht).
Qed.

Lemma AnyLimitExceeded_iff_some_limit_exceeded_witness :
  result_of (AnyLimitExceeded Scenario.chain3 2%nat)
            (world_after (Consume Scenario.chain3 2%nat 90) Scenario.fresh) = true
  /\ result_of (AnyLimitExceeded Scenario.chain3 2%nat)
               (world_after (Consume Scenario.chain3 2%nat 80) Scenario.fresh) <> true.
Proof.
  assert (Hgc : forall t, t ∈ limit_trackers_ (Scenario.chain3 2%nat) ->
                  gc_functions_respect Scenario.chain3 no_higher_consumption t).
  { intros t Ht f m Hf p.
    destruct t as [|[|t]]; cbn in Hf.
    - inversion Hf.
    - apply list_elem_of_singleton in Hf as ->. reflexivity.
    - destruct t; inversion Hf. }
  destruct (AnyLimitExceeded_iff_some_limit_exceeded Scenario.chain3 2%nat
              (world_after (Consume Scenario.chain3 2%nat 90) Scenario.fresh) Hgc)
    as [_ Hif].
  destruct (AnyLimitExceeded_iff_some_limit_exceeded Scenario.chain3 2%nat
              (world_after (Consume Scenario.chain3 2%nat 80) Scenario.fresh) Hgc)
    as [Honly _].
  split.
  - apply Hif. exists 1%nat. split; [by_evaluation|].
    split; vm_compute; [discriminate | reflexivity].
  - intros Htrue. destruct (Honly Htrue) as (t & Ht & _ & Hover).
    change (t ∈ [1%nat; 0%nat]) in Ht.
    apply elem_of_cons in Ht as [->|Ht];
      [|apply list_elem_of_singleton in Ht as ->];
      vm_compute in Hover; discriminate.
Defined.


(** ** EnableLogging *)

Section Logging.

Lemma agree_ret {A : Type} (a : A) : agree (ret a) (ret a).
Proof.
  intros w w' Hh Hl. by rewrite !result_ret, !world_ret.
Qed.

Lemma agree_bind {A B : Type} (c c' : M A) (k k' : A -> M B) :
  agree c c' -> (forall a, agree (k a) (k' a)) -> agree (bind c k) (bind c' k').
Proof.
  intros Hc Hk w w' Hh Hl. rewrite !result_bind, !world_bind.
  destruct (Hc w w' Hh Hl) as (Hr & Hh' & Hl'). rewrite Hr.
  by apply Hk.
Qed.

Lemma calls_app es es' : calls (es ++ es') = calls es ++ calls es'.
Proof. apply List.filter_app. Qed.

Lemma agree_emit e : agree (emit e) (emit e).
Proof.
  intros w w' Hh Hl. unfold result_of, world_after, emit. cbn [fst snd heap log].
  by rewrite !calls_app, Hl, Hh.
Qed.

Lemma agree_get_heap : agree get_heap get_heap.
Proof.
  intros w w' Hh Hl. unfold result_of, world_after, get_heap. by cbn [fst snd].
Qed.

Lemma agree_modify_heap f : agree (modify_heap f) (modify_heap f).
Proof.
  intros w w' Hh Hl. unfold result_of, world_after, modify_heap.
  cbn [fst snd heap log]. by rewrite Hh.
Qed.

Lemma agree_when b c c' : agree c c' -> agree (when b c) (when b c').
Proof. intros Hc. destruct b; [exact Hc | apply agree_ret]. Qed.

(** Whether [LogUpdate] is called makes no difference. *)
Lemma agree_logging b b' t is_consume bytes :
  agree (when b (LogUpdate t is_consume bytes)) (when b' (LogUpdate t is_consume bytes)).
Proof.
  intros w w' Hh Hl. unfold result_of, world_after, when, LogUpdate, emit, ret.
  destruct b, b'; cbn [fst snd heap log]; rewrite ?calls_app; cbn [calls List.filter
    is_LogUpdate negb]; rewrite ?app_nil_r; done.
Qed.

Lemma agree_for_each {A : Type} (l : list A) (body body' : A -> M unit) :
  (forall x, agree (body x) (body' x)) -> agree (for_each l body) (for_each l body').
Proof.
  intros Hb. induction l as [|x l IH]; cbn [for_each]; [apply agree_ret|].
  apply agree_bind; [apply Hb | intros _; apply IH].
Qed.

End Logging.


Ltac agree_monad :=
  lazymatch goal with
  | |- agree (ret _) (ret _) => apply agree_ret
  | |- agree (bind _ _) (bind _ _) => apply agree_bind; [|intros ?]
  | |- agree (emit _) (emit _) => apply agree_emit
  | |- agree get_heap get_heap => apply agree_get_heap
  | |- agree (modify_heap _) (modify_heap _) => apply agree_modify_heap
  | |- agree (when _ (LogUpdate _ _ _)) (when _ (LogUpdate _ _ _)) =>
      apply agree_logging
  | |- agree (when _ _) (when _ _) => apply agree_when
  | |- agree (for_each _ _) (for_each _ _) => apply agree_for_each; intros ?
  | |- agree (let _ := _ in _) _ => cbv zeta
  | |- agree (if ?b then _ else _) _ => destruct b
  | |- agree (match ?o with Some _ => _ | None => _ end) _ => destruct o
  end.

Section LoggingPrimitives.

Lemma agree_consumption_Set t v : agree (consumption_Set t v) (consumption_Set t v).
Proof. unfold consumption_Set. repeat agree_monad. Qed.

Lemma agree_consumption_Update t d :
  agree (consumption_Update t d) (consumption_Update t d).
Proof. unfold consumption_Update. repeat agree_monad. Qed.

Lemma agree_consumption_TryUpdate t d mx :
  agree (consumption_TryUpdate t d mx) (consumption_TryUpdate t d mx).
Proof. unfold consumption_TryUpdate. repeat agree_monad. Qed.

Lemma agree_consumption t : agree (consumption t) (consumption t).
Proof. unfold consumption. repeat agree_monad. Qed.

Lemma agree_metric_value mp : agree (metric_value mp) (metric_value mp).
Proof. unfold metric_value. repeat agree_monad. Qed.

Lemma agree_metric_Update mp v : agree (metric_Update mp v) (metric_Update mp v).
Proof. unfold metric_Update. repeat agree_monad. Qed.

Lemma agree_DCHECK t cond : agree (DCHECK t cond) (DCHECK t cond).
Proof. unfold DCHECK. repeat agree_monad. Qed.

Lemma agree_publish metric v : agree (publish metric v) (publish metric v).
Proof.
  unfold publish. destruct metric; [|apply agree_ret].
  apply agree_bind; [apply agree_get_heap | intros ?; apply agree_metric_Update].
Qed.

Lemma agree_run_gc_functions t mx fs :
  forall index,
    agree (run_gc_functions t mx index fs) (run_gc_functions t mx index fs).
Proof.
  induction fs as [|f fs IH]; intros index; cbn [run_gc_functions];
    [apply agree_ret|].
  apply agree_bind; [apply agree_emit | intros _].
  apply agree_bind; [apply agree_modify_heap | intros _].
  apply agree_bind; [apply agree_consumption | intros c].
  destruct (c <=? mx); [apply agree_ret | apply IH].
Qed.

End LoggingPrimitives.

Ltac agree_step :=
  first
    [ agree_monad
    | lazymatch goal with
      | |- agree (consumption_Set _ _) _ => apply agree_consumption_Set
      | |- agree (consumption_Update _ _) _ => apply agree_consumption_Update
      | |- agree (consumption_TryUpdate _ _ _) _ => apply agree_consumption_TryUpdate
      | |- agree (consumption _) _ => apply agree_consumption
      | |- agree (metric_value _) _ => apply agree_metric_value
      | |- agree (metric_Update _ _) _ => apply agree_metric_Update
      | |- agree (DCHECK _ _) _ => apply agree_DCHECK
      | |- agree (publish _ _) _ => apply agree_publish
      | |- agree (run_gc_functions _ _ _ _) _ => apply agree_run_gc_functions
      end ].

Section LoggingOperations.

Variables obj obj' : ptr -> MemTracker.
Hypothesis Hsame : same_but_logging obj obj'.

Lemma same_fields p :
  limit_ (obj' p) = limit_ (obj p)
  /\ parent_ (obj' p) = parent_ (obj p)
  /\ consumption_metric_ (obj' p) = consumption_metric_ (obj p)
  /\ all_trackers_ (obj' p) = all_trackers_ (obj p)
  /\ limit_trackers_ (obj' p) = limit_trackers_ (obj p)
  /\ gc_functions_ (obj' p) = gc_functions_ (obj p)
  /\ num_gcs_metric_ (obj' p) = num_gcs_metric_ (obj p)
  /\ bytes_freed_by_last_gc_metric_ (obj' p) = bytes_freed_by_last_gc_metric_ (obj p)
  /\ bytes_over_limit_metric_ (obj' p) = bytes_over_limit_metric_ (obj p).
Proof. rewrite (Hsame p). repeat split. Qed.

Lemma agree_GcMemory t mx : agree (GcMemory obj t mx) (GcMemory obj' t mx).
Proof.
  unfold GcMemory.
  destruct (same_fields t) as (_ & _ & _ & _ & _ & -> & -> & -> & _).
  repeat agree_step.
Qed.

Lemma agree_Consume this bytes : agree (Consume obj this bytes) (Consume obj' this bytes).
Proof.
  unfold Consume.
  destruct (same_fields this) as (_ & -> & -> & -> & _).
  repeat agree_step.
Qed.

Lemma agree_Release this bytes : agree (Release obj this bytes) (Release obj' this bytes).
Proof.
  unfold Release.
  destruct (same_fields this) as (_ & -> & -> & -> & _).
  repeat agree_step.
Qed.

Lemma agree_TryConsume_body bytes t :
  agree (TryConsume_body obj bytes t) (TryConsume_body obj' bytes t).
Proof.
  unfold TryConsume_body.
  destruct (same_fields t) as (-> & _).
  repeat first [agree_step | apply agree_GcMemory].
Qed.

Lemma agree_TryConsume_loop bytes remaining :
  forall i,
    agree (TryConsume_loop obj bytes remaining i) (TryConsume_loop obj' bytes remaining i).
Proof.
  induction remaining as [|t rest IH]; intros i; cbn [TryConsume_loop];
    [apply agree_ret|].
  apply agree_bind; [apply agree_TryConsume_body | intros continue].
  destruct continue; [apply IH | apply agree_ret].
Qed.

Lemma agree_TryConsume this bytes :
  agree (TryConsume obj this bytes) (TryConsume obj' this bytes).
Proof.
  unfold TryConsume.
  destruct (same_fields this) as (_ & _ & -> & -> & _).
  repeat first [agree_step | apply agree_TryConsume_loop].
Qed.

Lemma agree_LimitExceeded this :
  agree (LimitExceeded obj this) (LimitExceeded obj' this).
Proof.
  unfold LimitExceeded, CheckLimitExceeded.
  destruct (same_fields this) as (-> & _ & _ & _ & _ & _ & _ & _ & ->).
  repeat first [agree_step | apply agree_GcMemory].
Qed.

Lemma agree_AnyLimitExceeded this :
  agree (AnyLimitExceeded obj this) (AnyLimitExceeded obj' this).
Proof.
  unfold AnyLimitExceeded.
  destruct (same_fields this) as (_ & _ & _ & _ & -> & _).
  induction (limit_trackers_ (obj this)) as [|t rest IH];
    cbn [AnyLimitExceeded_loop]; [apply agree_ret|].
  apply agree_bind; [apply agree_LimitExceeded | intros exceeded].
  destruct exceeded; [apply agree_ret | apply IH].
Qed.

End LoggingOperations.

Lemma same_but_logging_with_logging obj tracker enable log_stack :
  same_but_logging obj (with_logging obj tracker enable log_stack).
Proof.
  intros p. unfold with_logging. destruct (decide (p = tracker)); [reflexivity|].
  by destruct (obj p).
Qed.

(** X10.  [EnableLogging] changes which calls of [LogUpdate] are made and
    nothing else: after [tracker->EnableLogging(enable, log_stack)], on any
    tracker and with any arguments, [Consume], [TryConsume], [Release],
    [LimitExceeded] and [AnyLimitExceeded] return the same value, leave the
    same store and make the same calls on counters, metrics and GC callbacks
    as before, also when run after operations that themselves differed in
    their [LogUpdate] calls only. *)
Theorem EnableLogging_changes_LogUpdate_calls_only
    (obj : ptr -> MemTracker) (tracker : ptr) (enable log_stack : bool)
    (this : ptr) (bytes : Z) :
  let obj' := with_logging obj tracker enable log_stack in
  agree (Consume obj this bytes) (Consume obj' this bytes)
  /\ agree (TryConsume obj this bytes) (TryConsume obj' this bytes)
  /\ agree (Release obj this bytes) (Release obj' this bytes)
  /\ agree (LimitExceeded obj this) (LimitExceeded obj' this)
  /\ agree (AnyLimitExceeded obj this) (AnyLimitExceeded obj' this).
Proof.
  intros obj'.
  pose proof (same_but_logging_with_logging obj tracker enable log_stack) as Hsame.
  split; [by apply agree_Consume|].
  split; [by apply agree_TryConsume|].
  split; [by apply agree_Release|].
  split; [by apply agree_LimitExceeded | by apply agree_AnyLimitExceeded].
Qed.


(** ** The calls of LogUpdate *)

Section LogUpdateCalls.

Lemma logs_ret {A : Type} (a : A) : logs [] (ret a).
Proof. intros w. exists []. by rewrite world_ret, app_nil_r. Qed.

Lemma logs_bind {A B : Type} l l' (c : M A) (k : A -> M B) :
  logs l c -> (forall a, logs l' (k a)) -> logs (l ++ l') (bind c k).
Proof.
  intros Hc Hk w. rewrite world_bind.
  destruct (Hc w) as (es & Hes & Hl).
  destruct (Hk (result_of c w) (world_after c w)) as (es' & Hes' & Hl').
  exists (es ++ es'). split.
  - by rewrite Hes', Hes, app_assoc.
  - unfold logged in *. by rewrite List.filter_app, Hl, Hl'.
Qed.

Lemma logs_emit e : logs (logged [e]) (emit e).
Proof. intros w. by exists [e]. Qed.

Lemma logs_get_heap : logs [] get_heap.
Proof. intros w. exists []. unfold world_after, get_heap. cbn [snd]. by rewrite app_nil_r. Qed.

Lemma logs_modify_heap f : logs [] (modify_heap f).
Proof.
  intros w. exists []. unfold world_after, modify_heap. cbn [snd log].
  by rewrite app_nil_r.
Qed.

Lemma logs_when b c : logs [] c -> logs [] (when b c).
Proof. intros Hc. destruct b; [exact Hc | apply logs_ret]. Qed.

Lemma logs_for_each {A : Type} (l : list A) (body : A -> M unit) :
  (forall x, logs [] (body x)) -> logs [] (for_each l body).
Proof.
  intros Hb. induction l as [|x l IH]; cbn [for_each]; [apply logs_ret|].
  apply (logs_bind [] []); [apply Hb | intros _; apply IH].
Qed.

Lemma logged_emitted {A : Type} l (c : M A) w :
  logs l c -> logged (emitted c w) = l.
Proof.
  intros Hc. destruct (Hc w) as (es & Hes & Hl).
  by rewrite (emitted_of_log c w es Hes).
Qed.

End LogUpdateCalls.

Ltac quiet_monad :=
  lazymatch goal with
  | |- logs [] (ret _) => apply logs_ret
  | |- logs [] (bind _ _) => apply (logs_bind [] []); [|intros ?]
  | |- logs [] (emit _) => apply logs_emit
  | |- logs [] get_heap => apply logs_get_heap
  | |- logs [] (modify_heap _) => apply logs_modify_heap
  | |- logs [] (when _ _) => apply logs_when
  | |- logs [] (for_each _ _) => apply logs_for_each; intros ?
  | |- logs [] (let _ := _ in _) => cbv zeta
  | |- logs [] (if ?b then _ else _) => destruct b
  | |- logs [] (match ?o with Some _ => _ | None => _ end) => destruct o
  end.

Section QuietOperations.

Variable obj : ptr -> MemTracker.

Lemma logs_consumption_Set t v : logs [] (consumption_Set t v).
Proof. unfold consumption_Set. repeat quiet_monad. Qed.

Lemma logs_consumption_Update t d : logs [] (consumption_Update t d).
Proof. unfold consumption_Update. repeat quiet_monad. Qed.

Lemma logs_consumption_TryUpdate t d mx : logs [] (consumption_TryUpdate t d mx).
Proof. unfold consumption_TryUpdate. repeat quiet_monad. Qed.

Lemma logs_consumption t : logs [] (consumption t).
Proof. unfold consumption. repeat quiet_monad. Qed.

Lemma logs_metric_value mp : logs [] (metric_value mp).
Proof. unfold metric_value. repeat quiet_monad. Qed.

Lemma logs_metric_Update mp v : logs [] (metric_Update mp v).
Proof. unfold metric_Update. repeat quiet_monad. Qed.

Lemma logs_DCHECK t cond : logs [] (DCHECK t cond).
Proof. unfold DCHECK. repeat quiet_monad. Qed.

Lemma logs_publish metric v : logs [] (publish metric v).
Proof.
  unfold publish. destruct metric; [|apply logs_ret].
  apply (logs_bind [] []); [apply logs_get_heap | intros ?; apply logs_metric_Update].
Qed.

Lemma logs_run_gc_functions t mx fs :
  forall index, logs [] (run_gc_functions t mx index fs).
Proof.
  induction fs as [|f fs IH]; intros index; cbn [run_gc_functions];
    [apply logs_ret|].
  apply (logs_bind [] []); [apply logs_emit | intros _].
  apply (logs_bind [] []); [apply logs_modify_heap | intros _].
  apply (logs_bind [] []); [apply logs_consumption | intros c].
  destruct (c <=? mx); [apply logs_ret | apply IH].
Qed.

Lemma logs_GcMemory t mx : logs [] (GcMemory obj t mx).
Proof.
  unfold GcMemory.
  repeat first [quiet_monad | apply logs_consumption | apply logs_publish
               | apply logs_run_gc_functions].
Qed.

Lemma logs_charge_loop d l :
  logs [] (for_each l (fun tracker =>
     bind (consumption_Update tracker d) (fun _ =>
     bind (consumption tracker) (fun c => DCHECK tracker (c >=? 0))))).
Proof.
  repeat first [quiet_monad | apply logs_consumption_Update
               | apply logs_consumption | apply logs_DCHECK].
Qed.

Lemma logs_from_metric this (check : bool) :
  forall metric,
    logs [] (bind (if check then DCHECK this (bool_decide (parent_ (obj this) = None))
                   else ret tt) (fun _ =>
             bind (metric_value metric) (fun v =>
               consumption_Set this (Int64.of_uint64 v)))).
Proof.
  intros metric.
  repeat first [quiet_monad | apply logs_DCHECK | apply logs_metric_value
               | apply logs_consumption_Set].
Qed.

Lemma logs_LogUpdate (b : bool) this is_consume bytes :
  logs (if b then [EvLogUpdate this is_consume bytes] else [])
       (when b (LogUpdate this is_consume bytes)).
Proof. destruct b; [apply logs_emit | apply logs_ret]. Qed.

Lemma logs_Consume this bytes :
  logs (if enable_logging_ (obj this) && negb (bytes =? 0)
           && bool_decide (consumption_metric_ (obj this) = None)
        then [EvLogUpdate this true bytes] else [])
       (Consume obj this bytes).
Proof.
  unfold Consume. destruct (consumption_metric_ (obj this)) as [metric|].
  { rewrite andb_false_r. apply (logs_from_metric this true). }
  destruct (bytes =? 0); [rewrite andb_false_r; apply logs_ret|].
  rewrite !andb_true_r.
  rewrite <- (app_nil_r (if enable_logging_ (obj this) then _ else _)).
  apply logs_bind; [apply logs_LogUpdate | intros _; apply logs_charge_loop].
Qed.

Lemma logs_Release this bytes :
  logs (if enable_logging_ (obj this) && negb (bytes =? 0)
           && bool_decide (consumption_metric_ (obj this) = None)
        then [EvLogUpdate this false bytes] else [])
       (Release obj this bytes).
Proof.
  unfold Release. destruct (consumption_metric_ (obj this)) as [metric|].
  { rewrite andb_false_r. apply (logs_from_metric this true). }
  destruct (bytes =? 0); [rewrite andb_false_r; apply logs_ret|].
  rewrite !andb_true_r.
  rewrite <- (app_nil_r (if enable_logging_ (obj this) then _ else _)).
  apply logs_bind; [apply logs_LogUpdate | intros _; apply logs_charge_loop].
Qed.

Lemma logs_TryConsume_body bytes t : logs [] (TryConsume_body obj bytes t).
Proof.
  unfold TryConsume_body.
  repeat first [quiet_monad | apply logs_consumption_Update
               | apply logs_consumption_TryUpdate | apply logs_GcMemory].
Qed.

Lemma logs_TryConsume_loop bytes remaining :
  forall i, logs [] (TryConsume_loop obj bytes remaining i).
Proof.
  induction remaining as [|t rest IH]; intros i; cbn [TryConsume_loop];
    [apply logs_ret|].
  apply (logs_bind [] []); [apply logs_TryConsume_body | intros continue].
  destruct continue; [apply IH | apply logs_ret].
Qed.

Lemma logs_TryConsume this bytes :
  logs (if enable_logging_ (obj this) && negb (bytes =? 0)
        then [EvLogUpdate this true bytes] else [])
       (TryConsume obj this bytes).
Proof.
  unfold TryConsume.
  apply (logs_bind [] _).
  { destruct (consumption_metric_ (obj this)); [|apply logs_ret].
    repeat first [quiet_monad | apply logs_metric_value | apply logs_consumption_Set]. }
  intros _. destruct (bytes =? 0); [rewrite andb_false_r; apply logs_ret|].
  rewrite andb_true_r.
  rewrite <- (app_nil_r (if enable_logging_ (obj this) then _ else _)).
  apply logs_bind; [apply logs_LogUpdate | intros _].
  apply (logs_bind [] []); [apply logs_TryConsume_loop | intros i].
  repeat first [quiet_monad | apply logs_consumption_Update].
Qed.

Lemma logs_LimitExceeded this : logs [] (LimitExceeded obj this).
Proof.
  unfold LimitExceeded, CheckLimitExceeded.
  repeat first [quiet_monad | apply logs_consumption | apply logs_metric_Update
               | apply logs_GcMemory].
Qed.

End QuietOperations.

Lemma enable_logging_with_logging obj this enable log_stack :
  enable_logging_ (with_logging obj this enable log_stack this) = enable.
Proof. unfold with_logging. by rewrite decide_True. Qed.

Lemma consumption_metric_with_logging obj tracker enable log_stack this :
  consumption_metric_ (with_logging obj tracker enable log_stack this)
  = consumption_metric_ (obj this).
Proof. unfold with_logging. by destruct (decide (this = tracker)). Qed.

(** X11.  When the operations call [LogUpdate] (calls made inside GC
    callbacks are not part of the log, so the operations that can reach a
    callback are taken on trackers that have none).  After
    [this->EnableLogging(enable, log_stack)]: [Consume(bytes)] and
    [Release(bytes)], which never reach a callback, call [LogUpdate] once
    (with [true] and [false] for [is_consume]) when [enable] is set, [bytes]
    is not 0 and the tracker has no consumption metric, and not at all
    otherwise; when no tracker of the chain has a GC callback,
    [TryConsume(bytes)] calls it once when [enable] is set and [bytes] is
    not 0, also on a tracker with a consumption metric, and not at all
    otherwise; when the tracker has no GC callback, [LimitExceeded()] does
    not call it. *)
Theorem LogUpdate_calls_after_EnableLogging
    (obj : ptr -> MemTracker) (this : ptr) (enable log_stack : bool)
    (bytes : Z) (w : world) :
  let obj' := with_logging obj this enable log_stack in
  let plain := bool_decide (consumption_metric_ (obj this) = None) in
  logged (emitted (Consume obj' this bytes) w)
    = (if enable && negb (bytes =? 0) && plain
       then [EvLogUpdate this true bytes] else [])
  /\ logged (emitted (Release obj' this bytes) w)
     = (if enable && negb (bytes =? 0) && plain
        then [EvLogUpdate this false bytes] else [])
  /\ ((forall t, t ∈ all_trackers_ (obj this) -> gc_functions_ (obj t) = []) ->
      logged (emitted (TryConsume obj' this bytes) w)
      = (if enable && negb (bytes =? 0)
         then [EvLogUpdate this true bytes] else []))
  /\ (gc_functions_ (obj this) = [] ->
      logged (emitted (LimitExceeded obj' this) w) = []).
Proof.
  intros obj' plain.
  pose proof (enable_logging_with_logging obj this enable log_stack) as He.
  pose proof (consumption_metric_with_logging obj this enable log_stack this) as Hm.
  fold obj' in He, Hm.
  split; [|split; [|split]].
  - rewrite (logged_emitted _ _ w (logs_Consume obj' this bytes)).
    by rewrite He, Hm.
  - rewrite (logged_emitted _ _ w (logs_Release obj' this bytes)).
    by rewrite He, Hm.
  - intros _. rewrite (logged_emitted _ _ w (logs_TryConsume obj' this bytes)).
    by rewrite He.
  - intros _. apply (logged_emitted _ _ w (logs_LimitExceeded obj' this)).
Qed.

Lemma LogUpdate_calls_after_EnableLogging_witness :
  let logging := with_logging Scenario.chain2 1%nat true false in
  logged (emitted (Consume logging 1%nat 30) Scenario.fresh)
  = [EvLogUpdate 1%nat true 30]
  /\ logged (emitted (TryConsume logging 1%nat 30) Scenario.fresh)
     = [EvLogUpdate 1%nat true 30]
  /\ logged (emitted (LimitExceeded logging 1%nat)
               (world_after (Consume Scenario.chain2 1%nat 60) Scenario.fresh)) = [].
Proof.
  intros logging.
  destruct (LogUpdate_calls_after_EnableLogging Scenario.chain2 1%nat true false 30
              Scenario.fresh) as (Hconsume & _ & Htry & _).
  destruct (LogUpdate_calls_after_EnableLogging Scenario.chain2 1%nat true false 30
              (world_after (Consume Scenario.chain2 1%nat 60) Scenario.fresh))
    as (_ & _ & _ & Hlimit).
  split; [exact Hconsume|]. split.
  - apply Htry. intros t _. by destruct t.
  - apply Hlimit. reflexivity.
Defined.
